(** * postgraphile-upsert: the upsert mutation resolver

    A shallow embedding of the [resolve] function of the upsert mutation
    field, in the two versions the repository carries:

    - [UpsertField]: [createUpsertField] of the resolver plugin (the
      version with the inflection plugin and the ignore enum);
    - [UpsertPlugin]: [PgMutationUpsertPlugin] of
      [src/postgraphile-upsert.ts] (the version whose [ignore] argument
      is an object of booleans).

    Both select a unique constraint as conflict target
    ([matchingConstraint]), walk the attributes of the table to collect
    the insert columns and values ([attributes.forEach]), and build the
    [insert ... on conflict ... returning *] statement ([mutationQuery]).

    Of the hooks that make the mutation fields, the embedding has the
    choice of the tables ([upsertableTables]) and the fields of the
    [where] and [ignore] input types ([gqlInputTypesByFieldName],
    [fields]); the types themselves are made by graphile-build.

    JavaScript exceptions are an error monad ([Completion]); objects are
    association lists in the order of creation of their keys
    ([JsObject]); a [Set] that is only asked for membership is a
    [gset string], one that is also enumerated is the list of its members;
    the catalogue ([pgIntrospectionResultsByKind]), the inflectors,
    [pgOmit] and [gql2pg] are the fields of the [Build] record that the
    plugin receives.  The statement is the array of pg-sql2 nodes that
    [resolve] hands to [viaTemporaryTable]. *)

From Stdlib Require Import ZArith String Ascii List Bool Sorted.
From Stdlib Require Import Floats.SpecFloat.
From stdpp Require Import base gmap strings list pretty.

Local Open Scope string_scope.
Local Open Scope list_scope.

(** ** JavaScript values and exceptions *)

(** [type Primitive = string | number | null] of the source, with the
    booleans GraphQL also delivers.  A number is an IEEE double. *)
Inductive Primitive : Type :=
| PString (s : string)
| PNumber (x : spec_float)
| PBoolean (b : bool)
| PNull.

#[global] Instance spec_float_eq_dec : EqDecision spec_float.
Proof. solve_decision. Defined.

#[global] Instance Primitive_eq_dec : EqDecision Primitive.
Proof. solve_decision. Defined.

(** [a === b] on primitives: same type and same value; numbers compare as
    IEEE doubles (a NaN differs from itself, both zeros are equal). *)
Definition strictEquals (a b : Primitive) : bool :=
  match a, b with
  | PString s, PString t => String.eqb s t
  | PNumber x, PNumber y => SFeqb x y
  | PBoolean x, PBoolean y => Bool.eqb x y
  | PNull, PNull => true
  | _, _ => false
  end.

(** [a !== b]. *)
Definition strictNotEquals (a b : Primitive) : bool := negb (strictEquals a b).

(** What a [throw] carries. *)
Inductive Thrown : Type :=
| Error (message : string)
| AssertionError (message : string)
| TypeError (message : string).

(** The outcome of running a piece of the resolver. *)
Inductive Completion (A : Type) : Type :=
| Return (a : A)
| Throw (e : Thrown).
Arguments Return {A} a.
Arguments Throw {A} e.

#[global] Instance Completion_ret : MRet Completion := λ A a, Return a.
#[global] Instance Completion_bind : MBind Completion := λ A B f c,
  match c with
  | Return a => f a
  | Throw e => Throw e
  end.

(** [xs.reduce(f, init)] / [xs.forEach(f)] where [f] may throw. *)
Fixpoint reduceM {A B : Type} (f : A → B → Completion A) (xs : list B) (init : A)
  : Completion A :=
  match xs with
  | [] => Return init
  | x :: xs' => acc ← f init x; reduceM f xs' acc
  end.

(** [xs.map(f)] where [f] may throw. *)
Fixpoint mapM {A B : Type} (f : A → Completion B) (xs : list A) : Completion (list B) :=
  match xs with
  | [] => Return []
  | x :: xs' => y ← f x; ys ← mapM f xs'; Return (y :: ys)
  end.

(** [xs.every(p)] where [p] may throw; stops at the first [false]. *)
Fixpoint everyM {A : Type} (p : A → Completion bool) (xs : list A) : Completion bool :=
  match xs with
  | [] => Return true
  | x :: xs' =>
      match p x with
      | Return true => everyM p xs'
      | Return false => Return false
      | Throw e => Throw e
      end
  end.

(** [xs.find(p)] where [p] may throw; stops at the first [true]. *)
Fixpoint findM {A : Type} (p : A → Completion bool) (xs : list A) : Completion (option A) :=
  match xs with
  | [] => Return None
  | x :: xs' =>
      match p x with
      | Return true => Return (Some x)
      | Return false => findM p xs'
      | Throw e => Throw e
      end
  end.

(** [strings.join(sep)]. *)
Fixpoint join (sep : string) (xs : list string) : string :=
  match xs with
  | [] => EmptyString
  | [x] => x
  | x :: xs' => x +:+ sep +:+ join sep xs'
  end.

(** ** JavaScript objects as records of a request *)

(** Own properties in creation order.  The prototype chain is not
    modelled: the objects here are argument records. *)
Definition JsObject (V : Type) : Type := list (string * V).

(** [o[k]], [None] for [undefined]. *)
Fixpoint get {V : Type} (o : JsObject V) (k : string) : option V :=
  match o with
  | [] => None
  | (k', v) :: o' => if String.eqb k' k then Some v else get o' k
  end.

(** [Object.prototype.hasOwnProperty.call(o, k)], also [k in o]. *)
Definition hasOwnProperty {V : Type} (o : JsObject V) (k : string) : bool :=
  match get o k with
  | Some _ => true
  | None => false
  end.

(** [{...o, [k]: v}]: a key already there keeps its place. *)
Fixpoint set {V : Type} (o : JsObject V) (k : string) (v : V) : JsObject V :=
  match o with
  | [] => [(k, v)]
  | (k', v') :: o' => if String.eqb k' k then (k, v) :: o' else (k', v') :: set o' k v
  end.

Definition digit (c : ascii) : option N :=
  let n := N_of_ascii c in
  if ((48 <=? n) && (n <=? 57))%N then Some (n - 48)%N else None.

Fixpoint digits (s : string) (acc : N) : option N :=
  match s with
  | EmptyString => Some acc
  | String c s' => d ← digit c; digits s' (10 * acc + d)%N
  end.

(** The array index a property key denotes, if it is a canonical numeric
    string below 2^32 - 1.  Such keys are enumerated first, in ascending
    order, whatever the order of creation. *)
Definition arrayIndex (k : string) : option N :=
  match k with
  | EmptyString => None
  | String "0"%char EmptyString => Some 0%N
  | String "0"%char _ => None
  | _ => n ← digits k 0; if (n <? 4294967295)%N then Some n else None
  end.

Fixpoint insertByIndex {V : Type} (e : N * (string * V)) (l : list (N * (string * V)))
  : list (N * (string * V)) :=
  match l with
  | [] => [e]
  | e' :: l' => if (e.1 <=? e'.1)%N then e :: l else e' :: insertByIndex e l'
  end.

(** [Object.entries(o)]: array-index keys ascending, then the other keys
    in creation order. *)
Definition Object_entries {V : Type} (o : JsObject V) : list (string * V) :=
  (foldr insertByIndex [] (omap (λ kv, n ← arrayIndex kv.1; Some (n, kv)) o)).*2
  ++ List.filter (λ kv, match arrayIndex kv.1 with None => true | Some _ => false end) o.

(** [Object.keys(o)]. *)
Definition Object_keys {V : Type} (o : JsObject V) : list string := (Object_entries o).*1.

(** [new Set(xs)], as the array of its members: the first occurrence of
    each, in order. *)
Definition newSet {A : Type} `{EqDecision A} (xs : list A) : list A :=
  reverse (remove_dups (reverse xs)).

(** ** SQL fragments (pg-sql2) *)

Inductive SQLNode : Type :=
| RAW (text : string)
| IDENTIFIER (names : list string)
| VALUE (value : Primitive).

#[global] Instance SQLNode_eq_dec : EqDecision SQLNode.
Proof. solve_decision. Defined.

(** A [sql.query] or [sql.fragment] is an array of nodes: one [RAW] node
    for each non-empty chunk of the template, and the nodes of the
    interpolated values in between. *)
Definition SQLQuery : Type := list SQLNode.

Module sql.
(** [sql.identifier(...names)]. *)
Definition identifier (names : list string) : SQLNode := IDENTIFIER names.

(** [sql.join(items, separator)]: the items, flattened, with the raw
    separator between them. *)
Fixpoint join (items : list SQLQuery) (separator : string) : SQLQuery :=
  match items with
  | [] => []
  | [x] => x
  | x :: items' => x ++ RAW separator :: join items' separator
  end.
End sql.

(** ** The catalogue and the build object *)

Module PgAttribute.
Record t : Type := mk {
  classId : string;
  num : Z;
  name : string;
  type : string;
  typeModifier : option Z;
}.
End PgAttribute.

Module PgConstraint.
Record t : Type := mk {
  classId : string;
  name : string;
  type : string;
  keyAttributeNums : list Z;
}.
End PgConstraint.

(** [namespace] holds [table.namespace.name], when the table has a
    namespace. *)
Module PgTable.
Record t : Type := mk {
  id : string;
  namespace : option string;
  name : string;
}.
End PgTable.

#[global] Instance PgAttribute_eq_dec : EqDecision PgAttribute.t.
Proof. solve_decision. Defined.

Record Inflection : Type := {
  camelCase : string → string;
  constantCase : string → string;
  _columnName : PgAttribute.t → string;
  column : PgAttribute.t → string;
  tableType : PgTable.t → string;
}.

Record IntrospectionResultsByKind : Type := {
  constraint : list PgConstraint.t;
  attribute : list PgAttribute.t;
}.

(** The fields of [build] the resolver uses.  [gql2pg], the inflectors and
    [pgOmit] belong to graphile-build; they are taken as given. *)
Record Build : Type := {
  gql2pg : Primitive → string → option Z → SQLQuery;
  inflection : Inflection;
  pgIntrospectionResultsByKind : IntrospectionResultsByKind;
  pgOmit : PgAttribute.t → string → bool;
}.

(** [upsertIgnoreColumnEnum] of [PgMutationUpsertInflectionPlugin]. *)
Definition upsertIgnoreColumnEnum (inflection : Inflection) (attr : PgAttribute.t) : string :=
  constantCase inflection (_columnName inflection attr).

(** ** The attribute loop and the statement, as both versions have them *)

(** The arrays and the ignore collection the loop fills. *)
Record Columns (I : Type) : Type := {
  sqlColumns : list SQLNode;
  sqlValues : list SQLQuery;
  ignoreUpdate : I;
}.
Arguments sqlColumns {I} _.
Arguments sqlValues {I} _.
Arguments ignoreUpdate {I} _.

Definition valueMismatch (fieldName : string) : Thrown :=
  Error ("Value passed in the input for " +:+ fieldName
         +:+ " does not match the where clause value.").

Section forEach.
Context {I : Type} (build : Build).
Context (where_ : option (JsObject Primitive)) (inputData : JsObject Primitive).
(** What the version does to its ignore collection at an attribute. *)
Context (mark : PgAttribute.t → I → I).

(** [whereClauseValue], [Some] exactly when [hasWhereClauseValue]. *)
Definition whereClauseValue (attr : PgAttribute.t) : option Primitive :=
  w ← where_; get w (camelCase (inflection build) (PgAttribute.name attr)).

Definition push (acc : Columns I) (attr : PgAttribute.t) (v : Primitive) (i : I) : Columns I :=
  {| sqlColumns := sqlColumns acc ++ [sql.identifier [PgAttribute.name attr]];
     sqlValues := sqlValues acc
                  ++ [gql2pg build v (PgAttribute.type attr) (PgAttribute.typeModifier attr)];
     ignoreUpdate := i |}.

(** The body of [attributes.forEach((attr) => ...)].  [get inputData
    fieldName] is [Some val] when [hasOwnProperty(inputData, fieldName)],
    with [val = inputData[fieldName]]. *)
Definition forEachBody (acc : Columns I) (attr : PgAttribute.t) : Completion (Columns I) :=
  let i := mark attr (ignoreUpdate acc) in
  let fieldName := column (inflection build) attr in
  match get inputData fieldName with
  | Some val =>
      match whereClauseValue attr with
      | Some w =>
          if strictNotEquals w val then Throw (valueMismatch fieldName)
          else Return (push acc attr val i)
      | None => Return (push acc attr val i)
      end
  | None =>
      match whereClauseValue attr with
      | Some w => Return (push acc attr w i)
      | None => Return {| sqlColumns := sqlColumns acc; sqlValues := sqlValues acc;
                          ignoreUpdate := i |}
      end
  end.

Definition forEach (attributes : list PgAttribute.t) (init : Columns I)
  : Completion (Columns I) :=
  reduceM forEachBody attributes init.

End forEach.

(** [col.names[0]] of a column pushed by the loop. *)
Definition names0 (col : SQLNode) : string :=
  match col with
  | IDENTIFIER (n :: _) => n
  | _ => EmptyString
  end.

(** [conflictUpdateArray], given the filter of the version. *)
Definition conflictUpdateArray (keep : SQLNode → bool) (sqlColumns : list SQLNode)
  : list SQLQuery :=
  map (λ col, [sql.identifier [names0 col]; RAW " = excluded."; sql.identifier [names0 col]])
      (List.filter keep sqlColumns).

(** [mutationQuery].  Each run of white space of the template (line break
    and indentation) is written as one space, and the one that opens the
    template is left out. *)
Definition mutationQuery (namespaceName tableName constraintName : string)
    (sqlColumns : list SQLNode) (sqlValues conflictUpdateArray : list SQLQuery) : SQLQuery :=
  [RAW "insert into "; sql.identifier [namespaceName; tableName]; RAW " "]
  ++ (if (length sqlColumns =? 0)%nat
      then [RAW "default values"]
      else [RAW "("] ++ sql.join (map (λ col, [col]) sqlColumns) ", "
           ++ [RAW ") values ("] ++ sql.join sqlValues ", "
           ++ [RAW ") on conflict on constraint "; sql.identifier [constraintName];
               RAW " do update set "]
           ++ sql.join conflictUpdateArray ", ")
  ++ [RAW " returning *"].

Definition noMatchingConstraint (columns : list string) : Thrown :=
  Error ("Unable to determine upsert unique constraint for given upserted columns: "
         +:+ join ", " columns).

(** [attributes.find((attr) => attr.num === num)]. *)
Definition findAttribute (attributes : list PgAttribute.t) (num : Z) : option PgAttribute.t :=
  List.find (λ attr, (PgAttribute.num attr =? num)%Z) attributes.

Definition isUniqueOrPrimary (con : PgConstraint.t) : bool :=
  String.eqb (PgConstraint.type con) "u" || String.eqb (PgConstraint.type con) "p".

(** ** [createUpsertField]: the resolver of the newer plugin *)

Module UpsertField.

(** The arguments of [resolve]; [inputData] is
    [input[inflection.tableFieldName(table)]]. *)
Record Args : Type := {
  where_ : option (JsObject Primitive);
  inputData : JsObject Primitive;
  ignore : option (list string);
}.

Section resolve.
Context (build : Build) (table : PgTable.t).

Definition allUniqueConstraints : list PgConstraint.t :=
  List.filter isUniqueOrPrimary (constraint (pgIntrospectionResultsByKind build)).

Definition uniqueConstraints : list PgConstraint.t :=
  List.filter (λ con, String.eqb (PgConstraint.classId con) (PgTable.id table))
              allUniqueConstraints.

(** The [attributes] of [resolve]: filtered by table, in the order of the
    catalogue (not sorted again). *)
Definition attributes : list PgAttribute.t :=
  List.filter (λ attr, String.eqb (PgAttribute.classId attr) (PgTable.id table))
              (attribute (pgIntrospectionResultsByKind build)).

(** The member attributes of a constraint, as a [Set]; the [assert] throws
    at the first number that no attribute has. *)
Definition keyAttributes (con : PgConstraint.t) : Completion (list PgAttribute.t) :=
  cols ← mapM (λ num,
            match findAttribute attributes num with
            | Some match_ => Return match_
            | None => Throw (AssertionError ("no attribute found for " +:+ pretty num))
            end) (PgConstraint.keyAttributeNums con);
  Return (newSet cols).

Definition columnsByConstraintName : Completion (JsObject (list PgAttribute.t)) :=
  reduceM (λ acc con, cols ← keyAttributes con; Return (set acc (PgConstraint.name con) cols))
          uniqueConstraints [].

Definition primaryKeyConstraint : option PgConstraint.t :=
  List.find (λ con, String.eqb (PgConstraint.type con) "p") uniqueConstraints.

Context (args : Args).

(** [inputDataKeys]: a [Set] whose order of insertion the error message
    shows. *)
Definition inputDataKeys : list string := newSet (Object_keys (inputData args)).

(** [where ? ... : ... ?? ...]: an object, even an empty one, takes the
    first branch; [undefined] and [null] take the second. *)
Definition matchingConstraint (columns : JsObject (list PgAttribute.t))
  : option (string * list PgAttribute.t) :=
  match where_ args with
  | Some w =>
      List.find (λ entry,
          forallb (λ col, hasOwnProperty w (camelCase (inflection build) (PgAttribute.name col)))
                  entry.2)
        (Object_entries columns)
  | None =>
      match List.find (λ entry,
                forallb (λ col, bool_decide
                           (camelCase (inflection build) (PgAttribute.name col) ∈ inputDataKeys))
                        entry.2)
              (Object_entries columns) with
      | Some entry => Some entry
      | None =>
          List.find (λ entry,
              match primaryKeyConstraint with
              | Some pk => String.eqb entry.1 (PgConstraint.name pk)
              | None => false
              end)
            (Object_entries columns)
      end
  end.

Definition ignoreArg : gset string := list_to_set (default [] (ignore args)).

(** What the loop does to [ignoreUpdate] at an attribute. *)
Definition mark (attr : PgAttribute.t) (ignoreUpdate : gset string) : gset string :=
  if pgOmit build attr "update"
     || pgOmit build attr "updateOnConflict"
     || bool_decide (upsertIgnoreColumnEnum (inflection build) attr ∈ ignoreArg)
  then {[PgAttribute.name attr]} ∪ ignoreUpdate
  else ignoreUpdate.

(** The loop over the attributes, from empty arrays. *)
Definition reconcile : Completion (Columns (gset string)) :=
  forEach build (where_ args) (inputData args) mark attributes
          {| sqlColumns := []; sqlValues := []; ignoreUpdate := ∅ |}.

Definition keep (ignoreUpdate : gset string) (col : SQLNode) : bool :=
  negb (bool_decide (names0 col ∈ ignoreUpdate)).

(** The statement built from what the loop collected. *)
Definition statement (constraintName : string) (acc : Columns (gset string))
  : Completion SQLQuery :=
  match PgTable.namespace table with
  | None => Throw (AssertionError "expected table namespace")
  | Some namespaceName =>
      Return (mutationQuery namespaceName (PgTable.name table) constraintName
                (sqlColumns acc) (sqlValues acc)
                (conflictUpdateArray (keep (ignoreUpdate acc)) (sqlColumns acc)))
  end.

(** The rest of [resolve] once the constraint is chosen. *)
Definition upsert (constraintName : string) : Completion SQLQuery :=
  acc ← reconcile; statement constraintName acc.

(** [resolve], up to the statement it hands to [viaTemporaryTable]. *)
Definition resolve : Completion SQLQuery :=
  columns ← columnsByConstraintName;
  match matchingConstraint columns with
  | None => Throw (noMatchingConstraint inputDataKeys)
  | Some (constraintName, _) => upsert constraintName
  end.

End resolve.
End UpsertField.

(** ** [PgMutationUpsertPlugin] of [src/postgraphile-upsert.ts] *)

Module UpsertPlugin.

(** The arguments of [resolve]; [ignore] is an object of nullable
    booleans, [None] for [null]. *)
Record Args : Type := {
  where_ : option (JsObject Primitive);
  inputData : JsObject Primitive;
  ignore : option (JsObject (option bool));
}.

Definition undefinedName : Thrown :=
  TypeError "Cannot read properties of undefined (reading 'name')".

Section resolve.
Context (build : Build) (table : PgTable.t).

Definition uniqueConstraints : list PgConstraint.t :=
  List.filter isUniqueOrPrimary
    (List.filter (λ con, String.eqb (PgConstraint.classId con) (PgTable.id table))
                 (constraint (pgIntrospectionResultsByKind build))).

Definition attributes : list PgAttribute.t :=
  List.filter (λ attr, String.eqb (PgAttribute.classId attr) (PgTable.id table))
              (attribute (pgIntrospectionResultsByKind build)).

(** A member is [None] when [attributes.find] gave [undefined]. *)
Definition constraintColumns : JsObject (list (option PgAttribute.t)) :=
  foldl (λ acc con,
           set acc (PgConstraint.name con)
               (newSet (map (findAttribute attributes) (PgConstraint.keyAttributeNums con))))
        [] uniqueConstraints.

Definition primaryKeyConstraint : option PgConstraint.t :=
  List.find (λ con, String.eqb (PgConstraint.type con) "p") uniqueConstraints.

(** The [fieldName] in scope where [upsertedColumns] is computed: the name
    of the mutation field. *)
Definition fieldName : string := "upsert" +:+ tableType (inflection build) table.

Context (args : Args).

(** [upsertedColumns]: the filter returns [attr.name], so it keeps the
    attribute objects with a non-empty name when [inputData] has the
    property [fieldName], and none otherwise. *)
Definition upsertedColumns : list PgAttribute.t :=
  newSet (List.filter
            (λ attr, hasOwnProperty (inputData args) fieldName
                     && negb (String.eqb (PgAttribute.name attr) EmptyString))
            attributes).

(** A member of [upsertedColumns] is an attribute object, the key asked
    for is a string: the two are never the same value. *)
Definition sameValueZero (member : PgAttribute.t) (key : string) : bool := false.

Definition upsertedColumns_has (key : string) : bool :=
  existsb (λ member, sameValueZero member key) upsertedColumns.

Definition everyColumn (p : PgAttribute.t → bool) (columns : list (option PgAttribute.t))
  : Completion bool :=
  everyM (λ col, match col with
                 | Some col => Return (p col)
                 | None => Throw undefinedName
                 end) columns.

(** [where[k] !== undefined] holds exactly when [where] has the key [k]:
    its values are primitives. *)
Definition matchingConstraint : Completion (option (string * list (option PgAttribute.t))) :=
  match where_ args with
  | Some w =>
      findM (λ entry,
          everyColumn
            (λ col, hasOwnProperty w (camelCase (inflection build) (PgAttribute.name col)))
            entry.2)
        (Object_entries constraintColumns)
  | None =>
      byColumns ← findM (λ entry,
                      everyColumn (λ col, upsertedColumns_has (PgAttribute.name col)) entry.2)
                    (Object_entries constraintColumns);
      match byColumns with
      | Some entry => Return (Some entry)
      | None =>
          findM (λ entry,
              match primaryKeyConstraint with
              | Some pk => Return (String.eqb entry.1 (PgConstraint.name pk))
              | None => Throw undefinedName
              end)
            (Object_entries constraintColumns)
      end
  end.

(** What the loop does to [ignoreUpdate] at an attribute. *)
Definition mark (attr : PgAttribute.t) (ignoreUpdate : JsObject (option bool))
  : JsObject (option bool) :=
  let ignoreUpdate :=
    set ignoreUpdate (PgAttribute.name attr) (Some (pgOmit build attr "updateOnConflict")) in
  match ignore args with
  | Some ig =>
      match get ig (camelCase (inflection build) (PgAttribute.name attr)) with
      | Some v => set ignoreUpdate (PgAttribute.name attr) v
      | None => ignoreUpdate
      end
  | None => ignoreUpdate
  end.

Definition reconcile : Completion (Columns (JsObject (option bool))) :=
  forEach build (where_ args) (inputData args) mark attributes
          {| sqlColumns := []; sqlValues := []; ignoreUpdate := [] |}.

(** [ignoreUpdate[col.names[0]] != true]. *)
Definition keep (ignoreUpdate : JsObject (option bool)) (col : SQLNode) : bool :=
  match get ignoreUpdate (names0 col) with
  | Some (Some true) => false
  | _ => true
  end.

Definition statement (constraintName : string) (acc : Columns (JsObject (option bool)))
  : Completion SQLQuery :=
  match PgTable.namespace table with
  | None => Throw undefinedName
  | Some namespaceName =>
      Return (mutationQuery namespaceName (PgTable.name table) constraintName
                (sqlColumns acc) (sqlValues acc)
                (conflictUpdateArray (keep (ignoreUpdate acc)) (sqlColumns acc)))
  end.

(** The rest of [resolve] once the constraint is chosen. *)
Definition upsert (constraintName : string) : Completion SQLQuery :=
  acc ← reconcile; statement constraintName acc.

(** [resolve], up to the statement it hands to [viaTemporaryTable]. *)
Definition resolve : Completion SQLQuery :=
  found ← matchingConstraint;
  match found with
  | None => Throw (noMatchingConstraint (map (λ _, "[object Object]") upsertedColumns))
  | Some (constraintName, _) => upsert constraintName
  end.

End resolve.
End UpsertPlugin.

(** ** The reconciliation the specification describes *)

Section specification.
Context (build : Build).
Context (where_ : option (JsObject Primitive)) (inputData : JsObject Primitive).

(** The attribute is a key of both [where] and [input], with values that
    differ. *)
Definition mismatch (attr : PgAttribute.t) : bool :=
  match get inputData (column (inflection build) attr), whereClauseValue build where_ attr with
  | Some val, Some w => strictNotEquals w val
  | _, _ => false
  end.

(** The value inserted for an attribute: the one of [input], else the one
    of [where], else none. *)
Definition insertValue (attr : PgAttribute.t) : option Primitive :=
  match get inputData (column (inflection build) attr) with
  | Some val => Some val
  | None => whereClauseValue build where_ attr
  end.

(** The insert list: the attributes that have a value, in the order of
    the attribute list. *)
Definition insertList (attributes : list PgAttribute.t) : list (PgAttribute.t * Primitive) :=
  omap (λ attr, v ← insertValue attr; Some (attr, v)) attributes.

Definition columnOf (p : PgAttribute.t * Primitive) : SQLNode :=
  sql.identifier [PgAttribute.name p.1].

Definition valueOf (p : PgAttribute.t * Primitive) : SQLQuery :=
  gql2pg build p.2 (PgAttribute.type p.1) (PgAttribute.typeModifier p.1).

End specification.

(** ** The catalogue invariants and the selection the specification describes *)

(** The member attributes of a constraint: those its numbers resolve to. *)
Definition members (attributes : list PgAttribute.t) (con : PgConstraint.t)
  : list PgAttribute.t :=
  omap (findAttribute attributes) (PgConstraint.keyAttributeNums con).

(** Every member number of the constraint resolves to an attribute. *)
Definition resolves (attributes : list PgAttribute.t) (con : PgConstraint.t) : bool :=
  forallb (λ num, bool_decide (is_Some (findAttribute attributes num)))
          (PgConstraint.keyAttributeNums con).

(** Every member column name of the constraint is among the keys
    [present]. *)
Definition covers (inflection : Inflection) (attributes : list PgAttribute.t)
    (present : string → bool) (con : PgConstraint.t) : bool :=
  forallb (λ col, present (camelCase inflection (PgAttribute.name col)))
          (members attributes con).

(** The entry of [columnsByConstraintName] for a constraint. *)
Definition entryOf (attributes : list PgAttribute.t) (con : PgConstraint.t)
  : string * list PgAttribute.t :=
  (PgConstraint.name con, newSet (members attributes con)).

(** Every member number of every constraint resolves to an attribute. *)
Definition resolved (attributes : list PgAttribute.t) (constraints : list PgConstraint.t)
  : Prop :=
  forallb (resolves attributes) constraints = true.

(** The constraint names are distinct and none is an array index, so that
    [Object.entries] lists the constraints in the order of the catalogue. *)
Definition named (constraints : list PgConstraint.t) : Prop :=
  NoDup (map PgConstraint.name constraints)
  ∧ Forall (λ con, arrayIndex (PgConstraint.name con) = None) constraints.

(** ** The statements the specification describes *)

(** [insert into <relation> (<columns>) values (<values>) on conflict on
    constraint <constraint> <action> returning *]. *)
Definition upsertStatement (namespaceName tableName constraintName : string)
    (columns : list SQLNode) (values : list SQLQuery) (action : SQLQuery) : SQLQuery :=
  [RAW "insert into "; IDENTIFIER [namespaceName; tableName]; RAW " "; RAW "("]
  ++ sql.join (map (λ col, [col]) columns) ", "
  ++ [RAW ") values ("] ++ sql.join values ", "
  ++ [RAW ") on conflict on constraint "; IDENTIFIER [constraintName]]
  ++ action ++ [RAW " returning *"].

(** [<column> = excluded.<column>]. *)
Definition assignment (col : SQLNode) : SQLQuery :=
  [IDENTIFIER [names0 col]; RAW " = excluded."; IDENTIFIER [names0 col]].

(** [do update set <assignments>]. *)
Definition doUpdateSet (assignments : list SQLQuery) : SQLQuery :=
  RAW " do update set " :: sql.join assignments ", ".

(** [do nothing]. *)
Definition doNothing : SQLQuery := [RAW " do nothing"].

(** [insert into <relation> default values returning *]. *)
Definition defaultValuesStatement (namespaceName tableName : string) : SQLQuery :=
  [RAW "insert into "; IDENTIFIER [namespaceName; tableName]; RAW " ";
   RAW "default values"; RAW " returning *"].

(** The two versions are given the same [where] and the same input. *)
Definition sameRequest (fargs : UpsertField.Args) (pargs : UpsertPlugin.Args) : Prop :=
  UpsertPlugin.where_ pargs = UpsertField.where_ fargs
  ∧ UpsertPlugin.inputData pargs = UpsertField.inputData fargs.

(** The same properties, possibly in another order of keys. *)
Definition reordered {V : Type} (o o' : JsObject V) : Prop :=
  o ≡ₚ o' ∧ NoDup o.*1.

(** The flag of the specification: the attribute is left out of the
    update when the schema omits its update, or its update on conflict,
    or the caller lists it. *)
Definition updateExcluded (build : Build) (args : UpsertField.Args) (attr : PgAttribute.t)
  : bool :=
  pgOmit build attr "update"
  || pgOmit build attr "updateOnConflict"
  || bool_decide (upsertIgnoreColumnEnum (inflection build) attr ∈ UpsertField.ignoreArg args).

(** ** The tables of the test suite *)

Module Fixture.

Definition upper (c : ascii) : ascii :=
  let n := nat_of_ascii c in
  if ((97 <=? n) && (n <=? 122))%nat then ascii_of_nat (n - 32) else c.

(** [serial_number] to [serialNumber]. *)
Fixpoint camel (s : string) : string :=
  match s with
  | EmptyString => EmptyString
  | String c s' =>
      match c, s' with
      | "_"%char, String c' s'' => String (upper c') (camel s'')
      | _, _ => String c (camel s')
      end
  end.

(** [serial_number] to [SERIAL_NUMBER]. *)
Fixpoint constant (s : string) : string :=
  match s with
  | EmptyString => EmptyString
  | String c s' => String (upper c) (constant s')
  end.

(** [bikes] to [Bike] and [roles] to [Role]: the singular of the tables
    here drops the last letter. *)
Definition singular (s : string) : string :=
  match camel s with
  | EmptyString => EmptyString
  | String c s' => String (upper c) (substring 0 (String.length s' - 1) s')
  end.

Definition inflectors : Inflection :=
  {| camelCase := camel;
     constantCase := constant;
     _columnName := PgAttribute.name;
     column := λ attr, camel (PgAttribute.name attr);
     tableType := λ table, singular (PgTable.name table) |}.

Definition bikes : PgTable.t := PgTable.mk "1" (Some "public") "bikes".
Definition roles : PgTable.t := PgTable.mk "2" (Some "public") "roles".

(** The columns of [create table bikes] and [create table roles], in the
    order of their declaration. *)
Definition columns : list PgAttribute.t :=
  [ PgAttribute.mk "1" 1 "id" "int4" None;
    PgAttribute.mk "1" 2 "weight" "float4" None;
    PgAttribute.mk "1" 3 "make" "varchar" None;
    PgAttribute.mk "1" 4 "model" "varchar" None;
    PgAttribute.mk "1" 5 "serial_number" "varchar" None;
    PgAttribute.mk "2" 1 "id" "int4" None;
    PgAttribute.mk "2" 2 "project_name" "varchar" None;
    PgAttribute.mk "2" 3 "title" "varchar" None;
    PgAttribute.mk "2" 4 "name" "varchar" None;
    PgAttribute.mk "2" 5 "rank" "int4" None;
    PgAttribute.mk "2" 6 "updated" "timestamptz" None ].

Definition constraints : list PgConstraint.t :=
  [ PgConstraint.mk "1" "bikes_pkey" "p" [1%Z];
    PgConstraint.mk "1" "serial_weight_unique" "u" [5%Z; 2%Z];
    PgConstraint.mk "2" "roles_pkey" "p" [1%Z];
    PgConstraint.mk "2" "roles_project_name_title_key" "u" [2%Z; 3%Z] ].

(** [COMMENT ON COLUMN roles.rank IS E'@omit updateOnConflict']. *)
Definition omit (attr : PgAttribute.t) (permission : string) : bool :=
  String.eqb (PgAttribute.classId attr) "2"
  && String.eqb (PgAttribute.name attr) "rank"
  && String.eqb permission "updateOnConflict".

Definition build : Build :=
  {| gql2pg := λ val _ _, [VALUE val];
     inflection := inflectors;
     pgIntrospectionResultsByKind := {| constraint := constraints; attribute := columns |};
     pgOmit := omit |}.

(** The double of a GraphQL literal that denotes an integer, [0.0] and
    [0] alike. *)
Definition number (n : Z) : Primitive := PNumber (binary_normalize 53 1024 n 0 false).

End Fixture.

(** ** Requests of the test suite *)

Module Requests.
Import Fixture.

Definition field (where_ : option (JsObject Primitive)) (inputData : JsObject Primitive)
    (ignore : option (list string)) : UpsertField.Args :=
  {| UpsertField.where_ := where_; UpsertField.inputData := inputData;
     UpsertField.ignore := ignore |}.

Definition plugin (where_ : option (JsObject Primitive)) (inputData : JsObject Primitive)
    (ignore : option (JsObject (option bool))) : UpsertPlugin.Args :=
  {| UpsertPlugin.where_ := where_; UpsertPlugin.inputData := inputData;
     UpsertPlugin.ignore := ignore |}.

(** [where: { weight: 0.0, serialNumber: "123" }]. *)
Definition bikeWhere : JsObject Primitive :=
  [("weight", number 0); ("serialNumber", PString "123")].

(** [bike: { model: "kula deluxe v2" }]. *)
Definition bikeModel : JsObject Primitive := [("model", PString "kula deluxe v2")].

(** [bike: { model: "kula deluxe v2", weight: 0.0, serialNumber: "123" }]. *)
Definition bikeSame : JsObject Primitive :=
  [("model", PString "kula deluxe v2"); ("weight", number 0); ("serialNumber", PString "123")].

(** [bike: { model: "kula deluxe v2", weight: 0.0, serialNumber: "1234" }]. *)
Definition bikeOther : JsObject Primitive :=
  [("model", PString "kula deluxe v2"); ("weight", number 0); ("serialNumber", PString "1234")].

(** [bike: { make: "kona", model: "updated_model", weight: 20,
    serialNumber: "123" }]. *)
Definition bikeUnique : JsObject Primitive :=
  [("make", PString "kona"); ("model", PString "updated_model"); ("weight", number 20);
   ("serialNumber", PString "123")].

(** [where: { projectName: "sales", title: "director" }]. *)
Definition roleWhere : JsObject Primitive :=
  [("projectName", PString "sales"); ("title", PString "director")].

(** [role: { name: "frank", rank: 2 }]. *)
Definition roleFrank : JsObject Primitive := [("name", PString "frank"); ("rank", number 2)].

(** [role: { rank: 1 }]. *)
Definition roleRank : JsObject Primitive := [("rank", number 1)].

Definition weight : PgAttribute.t := PgAttribute.mk "1" 2 "weight" "float4" None.
Definition serial_number : PgAttribute.t := PgAttribute.mk "1" 5 "serial_number" "varchar" None.
Definition rank : PgAttribute.t := PgAttribute.mk "2" 5 "rank" "int4" None.
Definition updated : PgAttribute.t := PgAttribute.mk "2" 6 "updated" "timestamptz" None.

(** The catalogue, had the schema also [@omit update] on [roles.updated]. *)
Definition buildOmitUpdate : Build :=
  {| gql2pg := gql2pg build;
     inflection := inflectors;
     pgIntrospectionResultsByKind := pgIntrospectionResultsByKind build;
     pgOmit := λ attr permission,
       omit attr permission
       || (String.eqb (PgAttribute.classId attr) "2"
           && String.eqb (PgAttribute.name attr) "updated"
           && String.eqb permission "update") |}.

(** [role: { name: "frank", updated: "2020-01-01" }]. *)
Definition roleUpdated : JsObject Primitive :=
  [("name", PString "frank"); ("updated", PString "2020-01-01")].

End Requests.

(** ** What the loops leave in [ignoreUpdate] *)

(** The entry of [ignoreUpdate] that the loop of [PgMutationUpsertPlugin]
    leaves for an attribute: the entry of [ignore] when it has one ([null]
    included), else [omit(attr, "updateOnConflict")]. *)
Definition ignoreEntry (build : Build) (args : UpsertPlugin.Args) (attr : PgAttribute.t)
  : option bool :=
  match UpsertPlugin.ignore args with
  | Some ig =>
      match get ig (camelCase (inflection build) (PgAttribute.name attr)) with
      | Some v => v
      | None => Some (pgOmit build attr "updateOnConflict")
      end
  | None => Some (pgOmit build attr "updateOnConflict")
  end.

(** ** Where the nodes of a statement come from *)

(** The raw text of the templates of [resolve]: [mutationQuery], the
    update fragment and the separators of [sql.join]. *)
Definition templateText : list string :=
  ["insert into "; " "; "default values"; "("; ", "; ") values (";
   ") on conflict on constraint "; " do update set "; " = excluded."; " returning *"].

(** A value the request gives for an attribute: the one of the input, or
    the one of [where]. *)
Definition requestValue (build : Build) (where_ : option (JsObject Primitive))
    (inputData : JsObject Primitive) (attr : PgAttribute.t) (v : Primitive) : Prop :=
  get inputData (column (inflection build) attr) = Some v
  ∨ whereClauseValue build where_ attr = Some v.

(** The node is raw text of a template, the identifier of the table, of
    one of its unique constraints or of one of its attributes, or a node
    that [gql2pg] made of a value of the request. *)
Definition nodeOrigin (build : Build) (table : PgTable.t)
    (where_ : option (JsObject Primitive)) (inputData : JsObject Primitive) (node : SQLNode)
  : Prop :=
  (∃ text, text ∈ templateText ∧ node = RAW text)
  ∨ (∃ namespaceName, PgTable.namespace table = Some namespaceName
                      ∧ node = IDENTIFIER [namespaceName; PgTable.name table])
  ∨ (∃ con, con ∈ UpsertField.uniqueConstraints build table
            ∧ node = IDENTIFIER [PgConstraint.name con])
  ∨ (∃ attr, attr ∈ UpsertField.attributes build table
             ∧ node = IDENTIFIER [PgAttribute.name attr])
  ∨ (∃ attr v, attr ∈ UpsertField.attributes build table
               ∧ requestValue build where_ inputData attr v
               ∧ node ∈ gql2pg build v (PgAttribute.type attr) (PgAttribute.typeModifier attr)).

(** ** The hooks that make the mutation fields *)

(** [xs.some(p)] where [p] may throw; stops at the first [true]. *)
Fixpoint someM {A : Type} (p : A → Completion bool) (xs : list A) : Completion bool :=
  match xs with
  | [] => Return false
  | x :: xs' =>
      match p x with
      | Return true => Return true
      | Return false => someM p xs'
      | Throw e => Throw e
      end
  end.

(** A class of the catalogue, with what the hooks read of it: [table]
    holds its [id], [namespace] and [name]. *)
Module PgClass.
Record t : Type := mk {
  table : PgTable.t;
  primaryKeyConstraint : option PgConstraint.t;
  isSelectable : bool;
  isInsertable : bool;
  isUpdatable : bool;
}.
End PgClass.

(** What the hooks use of [build] beside the fields of [Build]: the
    classes of the catalogue, [pgOmit] on a class, [pgOmit] on
    [undefined] (which may throw), [key.typeId], and the lookup of the
    input type of a column, [None] when it finds none.  They belong to
    graphile-build-pg and are taken as given. *)
Record SchemaBuild (T : Type) : Type := {
  class : list PgClass.t;
  pgOmitClass : PgClass.t → string → bool;
  pgOmitUndefined : string → Completion bool;
  typeId : PgAttribute.t → string;
  pgGetGqlInputTypeByTypeIdAndModifier : string → option Z → option T;
}.
Arguments class {T} _.
Arguments pgOmitClass {T} _ _ _.
Arguments pgOmitUndefined {T} _ _.
Arguments typeId {T} _ _.
Arguments pgGetGqlInputTypeByTypeIdAndModifier {T} _ _ _.

(** [attributes.sort((a, b) => a.num - b.num)]: ascending [num]; the sort
    is stable, attributes of equal [num] keep their order. *)
Fixpoint insertByNum (a : PgAttribute.t) (sorted : list PgAttribute.t) : list PgAttribute.t :=
  match sorted with
  | [] => [a]
  | b :: sorted' =>
      if (PgAttribute.num a - PgAttribute.num b <=? 0)%Z then a :: sorted
      else b :: insertByNum a sorted'
  end.

Definition sortByNum (attributes : list PgAttribute.t) : list PgAttribute.t :=
  foldr insertByNum [] attributes.

Definition consistencyError : Thrown :=
  Error "Consistency error: could not find an attribute!".

Definition noInputType (key : PgAttribute.t) (tableTypeName : string) : Thrown :=
  Error ("Could not find input type for key '" +:+ PgAttribute.name key
         +:+ "' on type '" +:+ tableTypeName +:+ "'").

Section whereFields.
Context {T : Type} (build : Build) (schema : SchemaBuild T) (table : PgTable.t).

(** [attributes] of the hook: those of the table, sorted by [num]. *)
Definition sortedAttributes : list PgAttribute.t :=
  sortByNum (List.filter (λ attr, String.eqb (PgAttribute.classId attr) (PgTable.id table))
                         (attribute (pgIntrospectionResultsByKind build))).

(** [keys]: a member is [None] when [attributes.find] gave [undefined]. *)
Definition keys (con : PgConstraint.t) : list (option PgAttribute.t) :=
  map (findAttribute sortedAttributes) (PgConstraint.keyAttributeNums con).

(** [keys.some((key) => omit(key, "read"))]. *)
Definition omitsRead (con : PgConstraint.t) : Completion bool :=
  someM (λ key, match key with
                | Some key => Return (pgOmit build key "read")
                | None => pgOmitUndefined schema "read"
                end) (keys con).

(** [keys.every((_) => _)]. *)
Definition everyKey (con : PgConstraint.t) : bool :=
  forallb (λ key, match key with Some _ => true | None => false end) (keys con).

(** The input type of a key, or the error of the hook. *)
Definition inputType (key : option PgAttribute.t) : Completion (string * T) :=
  match key with
  | Some key =>
      match pgGetGqlInputTypeByTypeIdAndModifier schema (typeId schema key)
              (PgAttribute.typeModifier key) with
      | Some InputType => Return (camelCase (inflection build) (PgAttribute.name key), InputType)
      | None => Throw (noInputType key (tableType (inflection build) table))
      end
  | None => Throw UpsertPlugin.undefinedName
  end.

End whereFields.

(** The hooks of [PgMutationUpsertResolverPlugin]. *)
Module UpsertResolverPlugin.
Section hooks.
Context {T : Type} (build : Build) (schema : SchemaBuild T).

(** [upsertableTables] of the [build] hook. *)
Definition upsertableTables : list PgClass.t :=
  List.filter
    (λ table,
       bool_decide (is_Some (PgTable.namespace (PgClass.table table)))
       && bool_decide (is_Some (PgClass.primaryKeyConstraint table))
       && negb (pgOmitClass schema table "upsert")
       && PgClass.isSelectable table
       && PgClass.isInsertable table
       && PgClass.isUpdatable table)
    (class schema).

Context (table : PgTable.t).

(** [gqlInputTypesByFieldName] of [createUpsertField]: the fields of the
    [where] type. *)
Definition gqlInputTypesByFieldName : Completion (JsObject T) :=
  reduceM (λ acc con,
      match omitsRead build schema table con with
      | Return true => Return acc
      | Return false =>
          if negb (everyKey build table con) then Throw consistencyError
          else reduceM (λ acc key,
                   field ← inputType build schema table key;
                   Return (set acc field.1 field.2))
                 (keys build table con) acc
      | Throw e => Throw e
      end)
    (UpsertField.uniqueConstraints build table) [].

End hooks.
End UpsertResolverPlugin.

(** The [GraphQLObjectType:fields] hook of [PgMutationUpsertPlugin]. *)
Module UpsertPluginFields.
Section hook.
Context {T : Type} (build : Build) (schema : SchemaBuild T).

(** The tables the hook makes a field for. *)
Definition tables : list PgClass.t :=
  List.filter PgClass.isUpdatable
    (List.filter PgClass.isInsertable
       (List.filter PgClass.isSelectable
          (List.filter (λ table, negb (pgOmitClass schema table "upsert"))
             (List.filter (λ table, bool_decide (is_Some (PgClass.primaryKeyConstraint table)))
                (List.filter
                   (λ table, bool_decide (is_Some (PgTable.namespace (PgClass.table table))))
                   (class schema)))))).

Context (table : PgTable.t).

(** [acc[fieldName] = { type: InputType }], on [undefined] a [TypeError]. *)
Definition assign (acc : option (JsObject T)) (fieldName : string) (InputType : T)
  : Completion (option (JsObject T)) :=
  match acc with
  | Some acc => Return (Some (set acc fieldName InputType))
  | None => Throw (TypeError ("Cannot set properties of undefined (setting '"
                              +:+ fieldName +:+ "')"))
  end.

(** [fields] of the [where] type; [None] is [undefined], which the
    callback returns at a constraint with a column that omits [read]. *)
Definition fields : Completion (option (JsObject T)) :=
  reduceM (λ acc con,
      match omitsRead build schema table con with
      | Return true => Return None
      | Return false =>
          if negb (everyKey build table con) then Throw consistencyError
          else reduceM (λ acc key,
                   field ← inputType build schema table key;
                   assign acc field.1 field.2)
                 (keys build table con) acc
      | Throw e => Throw e
      end)
    (UpsertPlugin.uniqueConstraints build table) (Some []).

Context (GraphQLBoolean : T).

(** The fields of the [ignore] type: one for each attribute of the
    table. *)
Definition ignoreFields : JsObject T :=
  foldl (λ acc attr,
           set acc (camelCase (inflection build) (PgAttribute.name attr)) GraphQLBoolean)
        [] (sortedAttributes build table).

End hook.
End UpsertPluginFields.

(** ** The schema of the test suite *)

Module Schema.
Import Fixture.

Definition bikesClass : PgClass.t :=
  PgClass.mk bikes (Some (PgConstraint.mk "1" "bikes_pkey" "p" [1%Z])) true true true.

Definition rolesClass : PgClass.t :=
  PgClass.mk roles (Some (PgConstraint.mk "2" "roles_pkey" "p" [1%Z])) true true true.

(** The GraphQL input type of a Postgres type, by name. *)
Definition inputTypeName (typeId : string) (typeModifier : option Z) : option string :=
  if String.eqb typeId "int4" then Some "Int"
  else if String.eqb typeId "float4" then Some "Float"
  else if String.eqb typeId "varchar" then Some "String"
  else if String.eqb typeId "timestamptz" then Some "Datetime"
  else None.

Definition schema : SchemaBuild string :=
  {| class := [bikesClass; rolesClass];
     pgOmitClass := λ _ _, false;
     pgOmitUndefined := λ _,
       Throw (TypeError "Cannot read properties of undefined (reading 'tags')");
     typeId := PgAttribute.type;
     pgGetGqlInputTypeByTypeIdAndModifier := inputTypeName |}.

(** The catalogue, had [bikes] a unique constraint on a column number
    that the table does not have. *)
Definition buildDangling : Build :=
  {| gql2pg := gql2pg build;
     inflection := inflectors;
     pgIntrospectionResultsByKind :=
       {| constraint := constraints ++ [PgConstraint.mk "1" "bikes_weight_nine_key" "u" [2%Z; 9%Z]];
          attribute := columns |};
     pgOmit := omit |}.

(** The catalogue, had the schema also [@omit read] on [roles.title]. *)
Definition buildOmitRead : Build :=
  {| gql2pg := gql2pg build;
     inflection := inflectors;
     pgIntrospectionResultsByKind := pgIntrospectionResultsByKind build;
     pgOmit := λ attr permission,
       omit attr permission
       || (String.eqb (PgAttribute.classId attr) "2"
           && String.eqb (PgAttribute.name attr) "title"
           && String.eqb permission "read") |}.

(** [where: { weight: 0.0, serialNumber: "123", colour: "red" }], which
    the [where] type would refuse. *)
Definition bikeWhereColour : JsObject Primitive :=
  [("colour", PString "red"); ("serialNumber", PString "123"); ("weight", number 0)].

End Schema.

(** ** A table whose constraints are named by numbers *)

(** [create table pairs (a int, b int, constraint "5" primary key (a),
    constraint "3" unique (b))]: the catalogue lists the primary key
    first. *)
Module Numbered.
Import Fixture.

Definition pairs : PgTable.t := PgTable.mk "3" (Some "public") "pairs".

Definition pairColumns : list PgAttribute.t :=
  [ PgAttribute.mk "3" 1 "a" "int4" None;
    PgAttribute.mk "3" 2 "b" "int4" None ].

Definition pairConstraints : list PgConstraint.t :=
  [ PgConstraint.mk "3" "5" "p" [1%Z];
    PgConstraint.mk "3" "3" "u" [2%Z] ].

Definition buildNumbered : Build :=
  {| gql2pg := gql2pg build;
     inflection := inflectors;
     pgIntrospectionResultsByKind :=
       {| constraint := pairConstraints; attribute := pairColumns |};
     pgOmit := λ _ _, false |}.

(** [where: { a: 1, b: 2 }] and [pair: { a: 1, b: 2 }]. *)
Definition pairWhere : JsObject Primitive := [("a", number 1); ("b", number 2)].
Definition pairInput : JsObject Primitive := [("a", number 1); ("b", number 2)].

End Numbered.


(** * Properties *)

(** ** The attribute loop *)

Section forEach_facts.
Context {I : Type} (build : Build).
Context (where_ : option (JsObject Primitive)) (inputData : JsObject Primitive).
Context (mark : PgAttribute.t → I → I).

Lemma forEachBody_eq (acc : Columns I) (attr : PgAttribute.t) :
  forEachBody build where_ inputData mark acc attr =
  if mismatch build where_ inputData attr
  then Throw (valueMismatch (column (inflection build) attr))
  else Return {| sqlColumns :=
                   sqlColumns acc ++ map columnOf (insertList build where_ inputData [attr]);
                 sqlValues :=
                   sqlValues acc ++ map (valueOf build) (insertList build where_ inputData [attr]);
                 ignoreUpdate := mark attr (ignoreUpdate acc) |}.
Proof.
  unfold forEachBody, mismatch, insertList, insertValue, push. simpl.
  destruct (get inputData _) as [val|]; destruct (whereClauseValue _ _ _) as [w|]; simpl;
    try destruct (strictNotEquals w val); simpl; rewrite ?app_nil_r; reflexivity.
Qed.

Lemma insertList_cons (attr : PgAttribute.t) (attributes : list PgAttribute.t) :
  insertList build where_ inputData (attr :: attributes)
  = insertList build where_ inputData [attr] ++ insertList build where_ inputData attributes.
Proof.
  unfold insertList. simpl. destruct (insertValue build where_ inputData attr); reflexivity.
Qed.

(** The loop either stops at the first attribute whose values differ, or
    returns the insert list in the order of the attributes. *)
Lemma forEach_eq (attributes : list PgAttribute.t) (init : Columns I) :
  forEach build where_ inputData mark attributes init =
  match List.find (mismatch build where_ inputData) attributes with
  | Some attr => Throw (valueMismatch (column (inflection build) attr))
  | None =>
      Return {| sqlColumns :=
                  sqlColumns init ++ map columnOf (insertList build where_ inputData attributes);
                sqlValues :=
                  sqlValues init
                  ++ map (valueOf build) (insertList build where_ inputData attributes);
                ignoreUpdate := foldl (λ i attr, mark attr i) (ignoreUpdate init) attributes |}
  end.
Proof.
  unfold forEach. revert init.
  induction attributes as [|attr attributes IH]; intros init.
  - simpl. rewrite !app_nil_r. by destruct init.
  - rewrite (insertList_cons attr attributes), !map_app, !app_assoc.
    cbn [reduceM List.find foldl]. rewrite forEachBody_eq.
    destruct (mismatch build where_ inputData attr); [done|].
    exact (IH {| sqlColumns :=
                   sqlColumns init ++ map columnOf (insertList build where_ inputData [attr]);
                 sqlValues :=
                   sqlValues init
                   ++ map (valueOf build) (insertList build where_ inputData [attr]);
                 ignoreUpdate := mark attr (ignoreUpdate init) |}).
Qed.

End forEach_facts.

(** ** Objects and sets *)

Lemma elem_of_newSet {A : Type} `{EqDecision A} (xs : list A) (x : A) :
  x ∈ newSet xs ↔ x ∈ xs.
Proof. unfold newSet. by rewrite elem_of_reverse, elem_of_remove_dups, elem_of_reverse. Qed.

Lemma forallb_newSet {A : Type} `{EqDecision A} (p : A → bool) (xs : list A) :
  forallb p (newSet xs) = forallb p xs.
Proof.
  apply eq_true_iff_eq. rewrite !forallb_forall.
  split; intros Hp x Hx; apply Hp; apply list_elem_of_In;
    apply list_elem_of_In in Hx; by apply elem_of_newSet.
Qed.

Lemma find_map {A B : Type} (f : A → B) (p : B → bool) (xs : list A) :
  List.find p (map f xs) = f <$> List.find (λ x, p (f x)) xs.
Proof.
  induction xs as [|x xs IH]; simpl; [done|]. destruct (p (f x)); [done|apply IH].
Qed.

Lemma find_ext_in {A : Type} (p q : A → bool) (xs : list A) :
  (∀ x, x ∈ xs → p x = q x) → List.find p xs = List.find q xs.
Proof.
  induction xs as [|x xs IH]; intros Hpq; simpl; [done|].
  rewrite (Hpq x) by left. destruct (q x); [done|].
  apply IH. intros y Hy. apply Hpq. by right.
Qed.

Lemma find_none_all {A : Type} (p : A → bool) (xs : list A) :
  (∀ x, x ∈ xs → p x = false) → List.find p xs = None.
Proof.
  induction xs as [|x xs IH]; intros Hp; simpl; [done|].
  rewrite (Hp x) by left. apply IH. intros y Hy. apply Hp. by right.
Qed.

Lemma set_fresh {V : Type} (o : JsObject V) (k : string) (v : V) :
  k ∉ o.*1 → set o k v = o ++ [(k, v)].
Proof.
  induction o as [|[k' v'] o IH]; simpl; intros Hk; [done|].
  apply not_elem_of_cons in Hk as [Hne Hk].
  destruct (String.eqb_spec k' k) as [->|_]; [done|]. by rewrite IH.
Qed.

Lemma set_values {V : Type} (P : V → Prop) (o : JsObject V) (k : string) (v : V) :
  Forall P o.*2 → P v → Forall P (set o k v).*2.
Proof.
  induction o as [|[k' v'] o IH]; simpl; intros Ho Hv.
  - by constructor.
  - apply Forall_cons in Ho as [Hv' Ho].
    destruct (String.eqb k' k); simpl; constructor; auto.
Qed.

Lemma elem_of_insertByIndex {V : Type} (e e' : N * (string * V)) (l : list (N * (string * V))) :
  e' ∈ insertByIndex e l → e' = e ∨ e' ∈ l.
Proof.
  induction l as [|x l IH]; simpl.
  - intros ->%list_elem_of_singleton. by left.
  - destruct (e.1 <=? x.1)%N.
    + intros [->|He']%elem_of_cons; [by left|by right].
    + intros [->|He']%elem_of_cons; [right; left|].
      destruct (IH He') as [->|Hl]; [by left|right; by right].
Qed.

(** [Object.entries] lists own properties only. *)
Lemma elem_of_Object_entries {V : Type} (o : JsObject V) (kv : string * V) :
  kv ∈ Object_entries o → kv ∈ o.
Proof.
  unfold Object_entries. intros [Hidx|Hstr]%elem_of_app.
  - apply list_elem_of_fmap in Hidx as [[n kv'] [-> Hin]]. simpl.
    assert (∀ l : list (N * (string * V)),
              (∀ e, e ∈ l → e.2 ∈ o) →
              ∀ e, e ∈ foldr insertByIndex [] l → e.2 ∈ o) as Hsorted.
    { induction l as [|x l IHl]; simpl; intros Hl e He.
      - by apply elem_of_nil in He.
      - apply elem_of_insertByIndex in He as [->|He].
        + apply Hl. left.
        + apply IHl; [|done]. intros e' He'. apply Hl. by right. }
    apply (Hsorted _) in Hin; [done|].
    intros e [kv0 [Hkv0 Heq]]%list_elem_of_omap.
    destruct (arrayIndex kv0.1); by simplify_eq/=.
  - apply list_elem_of_In, filter_In in Hstr as [Hin _]. by apply list_elem_of_In.
Qed.

(** Without array-index keys, [Object.entries] keeps the creation order. *)
Lemma Object_entries_names {V : Type} (o : JsObject V) :
  Forall (λ kv, arrayIndex kv.1 = None) o → Object_entries o = o.
Proof.
  unfold Object_entries. intros Ho.
  assert (omap (λ kv : string * V, n ← arrayIndex kv.1; Some (n, kv)) o = []) as ->.
  { induction Ho as [|kv o Hkv Ho IH]; simpl; [done|]. by rewrite Hkv. }
  simpl. induction Ho as [|kv o Hkv Ho IH]; simpl; [done|]. by rewrite Hkv, IH.
Qed.

(** ** The conflict target of [createUpsertField] *)

Section UpsertField_target.
Context (build : Build) (table : PgTable.t).

Local Abbreviation attributes := (UpsertField.attributes build table).
Local Abbreviation uniqueConstraints := (UpsertField.uniqueConstraints build table).

Lemma keyAttributes_resolved (con : PgConstraint.t) :
  resolves attributes con = true →
  UpsertField.keyAttributes build table con = Return (newSet (members attributes con)).
Proof.
  unfold UpsertField.keyAttributes, resolves, members. intros Hres.
  assert (mapM (λ num,
            match findAttribute attributes num with
            | Some match_ => Return match_
            | None => Throw (AssertionError ("no attribute found for " +:+ pretty num))
            end) (PgConstraint.keyAttributeNums con)
          = Return (omap (findAttribute attributes) (PgConstraint.keyAttributeNums con))) as ->;
    [|done].
  induction (PgConstraint.keyAttributeNums con) as [|num nums IH]; simpl in *; [done|].
  apply andb_true_iff in Hres as [Hnum Hnums]. apply bool_decide_eq_true in Hnum as [a Ha].
  rewrite Ha. simpl. by rewrite (IH Hnums).
Qed.

Lemma collect_resolved (cons : list PgConstraint.t) (acc : JsObject (list PgAttribute.t)) :
  forallb (resolves attributes) cons = true →
  NoDup (acc.*1 ++ map PgConstraint.name cons) →
  reduceM (λ acc con, cols ← UpsertField.keyAttributes build table con;
                      Return (set acc (PgConstraint.name con) cols)) cons acc
  = Return (acc ++ map (entryOf attributes) cons).
Proof.
  revert acc. induction cons as [|con cons IH]; intros acc Hres Hnodup; simpl.
  - by rewrite app_nil_r.
  - simpl in Hres. apply andb_true_iff in Hres as [Hcon Hres].
    rewrite (keyAttributes_resolved con Hcon). simpl.
    rewrite set_fresh.
    + rewrite IH; [by rewrite <- app_assoc|done|].
      rewrite fmap_app. simpl. by rewrite <- app_assoc.
    + apply NoDup_app in Hnodup as (_ & Hdisj & _). intros Hin.
      apply (Hdisj _ Hin). simpl. left.
Qed.

(** With a consistent catalogue and distinct constraint names, the object
    has one entry per constraint, in the order of the catalogue. *)
Lemma columnsByConstraintName_eq :
  forallb (resolves attributes) uniqueConstraints = true →
  NoDup (map PgConstraint.name uniqueConstraints) →
  UpsertField.columnsByConstraintName build table
  = Return (map (entryOf attributes) uniqueConstraints).
Proof.
  intros Hres Hnodup. unfold UpsertField.columnsByConstraintName.
  by rewrite collect_resolved.
Qed.

(** With a consistent catalogue, every entry of the object holds the
    members of some constraint of the table. *)
Lemma collect_members (cons : list PgConstraint.t) (acc : JsObject (list PgAttribute.t)) :
  forallb (resolves attributes) cons = true →
  Forall (λ cols, ∃ con, con ∈ uniqueConstraints ∧ cols = newSet (members attributes con))
         acc.*2 →
  Forall (λ con, con ∈ uniqueConstraints) cons →
  ∃ columns,
    reduceM (λ acc con, cols ← UpsertField.keyAttributes build table con;
                        Return (set acc (PgConstraint.name con) cols)) cons acc
    = Return columns
    ∧ Forall (λ cols, ∃ con, con ∈ uniqueConstraints
                             ∧ cols = newSet (members attributes con))
             columns.*2.
Proof.
  revert acc. induction cons as [|con cons IH]; intros acc Hres Hacc Hcons; simpl.
  - by exists acc.
  - simpl in Hres. apply andb_true_iff in Hres as [Hcon Hres].
    apply Forall_cons in Hcons as [Hin Hcons].
    rewrite (keyAttributes_resolved con Hcon). simpl.
    apply IH; [done| |done]. apply set_values; [done|]. by exists con.
Qed.

Lemma entries_names :
  Forall (λ con, arrayIndex (PgConstraint.name con) = None) uniqueConstraints →
  Object_entries (map (entryOf attributes) uniqueConstraints)
  = map (entryOf attributes) uniqueConstraints.
Proof.
  intros Hnames. apply Object_entries_names.
  induction Hnames; simpl; constructor; auto.
Qed.

(** No constraint name is an array index: [Object.entries] then lists the
    entries in the order of the constraints. *)
Context (Hnames : Forall (λ con, arrayIndex (PgConstraint.name con) = None) uniqueConstraints).

Lemma matchingConstraint_where (args : UpsertField.Args) (w : JsObject Primitive) :
  UpsertField.where_ args = Some w →
  UpsertField.matchingConstraint build table args (map (entryOf attributes) uniqueConstraints)
  = entryOf attributes
      <$> List.find (covers (inflection build) attributes (hasOwnProperty w)) uniqueConstraints.
Proof.
  intros Hw. unfold UpsertField.matchingConstraint. rewrite Hw, (entries_names Hnames).
  rewrite find_map. f_equal. apply find_ext_in. intros con _.
  unfold entryOf, covers. simpl. apply forallb_newSet.
Qed.

Lemma find_primary (pk : PgConstraint.t) :
  pk ∈ uniqueConstraints →
  ∃ entry, List.find (λ entry : string * list PgAttribute.t,
                        String.eqb entry.1 (PgConstraint.name pk))
                     (map (entryOf attributes) uniqueConstraints) = Some entry
           ∧ entry.1 = PgConstraint.name pk.
Proof.
  intros Hpk.
  destruct (List.find _ (map (entryOf attributes) uniqueConstraints)) as [entry|] eqn:Hfind.
  - exists entry. split; [done|]. apply find_some in Hfind as [_ Heq].
    by apply String.eqb_eq in Heq.
  - assert (In (entryOf attributes pk) (map (entryOf attributes) uniqueConstraints)) as Hin
      by (apply in_map; by apply list_elem_of_In).
    apply (find_none _ _ Hfind) in Hin. simpl in Hin.
    by rewrite String.eqb_refl in Hin.
Qed.

Lemma matchingConstraint_input (args : UpsertField.Args) :
  UpsertField.where_ args = None →
  fst <$> UpsertField.matchingConstraint build table args
            (map (entryOf attributes) uniqueConstraints)
  = match List.find (covers (inflection build) attributes
                       (λ key, bool_decide (key ∈ UpsertField.inputDataKeys args)))
                    uniqueConstraints with
    | Some con => Some (PgConstraint.name con)
    | None => PgConstraint.name <$> UpsertField.primaryKeyConstraint build table
    end.
Proof.
  intros Hw. unfold UpsertField.matchingConstraint. rewrite Hw, (entries_names Hnames).
  rewrite find_map.
  rewrite (find_ext_in _ (covers (inflection build) attributes
                            (λ key, bool_decide (key ∈ UpsertField.inputDataKeys args)))).
  2:{ intros con _. unfold entryOf, covers. simpl. apply forallb_newSet. }
  destruct (List.find (covers _ _ _) uniqueConstraints) as [con|]; simpl; [done|].
  destruct (UpsertField.primaryKeyConstraint build table) as [pk|] eqn:Hpk; simpl.
  - apply find_some in Hpk as [Hin _]. apply list_elem_of_In in Hin.
    destruct (find_primary pk Hin) as (entry & -> & Hentry). simpl. by rewrite Hentry.
  - by rewrite find_none_all.
Qed.

End UpsertField_target.

(** ** The conflict target of [PgMutationUpsertPlugin] *)

Lemma everyM_pure {A : Type} (p : A → Completion bool) (q : A → bool) (xs : list A) :
  (∀ x, x ∈ xs → p x = Return (q x)) → everyM p xs = Return (forallb q xs).
Proof.
  induction xs as [|x xs IH]; intros Hp; simpl; [done|].
  rewrite (Hp x) by left. destruct (q x); simpl; [|done].
  apply IH. intros y Hy. apply Hp. by right.
Qed.

Lemma findM_pure {A : Type} (p : A → Completion bool) (q : A → bool) (xs : list A) :
  (∀ x, x ∈ xs → p x = Return (q x)) → findM p xs = Return (List.find q xs).
Proof.
  induction xs as [|x xs IH]; intros Hp; simpl; [done|].
  rewrite (Hp x) by left. destruct (q x); simpl; [done|].
  apply IH. intros y Hy. apply Hp. by right.
Qed.

Lemma findM_map_pure {A B : Type} (f : A → B) (p : B → Completion bool) (q : A → bool)
    (xs : list A) :
  (∀ x, x ∈ xs → p (f x) = Return (q x)) →
  findM p (map f xs) = Return (f <$> List.find q xs).
Proof.
  induction xs as [|x xs IH]; intros Hp; simpl; [done|].
  rewrite (Hp x) by left. destruct (q x); simpl; [done|].
  apply IH. intros y Hy. apply Hp. by right.
Qed.

Lemma filter_filter_comm {A : Type} (p q : A → bool) (xs : list A) :
  List.filter p (List.filter q xs) = List.filter q (List.filter p xs).
Proof.
  induction xs as [|x xs IH]; simpl; [done|].
  destruct (p x) eqn:Hp, (q x) eqn:Hq; simpl; rewrite ?Hp, ?Hq, IH; done.
Qed.

Lemma foldl_set_fresh {A V : Type} (key : A → string) (val : A → V) (xs : list A)
    (acc : JsObject V) :
  NoDup (acc.*1 ++ map key xs) →
  foldl (λ acc x, set acc (key x) (val x)) acc xs = acc ++ map (λ x, (key x, val x)) xs.
Proof.
  revert acc. induction xs as [|x xs IH]; intros acc Hnodup; simpl.
  - by rewrite app_nil_r.
  - rewrite set_fresh.
    + rewrite IH; [by rewrite <- app_assoc|]. rewrite fmap_app. simpl. by rewrite <- app_assoc.
    + apply NoDup_app in Hnodup as (_ & Hdisj & _). intros Hin.
      apply (Hdisj _ Hin). simpl. left.
Qed.

Lemma foldl_set_values {A V : Type} (P : V → Prop) (key : A → string) (val : A → V)
    (xs : list A) (acc : JsObject V) :
  Forall P acc.*2 → Forall (λ x, P (val x)) xs →
  Forall P (foldl (λ acc x, set acc (key x) (val x)) acc xs).*2.
Proof.
  revert acc. induction xs as [|x xs IH]; intros acc Hacc Hxs; simpl; [done|].
  apply Forall_cons in Hxs as [Hx Hxs]. apply IH; [|done]. by apply set_values.
Qed.

Section UpsertPlugin_target.
Context (build : Build) (table : PgTable.t).

Local Abbreviation attributes := (UpsertPlugin.attributes build table).
Local Abbreviation uniqueConstraints := (UpsertPlugin.uniqueConstraints build table).

Lemma uniqueConstraints_same :
  uniqueConstraints = UpsertField.uniqueConstraints build table.
Proof. apply filter_filter_comm. Qed.

(** On resolved members, [every] does not throw. *)
Lemma everyColumn_resolved (p : PgAttribute.t → bool) (con : PgConstraint.t) :
  resolves attributes con = true →
  UpsertPlugin.everyColumn p
    (newSet (map (findAttribute attributes) (PgConstraint.keyAttributeNums con)))
  = Return (forallb p (members attributes con)).
Proof.
  intros Hres. unfold UpsertPlugin.everyColumn.
  rewrite (everyM_pure _ (λ col, match col with Some col => p col | None => true end)).
  2:{ intros [col|] Hcol; [done|].
      apply elem_of_newSet, list_elem_of_fmap in Hcol as [num [Hnone Hnum]].
      unfold resolves in Hres. rewrite forallb_forall in Hres.
      apply list_elem_of_In, Hres, bool_decide_eq_true in Hnum as [a Ha]. congruence. }
  f_equal. rewrite forallb_newSet. unfold members, resolves in *. revert Hres.
  induction (PgConstraint.keyAttributeNums con) as [|num nums IH]; simpl; [done|].
  intros [Hnum Hnums]%andb_true_iff. apply bool_decide_eq_true in Hnum as [a Ha].
  rewrite Ha. simpl. f_equal. by apply IH.
Qed.

Lemma constraintColumns_eq :
  NoDup (map PgConstraint.name uniqueConstraints) →
  UpsertPlugin.constraintColumns build table
  = map (λ con, (PgConstraint.name con,
                 newSet (map (findAttribute attributes) (PgConstraint.keyAttributeNums con))))
        uniqueConstraints.
Proof. intros Hnodup. unfold UpsertPlugin.constraintColumns. by rewrite foldl_set_fresh. Qed.

Lemma constraintColumns_values :
  Forall (λ cols, ∃ con, con ∈ uniqueConstraints
                         ∧ cols = newSet (map (findAttribute attributes)
                                              (PgConstraint.keyAttributeNums con)))
         (UpsertPlugin.constraintColumns build table).*2.
Proof.
  unfold UpsertPlugin.constraintColumns. apply foldl_set_values; [constructor|].
  apply Forall_forall. intros con Hcon. by exists con.
Qed.

Context (Hresolves : forallb (resolves attributes) uniqueConstraints = true).
Context (Hdistinct : NoDup (map PgConstraint.name uniqueConstraints)).
Context (Hnames : Forall (λ con, arrayIndex (PgConstraint.name con) = None) uniqueConstraints).

Lemma plugin_matchingConstraint_where (args : UpsertPlugin.Args) (w : JsObject Primitive) :
  UpsertPlugin.where_ args = Some w →
  ∃ found,
    UpsertPlugin.matchingConstraint build table args = Return found
    ∧ fst <$> found
      = PgConstraint.name
          <$> List.find (covers (inflection build) attributes (hasOwnProperty w))
                        uniqueConstraints.
Proof.
  intros Hw. unfold UpsertPlugin.matchingConstraint. rewrite Hw.
  rewrite (constraintColumns_eq Hdistinct), Object_entries_names.
  2:{ clear -Hnames. induction Hnames; simpl; constructor; auto. }
  eexists. split.
  - apply (findM_map_pure _ _ (covers (inflection build) attributes (hasOwnProperty w))).
    intros con Hcon. simpl. rewrite everyColumn_resolved; [done|].
    rewrite forallb_forall in Hresolves. by apply Hresolves, list_elem_of_In.
  - by destruct (List.find _ uniqueConstraints).
Qed.

End UpsertPlugin_target.

(** ** Conflict target: the claims *)

Lemma field_resolve_eq (build : Build) (table : PgTable.t) (args : UpsertField.Args) :
  resolved (UpsertField.attributes build table) (UpsertField.uniqueConstraints build table) →
  named (UpsertField.uniqueConstraints build table) →
  UpsertField.resolve build table args
  = match UpsertField.matchingConstraint build table args
            (map (entryOf (UpsertField.attributes build table))
                 (UpsertField.uniqueConstraints build table)) with
    | Some entry => UpsertField.upsert build table args entry.1
    | None => Throw (noMatchingConstraint (UpsertField.inputDataKeys args))
    end.
Proof.
  intros Hres [Hdistinct _]. unfold UpsertField.resolve.
  rewrite (columnsByConstraintName_eq build table Hres Hdistinct). simpl.
  by destruct (UpsertField.matchingConstraint _ _ _ _) as [[c cols]|].
Qed.

(** X1: without [where], [createUpsertField] takes the first constraint,
    in the order of the catalogue, whose member column names are all keys
    of the input; else the primary key among the unique constraints; else
    it throws, naming the keys of the input. *)
Lemma field_input_targets_first_covered_constraint
    (build : Build) (table : PgTable.t) (args : UpsertField.Args) :
  UpsertField.where_ args = None →
  resolved (UpsertField.attributes build table) (UpsertField.uniqueConstraints build table) →
  named (UpsertField.uniqueConstraints build table) →
  UpsertField.resolve build table args
  = match List.find (covers (inflection build) (UpsertField.attributes build table)
                       (λ key, bool_decide (key ∈ UpsertField.inputDataKeys args)))
                    (UpsertField.uniqueConstraints build table) with
    | Some con => UpsertField.upsert build table args (PgConstraint.name con)
    | None =>
        match UpsertField.primaryKeyConstraint build table with
        | Some pk => UpsertField.upsert build table args (PgConstraint.name pk)
        | None => Throw (noMatchingConstraint (UpsertField.inputDataKeys args))
        end
    end.
Proof.
  intros Hw Hres Hnamed. rewrite (field_resolve_eq build table args Hres Hnamed).
  destruct Hnamed as [Hdistinct Hnames].
  pose proof (matchingConstraint_input build table Hnames args Hw) as Hm.
  destruct (UpsertField.matchingConstraint _ _ _ _) as [entry|]; simpl in Hm.
  - destruct (List.find _ _) as [con|]; [congruence|].
    destruct (UpsertField.primaryKeyConstraint build table); simpl in Hm; congruence.
  - destruct (List.find _ _) as [con|]; [done|].
    by destruct (UpsertField.primaryKeyConstraint build table).
Qed.

(** X22: with a [where] argument, both versions take the first constraint,
    in the order of the catalogue, whose member column names are all keys
    of [where]; when there is none they throw the error of the resolver,
    whether or not the table has a primary key.  The catalogue is taken to
    resolve every member number, with distinct constraint names none of
    which is an array index. *)
Theorem where_targets_first_covered_constraint
    (build : Build) (table : PgTable.t) (w : JsObject Primitive)
    (fargs : UpsertField.Args) (pargs : UpsertPlugin.Args) :
  UpsertField.where_ fargs = Some w →
  UpsertPlugin.where_ pargs = Some w →
  resolved (UpsertField.attributes build table) (UpsertField.uniqueConstraints build table) →
  named (UpsertField.uniqueConstraints build table) →
  match List.find (covers (inflection build) (UpsertField.attributes build table)
                     (hasOwnProperty w))
                  (UpsertField.uniqueConstraints build table) with
  | Some con =>
      UpsertField.resolve build table fargs
      = UpsertField.upsert build table fargs (PgConstraint.name con)
      ∧ UpsertPlugin.resolve build table pargs
        = UpsertPlugin.upsert build table pargs (PgConstraint.name con)
  | None =>
      UpsertField.resolve build table fargs
      = Throw (noMatchingConstraint (UpsertField.inputDataKeys fargs))
      ∧ ∃ columns,
          UpsertPlugin.resolve build table pargs = Throw (noMatchingConstraint columns)
  end.
Proof.
  intros Hfw Hpw Hres Hnamed.
  pose proof (field_resolve_eq build table fargs Hres Hnamed) as Hfield.
  destruct Hnamed as [Hdistinct Hnames].
  rewrite (matchingConstraint_where build table Hnames fargs w Hfw) in Hfield.
  rewrite <- uniqueConstraints_same in Hres, Hdistinct, Hnames.
  destruct (plugin_matchingConstraint_where build table Hres Hdistinct Hnames pargs w Hpw)
    as (found & Hfound & Hname).
  rewrite uniqueConstraints_same in Hname.
  unfold UpsertPlugin.resolve. rewrite Hfound. simpl.
  change (UpsertPlugin.attributes build table) with (UpsertField.attributes build table) in Hname.
  destruct (List.find _ _) as [con|]; simpl in *.
  - split; [done|]. destruct found as [[c cols]|]; simpl in Hname; congruence.
  - split; [done|]. destruct found; [done|]. by eexists.
Qed.

Lemma members_nonempty (attributes : list PgAttribute.t) (con : PgConstraint.t) :
  resolves attributes con = true →
  PgConstraint.keyAttributeNums con ≠ [] →
  members attributes con ≠ [].
Proof.
  unfold resolves, members. destruct (PgConstraint.keyAttributeNums con) as [|num nums]; [done|].
  simpl. intros [[a Ha]%bool_decide_eq_true _]%andb_true_iff _. by rewrite Ha.
Qed.

Lemma forallb_absent {A : Type} (xs : list A) : xs ≠ [] → forallb (λ _, false) xs = false.
Proof. by destruct xs. Qed.

(** C10: a [where] argument that is an empty object takes the [where]
    branch in both versions: when every unique or primary constraint of
    the table has a member column (and the catalogue resolves the member
    numbers), no constraint is found and the resolver throws its error,
    whatever the input and whether or not there is a primary key. *)
Theorem empty_where_never_matches
    (build : Build) (table : PgTable.t)
    (fargs : UpsertField.Args) (pargs : UpsertPlugin.Args) :
  UpsertField.where_ fargs = Some [] →
  UpsertPlugin.where_ pargs = Some [] →
  resolved (UpsertField.attributes build table) (UpsertField.uniqueConstraints build table) →
  Forall (λ con, PgConstraint.keyAttributeNums con ≠ [])
         (UpsertField.uniqueConstraints build table) →
  UpsertField.resolve build table fargs
  = Throw (noMatchingConstraint (UpsertField.inputDataKeys fargs))
  ∧ UpsertPlugin.resolve build table pargs
    = Throw (noMatchingConstraint
               (map (λ _, "[object Object]") (UpsertPlugin.upsertedColumns build table pargs))).
Proof.
  intros Hfw Hpw Hres Hmembers. split.
  - unfold UpsertField.resolve, UpsertField.columnsByConstraintName.
    destruct (collect_members build table (UpsertField.uniqueConstraints build table) [])
      as (columns & -> & Hcolumns); [done|constructor|by apply Forall_forall|].
    simpl. unfold UpsertField.matchingConstraint. rewrite Hfw.
    rewrite find_none_all; [done|].
    intros entry Hentry%elem_of_Object_entries.
    rewrite Forall_forall in Hcolumns.
    destruct (Hcolumns entry.2) as (con & Hcon & ->); [by apply list_elem_of_fmap_2|].
    rewrite forallb_newSet. apply forallb_absent, members_nonempty.
    + unfold resolved in Hres. rewrite forallb_forall in Hres. by apply Hres, list_elem_of_In.
    + rewrite Forall_forall in Hmembers. by apply Hmembers.
  - unfold UpsertPlugin.resolve, UpsertPlugin.matchingConstraint. rewrite Hpw.
    rewrite (findM_pure _ (λ _, false)).
    + by rewrite find_none_all.
    + intros entry Hentry%elem_of_Object_entries.
      pose proof (constraintColumns_values build table) as Hcolumns.
      rewrite Forall_forall in Hcolumns.
      destruct (Hcolumns entry.2) as (con & Hcon & ->); [by apply list_elem_of_fmap_2|].
      rewrite uniqueConstraints_same in Hcon.
      assert (resolves (UpsertField.attributes build table) con = true) as Hcon_res.
      { unfold resolved in Hres. rewrite forallb_forall in Hres. by apply Hres, list_elem_of_In. }
      rewrite everyColumn_resolved by done. f_equal.
      apply forallb_absent, members_nonempty; [done|].
      rewrite Forall_forall in Hmembers. by apply Hmembers.
Qed.

(** ** Reconciliation: the claims *)

Lemma field_reconcile_eq (build : Build) (table : PgTable.t) (args : UpsertField.Args) :
  UpsertField.reconcile build table args =
  match List.find (mismatch build (UpsertField.where_ args) (UpsertField.inputData args))
                  (UpsertField.attributes build table) with
  | Some attr => Throw (valueMismatch (column (inflection build) attr))
  | None =>
      Return {| sqlColumns :=
                  map columnOf
                      (insertList build (UpsertField.where_ args)
                         (UpsertField.inputData args) (UpsertField.attributes build table));
                sqlValues :=
                  map (valueOf build)
                      (insertList build (UpsertField.where_ args)
                         (UpsertField.inputData args) (UpsertField.attributes build table));
                ignoreUpdate :=
                  foldl (λ i attr, UpsertField.mark build args attr i) ∅
                        (UpsertField.attributes build table) |}
  end.
Proof. unfold UpsertField.reconcile. by rewrite forEach_eq. Qed.

Lemma plugin_reconcile_eq (build : Build) (table : PgTable.t) (args : UpsertPlugin.Args) :
  UpsertPlugin.reconcile build table args =
  match List.find (mismatch build (UpsertPlugin.where_ args) (UpsertPlugin.inputData args))
                  (UpsertPlugin.attributes build table) with
  | Some attr => Throw (valueMismatch (column (inflection build) attr))
  | None =>
      Return {| sqlColumns :=
                  map columnOf
                      (insertList build (UpsertPlugin.where_ args)
                         (UpsertPlugin.inputData args) (UpsertPlugin.attributes build table));
                sqlValues :=
                  map (valueOf build)
                      (insertList build (UpsertPlugin.where_ args)
                         (UpsertPlugin.inputData args) (UpsertPlugin.attributes build table));
                ignoreUpdate :=
                  foldl (λ i attr, UpsertPlugin.mark build args attr i) []
                        (UpsertPlugin.attributes build table) |}
  end.
Proof. unfold UpsertPlugin.reconcile. by rewrite forEach_eq. Qed.

Lemma mapM_throws {A B : Type} (f : A → Completion B) (xs : list A) (e : Thrown) :
  mapM f xs = Throw e → ∃ x, x ∈ xs ∧ f x = Throw e.
Proof.
  induction xs as [|x xs IH]; simpl; [done|].
  destruct (f x) as [y|e'] eqn:Hx; simpl.
  - destruct (mapM f xs) as [ys|e'']; simpl; [done|].
    intros [= ->]. destruct IH as (x' & Hin & Hx'); [done|]. exists x'. split; [by right|done].
  - intros [= ->]. exists x. split; [left|done].
Qed.

Lemma reduceM_throws {A B : Type} (f : A → B → Completion A) (xs : list B) (init : A)
    (e : Thrown) :
  reduceM f xs init = Throw e → ∃ acc x, x ∈ xs ∧ f acc x = Throw e.
Proof.
  revert init. induction xs as [|x xs IH]; intros init; simpl; [done|].
  destruct (f init x) as [acc|e'] eqn:Hx; simpl.
  - intros (acc' & x' & Hin & Hx')%IH. exists acc', x'. split; [by right|done].
  - intros [= ->]. exists init, x. split; [left|done].
Qed.

Lemma everyM_throws {A : Type} (p : A → Completion bool) (xs : list A) (e : Thrown) :
  everyM p xs = Throw e → ∃ x, x ∈ xs ∧ p x = Throw e.
Proof.
  induction xs as [|x xs IH]; simpl; [done|].
  destruct (p x) as [[]|e'] eqn:Hx; [|done|].
  - intros (x' & Hin & Hx')%IH. exists x'. split; [by right|done].
  - intros [= ->]. exists x. split; [left|done].
Qed.

Lemma findM_throws {A : Type} (p : A → Completion bool) (xs : list A) (e : Thrown) :
  findM p xs = Throw e → ∃ x, x ∈ xs ∧ p x = Throw e.
Proof.
  induction xs as [|x xs IH]; simpl; [done|].
  destruct (p x) as [[]|e'] eqn:Hx; [done| |].
  - intros (x' & Hin & Hx')%IH. exists x'. split; [by right|done].
  - intros [= ->]. exists x. split; [left|done].
Qed.

(** What [columnsByConstraintName] throws is the failed assertion. *)
Lemma columnsByConstraintName_throws (build : Build) (table : PgTable.t) (e : Thrown) :
  UpsertField.columnsByConstraintName build table = Throw e →
  ∃ message, e = AssertionError message.
Proof.
  intros (acc & con & _ & Hcon)%reduceM_throws.
  unfold UpsertField.keyAttributes in Hcon.
  destruct (mapM _ _) as [cols|e'] eqn:Hmap; simpl in Hcon; [done|].
  injection Hcon as ->. apply mapM_throws in Hmap as (num & _ & Hnum).
  destruct (findAttribute _ num); [done|]. injection Hnum as <-. by eexists.
Qed.

(** What [matchingConstraint] of the plugin throws is the read of [name]
    on [undefined]. *)
Lemma plugin_matchingConstraint_throws (build : Build) (table : PgTable.t)
    (args : UpsertPlugin.Args) (e : Thrown) :
  UpsertPlugin.matchingConstraint build table args = Throw e → e = UpsertPlugin.undefinedName.
Proof.
  assert (∀ p columns, UpsertPlugin.everyColumn p columns = Throw e →
                       e = UpsertPlugin.undefinedName) as Hevery.
  { intros p columns (col & _ & Hcol)%everyM_throws. destruct col; by simplify_eq. }
  unfold UpsertPlugin.matchingConstraint. destruct (UpsertPlugin.where_ args) as [w|].
  - intros (entry & _ & Hentry)%findM_throws. eauto.
  - destruct (findM (λ entry, UpsertPlugin.everyColumn _ _) _) as [[entry|]|e'] eqn:Hfind;
      simpl; [done| |].
    + intros (entry & _ & Hentry)%findM_throws.
      destruct (UpsertPlugin.primaryKeyConstraint build table); by simplify_eq.
    + intros [= ->]. apply findM_throws in Hfind as (entry & _ & Hentry). eauto.
Qed.

Lemma valueMismatch_not_noMatchingConstraint_thrown {A : Type} (fieldName : string)
    (columns : list string) :
  @Throw A (noMatchingConstraint columns) ≠ Throw (valueMismatch fieldName).
Proof. unfold noMatchingConstraint, valueMismatch. simpl. discriminate. Qed.

(** C3: the first attribute, in the order of the attribute list, that is a
    key of both [where] and [input] with values that differ makes the
    loop throw "Value passed in the input for <field> does not match the
    where clause value.", where <field> is the name of that attribute as
    the input spells it, and [resolve] returns no statement; when no
    attribute is such, the loop returns and [resolve] throws no such
    error.  Both versions. *)
Theorem differing_values_stop_reconciliation
    (build : Build) (table : PgTable.t)
    (fargs : UpsertField.Args) (pargs : UpsertPlugin.Args) :
  match List.find (mismatch build (UpsertField.where_ fargs) (UpsertField.inputData fargs))
                  (UpsertField.attributes build table) with
  | Some attr =>
      UpsertField.reconcile build table fargs
      = Throw (valueMismatch (column (inflection build) attr))
      ∧ ∀ q, UpsertField.resolve build table fargs ≠ Return q
  | None =>
      (∃ acc, UpsertField.reconcile build table fargs = Return acc)
      ∧ ∀ fieldName, UpsertField.resolve build table fargs ≠ Throw (valueMismatch fieldName)
  end
  ∧ match List.find (mismatch build (UpsertPlugin.where_ pargs) (UpsertPlugin.inputData pargs))
                    (UpsertPlugin.attributes build table) with
    | Some attr =>
        UpsertPlugin.reconcile build table pargs
        = Throw (valueMismatch (column (inflection build) attr))
        ∧ ∀ q, UpsertPlugin.resolve build table pargs ≠ Return q
    | None =>
        (∃ acc, UpsertPlugin.reconcile build table pargs = Return acc)
        ∧ ∀ fieldName,
            UpsertPlugin.resolve build table pargs ≠ Throw (valueMismatch fieldName)
    end.
Proof.
  split.
  - pose proof (field_reconcile_eq build table fargs) as Hrec.
    destruct (List.find _ _) as [attr|].
    + split; [done|]. intros q. unfold UpsertField.resolve, UpsertField.upsert. rewrite Hrec.
      destruct (UpsertField.columnsByConstraintName build table) as [columns|]; simpl; [|done].
      by destruct (UpsertField.matchingConstraint _ _ _ _) as [[c cols]|].
    + split; [by eexists|]. intros fieldName.
      unfold UpsertField.resolve, UpsertField.upsert. rewrite Hrec.
      destruct (UpsertField.columnsByConstraintName build table) as [columns|e] eqn:Hcolumns;
        simpl.
      * destruct (UpsertField.matchingConstraint _ _ _ _) as [[c cols]|]; simpl.
        -- unfold UpsertField.statement. simpl. by destruct (PgTable.namespace table).
        -- apply valueMismatch_not_noMatchingConstraint_thrown.
      * apply columnsByConstraintName_throws in Hcolumns as [message ->]. done.
  - pose proof (plugin_reconcile_eq build table pargs) as Hrec.
    destruct (List.find _ _) as [attr|].
    + split; [done|]. intros q. unfold UpsertPlugin.resolve, UpsertPlugin.upsert. rewrite Hrec.
      destruct (UpsertPlugin.matchingConstraint build table pargs) as [[[c cols]|]|]; by simpl.
    + split; [by eexists|]. intros fieldName.
      unfold UpsertPlugin.resolve, UpsertPlugin.upsert. rewrite Hrec.
      destruct (UpsertPlugin.matchingConstraint build table pargs) as [[[c cols]|]|e] eqn:Hfound;
        simpl.
      * unfold UpsertPlugin.statement. simpl. by destruct (PgTable.namespace table).
      * apply valueMismatch_not_noMatchingConstraint_thrown.
      * apply plugin_matchingConstraint_throws in Hfound as ->. done.
Qed.

(** ** The statement: the claims *)

Lemma mutationQuery_eq (namespaceName tableName constraintName : string)
    (columns : list SQLNode) (values update : list SQLQuery) :
  mutationQuery namespaceName tableName constraintName columns values update
  = match columns with
    | [] => defaultValuesStatement namespaceName tableName
    | _ => upsertStatement namespaceName tableName constraintName columns values
             (doUpdateSet update)
    end.
Proof.
  unfold mutationQuery, upsertStatement, defaultValuesStatement, doUpdateSet.
  destruct columns as [|col columns]; [done|].
  cbn [length Nat.eqb]. by rewrite <- !app_assoc.
Qed.

Lemma conflictUpdateArray_eq (keep : SQLNode → bool) (columns : list SQLNode) :
  conflictUpdateArray keep columns = map assignment (List.filter keep columns).
Proof. done. Qed.

Lemma field_statement_eq (table : PgTable.t) (constraintName : string)
    (acc : Columns (gset string)) (q : SQLQuery) :
  UpsertField.statement table constraintName acc = Return q →
  ∃ namespaceName,
    PgTable.namespace table = Some namespaceName
    ∧ q = mutationQuery namespaceName (PgTable.name table) constraintName
            (sqlColumns acc) (sqlValues acc)
            (conflictUpdateArray (UpsertField.keep (ignoreUpdate acc)) (sqlColumns acc)).
Proof.
  unfold UpsertField.statement. destruct (PgTable.namespace table) as [ns|]; [|done].
  intros [= <-]. by exists ns.
Qed.

Lemma plugin_statement_eq (table : PgTable.t) (constraintName : string)
    (acc : Columns (JsObject (option bool))) (q : SQLQuery) :
  UpsertPlugin.statement table constraintName acc = Return q →
  ∃ namespaceName,
    PgTable.namespace table = Some namespaceName
    ∧ q = mutationQuery namespaceName (PgTable.name table) constraintName
            (sqlColumns acc) (sqlValues acc)
            (conflictUpdateArray (UpsertPlugin.keep (ignoreUpdate acc)) (sqlColumns acc)).
Proof.
  unfold UpsertPlugin.statement. destruct (PgTable.namespace table) as [ns|]; [|done].
  intros [= <-]. by exists ns.
Qed.

(** A statement [resolve] returns is the statement of some constraint for
    what the loop collected. *)
Lemma field_resolve_returns (build : Build) (table : PgTable.t) (args : UpsertField.Args)
    (q : SQLQuery) :
  UpsertField.resolve build table args = Return q →
  ∃ constraintName acc,
    UpsertField.reconcile build table args = Return acc
    ∧ UpsertField.statement table constraintName acc = Return q.
Proof.
  unfold UpsertField.resolve, UpsertField.upsert.
  destruct (UpsertField.columnsByConstraintName build table) as [columns|]; simpl; [|done].
  destruct (UpsertField.matchingConstraint _ _ _ _) as [[c cols]|]; [|done].
  destruct (UpsertField.reconcile build table args) as [acc|]; simpl; [|done]. eauto.
Qed.

Lemma plugin_resolve_returns (build : Build) (table : PgTable.t) (args : UpsertPlugin.Args)
    (q : SQLQuery) :
  UpsertPlugin.resolve build table args = Return q →
  ∃ constraintName acc,
    UpsertPlugin.reconcile build table args = Return acc
    ∧ UpsertPlugin.statement table constraintName acc = Return q.
Proof.
  unfold UpsertPlugin.resolve, UpsertPlugin.upsert.
  destruct (UpsertPlugin.matchingConstraint build table args) as [[[c cols]|]|]; simpl;
    [|done|done].
  destruct (UpsertPlugin.reconcile build table args) as [acc|]; simpl; [|done]. eauto.
Qed.

Lemma mutationQuery_returning (namespaceName tableName constraintName : string)
    (columns : list SQLNode) (values update : list SQLQuery) :
  ∃ q, mutationQuery namespaceName tableName constraintName columns values update
       = q ++ [RAW " returning *"].
Proof. unfold mutationQuery. rewrite app_assoc. by eexists. Qed.

(** C8: in both versions, when the loop collected no column, the
    statement [resolve] returns is [insert into <relation> default values
    returning *], with no column list, no values and no conflict clause;
    and every statement [resolve] returns ends with [returning *]. *)
Theorem default_values_and_returning
    (build : Build) (table : PgTable.t)
    (fargs : UpsertField.Args) (pargs : UpsertPlugin.Args) :
  (∀ q, UpsertField.resolve build table fargs = Return q →
     (∃ q', q = q' ++ [RAW " returning *"])
     ∧ ∀ acc, UpsertField.reconcile build table fargs = Return acc →
              sqlColumns acc = [] →
              ∃ namespaceName,
                PgTable.namespace table = Some namespaceName
                ∧ q = defaultValuesStatement namespaceName (PgTable.name table))
  ∧ (∀ q, UpsertPlugin.resolve build table pargs = Return q →
       (∃ q', q = q' ++ [RAW " returning *"])
       ∧ ∀ acc, UpsertPlugin.reconcile build table pargs = Return acc →
                sqlColumns acc = [] →
                ∃ namespaceName,
                  PgTable.namespace table = Some namespaceName
                  ∧ q = defaultValuesStatement namespaceName (PgTable.name table)).
Proof.
  split.
  - intros q (c & acc & Hacc & (ns & Hns & ->)%field_statement_eq)%field_resolve_returns.
    split; [apply mutationQuery_returning|].
    intros acc' Hacc' Hempty. assert (acc' = acc) as -> by congruence.
    exists ns. split; [done|]. by rewrite mutationQuery_eq, Hempty.
  - intros q (c & acc & Hacc & (ns & Hns & ->)%plugin_statement_eq)%plugin_resolve_returns.
    split; [apply mutationQuery_returning|].
    intros acc' Hacc' Hempty. assert (acc' = acc) as -> by congruence.
    exists ns. split; [done|]. by rewrite mutationQuery_eq, Hempty.
Qed.

(** X20: in both versions, when some inserted column is kept for the
    update, the statement is [insert into ... on conflict on
    constraint <constraint> do update set <assignments> returning *],
    where the assignments are [<column> = excluded.<column>] for the
    inserted columns that are kept, in the order of the insert list, and
    there is at least one of them. *)
Theorem update_clause_lists_kept_columns
    (build : Build) (table : PgTable.t)
    (fargs : UpsertField.Args) (pargs : UpsertPlugin.Args) :
  (∀ q acc col,
     UpsertField.resolve build table fargs = Return q →
     UpsertField.reconcile build table fargs = Return acc →
     col ∈ sqlColumns acc → UpsertField.keep (ignoreUpdate acc) col = true →
     ∃ namespaceName constraintName,
       q = upsertStatement namespaceName (PgTable.name table) constraintName
             (sqlColumns acc) (sqlValues acc)
             (doUpdateSet (map assignment
                             (List.filter (UpsertField.keep (ignoreUpdate acc))
                                          (sqlColumns acc))))
       ∧ List.filter (UpsertField.keep (ignoreUpdate acc)) (sqlColumns acc) ≠ [])
  ∧ (∀ q acc col,
       UpsertPlugin.resolve build table pargs = Return q →
       UpsertPlugin.reconcile build table pargs = Return acc →
       col ∈ sqlColumns acc → UpsertPlugin.keep (ignoreUpdate acc) col = true →
       ∃ namespaceName constraintName,
         q = upsertStatement namespaceName (PgTable.name table) constraintName
               (sqlColumns acc) (sqlValues acc)
               (doUpdateSet (map assignment
                               (List.filter (UpsertPlugin.keep (ignoreUpdate acc))
                                            (sqlColumns acc))))
         ∧ List.filter (UpsertPlugin.keep (ignoreUpdate acc)) (sqlColumns acc) ≠ []).
Proof.
  assert (∀ (keep : SQLNode → bool) (columns : list SQLNode) (col : SQLNode),
            col ∈ columns → keep col = true → List.filter keep columns ≠ [] ∧ columns ≠ [])
    as Hkept.
  { intros keep columns col Hcol Hkeep. split; [|by destruct columns; [apply elem_of_nil in Hcol|]].
    intros Hnil. assert (In col (List.filter keep columns)) as Hin
      by (apply filter_In; split; [by apply list_elem_of_In|done]).
    by rewrite Hnil in Hin. }
  split.
  - intros q acc col (c & acc' & Hacc' & (ns & Hns & ->)%field_statement_eq)%field_resolve_returns
      Hacc Hcol Hkeep.
    assert (acc' = acc) as -> by congruence.
    destruct (Hkept _ _ _ Hcol Hkeep) as [Hfilter Hcolumns].
    exists ns, c. split; [|done]. rewrite mutationQuery_eq, conflictUpdateArray_eq.
    by destruct (sqlColumns acc).
  - intros q acc col (c & acc' & Hacc' & (ns & Hns & ->)%plugin_statement_eq)%plugin_resolve_returns
      Hacc Hcol Hkeep.
    assert (acc' = acc) as -> by congruence.
    destruct (Hkept _ _ _ Hcol Hkeep) as [Hfilter Hcolumns].
    exists ns, c. split; [|done]. rewrite mutationQuery_eq, conflictUpdateArray_eq.
    by destruct (sqlColumns acc).
Qed.

(** ** The insert list: the claims *)

Lemma zip_fmap_same {A B C : Type} (f : A → B) (g : A → C) (l : list A) :
  zip (f <$> l) (g <$> l) = (λ x, (f x, g x)) <$> l.
Proof. induction l as [|x l IH]; [done|]. csimpl. by f_equal. Qed.

Lemma StronglySorted_sublist {A : Type} (R : A → A → Prop) (l k : list A) :
  l `sublist_of` k → StronglySorted R k → StronglySorted R l.
Proof.
  induction 1 as [|x l k Hsub IH|x l k Hsub IH]; intros Hk; [done| |].
  - apply StronglySorted_inv in Hk as [Hk Hx]. constructor; [by apply IH|].
    apply Forall_forall. intros y Hy. rewrite Forall_forall in Hx.
    apply Hx. by apply (elem_of_sublist l k).
  - apply StronglySorted_inv in Hk as [Hk _]. by apply IH.
Qed.

Section insertList_facts.
Context (build : Build).
Context (where_ : option (JsObject Primitive)) (inputData : JsObject Primitive).

Lemma elem_of_insertList (attributes : list PgAttribute.t) (attr : PgAttribute.t)
    (v : Primitive) :
  attr ∈ attributes → insertValue build where_ inputData attr = Some v →
  (attr, v) ∈ insertList build where_ inputData attributes.
Proof.
  intros Hattr Hv. apply list_elem_of_omap. exists attr. split; [done|]. by rewrite Hv.
Qed.

Lemma insertList_sublist (attributes : list PgAttribute.t) :
  (insertList build where_ inputData attributes).*1 `sublist_of` attributes.
Proof.
  induction attributes as [|attr attributes IH]; simpl; [done|].
  unfold insertList in *. simpl. destruct (insertValue build where_ inputData attr); simpl.
  - by apply sublist_skip.
  - by apply sublist_cons.
Qed.

Lemma insertList_sorted (attributes : list PgAttribute.t) :
  StronglySorted Z.lt (PgAttribute.num <$> attributes) →
  StronglySorted Z.lt (PgAttribute.num <$> (insertList build where_ inputData attributes).*1).
Proof. apply StronglySorted_sublist, fmap_sublist, insertList_sublist. Qed.

End insertList_facts.

(** The value read at a key is the same after a permutation of the
    properties. *)
Lemma get_elem_of {V : Type} (o : JsObject V) (k : string) (v : V) :
  NoDup o.*1 → get o k = Some v ↔ (k, v) ∈ o.
Proof.
  induction o as [|[k' v'] o IH]; simpl; intros Hnodup.
  - split; [done|]. by intros ?%elem_of_nil.
  - apply NoDup_cons in Hnodup as [Hk' Hnodup].
    destruct (String.eqb_spec k' k) as [->|Hne].
    + split.
      * intros [= ->]. left.
      * intros [[= ->]|Hin]%elem_of_cons; [done|].
        exfalso. apply Hk'. by apply (list_elem_of_fmap_2 fst) in Hin.
    + rewrite (IH Hnodup). split; [by right|].
      intros [[= -> ->]|Hin]%elem_of_cons; done.
Qed.

Lemma get_reordered {V : Type} (o o' : JsObject V) (k : string) :
  reordered o o' → get o k = get o' k.
Proof.
  intros [Hperm Hnodup].
  assert (NoDup o'.*1) as Hnodup' by (by rewrite <- Hperm).
  destruct (get o k) as [v|] eqn:Hget.
  - symmetry. apply get_elem_of; [done|]. rewrite <- Hperm. by apply get_elem_of.
  - destruct (get o' k) as [v'|] eqn:Hget'; [|done].
    apply get_elem_of in Hget'; [|done]. rewrite <- Hperm in Hget'.
    apply get_elem_of in Hget'; [|done]. congruence.
Qed.

Lemma forEach_reordered {I : Type} (build : Build) (w w' : option (JsObject Primitive))
    (inputData inputData' : JsObject Primitive) (mark : PgAttribute.t → I → I)
    (attributes : list PgAttribute.t) (init : Columns I) :
  option_Forall2 reordered w w' → reordered inputData inputData' →
  forEach build w' inputData' mark attributes init
  = forEach build w inputData mark attributes init.
Proof.
  intros Hw Hinput. unfold forEach. revert init.
  induction attributes as [|attr attributes IH]; intros init; simpl; [done|].
  assert (forEachBody build w' inputData' mark init attr
          = forEachBody build w inputData mark init attr) as ->.
  { unfold forEachBody, whereClauseValue.
    rewrite <- (get_reordered inputData inputData' _ Hinput).
    destruct Hw as [o o' Ho|]; simpl; [|done].
    by rewrite <- (get_reordered o o' _ Ho). }
  destruct (forEachBody build w inputData mark init attr); simpl; [apply IH|done].
Qed.

(** C6: an attribute whose name is a key of [where] and not of the input
    is inserted with the value of [where]: in both versions the pair of
    its column and that value is in the arrays the loop returns, and the
    statement [resolve] returns lists these arrays as its columns and
    values. *)
Theorem where_only_columns_are_inserted
    (build : Build) (table : PgTable.t)
    (fargs : UpsertField.Args) (pargs : UpsertPlugin.Args)
    (w : JsObject Primitive) (attr : PgAttribute.t) (v : Primitive) :
  sameRequest fargs pargs →
  attr ∈ UpsertField.attributes build table →
  UpsertField.where_ fargs = Some w →
  get w (camelCase (inflection build) (PgAttribute.name attr)) = Some v →
  get (UpsertField.inputData fargs) (column (inflection build) attr) = None →
  (∀ acc, UpsertField.reconcile build table fargs = Return acc →
     (sql.identifier [PgAttribute.name attr],
      gql2pg build v (PgAttribute.type attr) (PgAttribute.typeModifier attr))
       ∈ zip (sqlColumns acc) (sqlValues acc)
     ∧ ∀ q, UpsertField.resolve build table fargs = Return q →
            ∃ namespaceName constraintName action,
              q = upsertStatement namespaceName (PgTable.name table) constraintName
                    (sqlColumns acc) (sqlValues acc) action)
  ∧ (∀ acc, UpsertPlugin.reconcile build table pargs = Return acc →
       (sql.identifier [PgAttribute.name attr],
        gql2pg build v (PgAttribute.type attr) (PgAttribute.typeModifier attr))
         ∈ zip (sqlColumns acc) (sqlValues acc)
       ∧ ∀ q, UpsertPlugin.resolve build table pargs = Return q →
              ∃ namespaceName constraintName action,
                q = upsertStatement namespaceName (PgTable.name table) constraintName
                      (sqlColumns acc) (sqlValues acc) action).
Proof.
  intros [Hpw Hpinput] Hattr Hw Hv Hinput.
  assert ((attr, v) ∈ insertList build (Some w) (UpsertField.inputData fargs)
                        (UpsertField.attributes build table)) as Hin.
  { apply elem_of_insertList; [done|]. unfold insertValue, whereClauseValue.
    rewrite Hinput. simpl. done. }
  assert (∀ columns : list SQLNode, columns ≠ [] →
          ∀ ns t c values update,
            mutationQuery ns t c columns values update
            = upsertStatement ns t c columns values (doUpdateSet update)) as Hshape.
  { intros columns Hcolumns ns t c values update. rewrite mutationQuery_eq.
    by destruct columns. }
  split.
  - intros acc Hacc. rewrite field_reconcile_eq, Hw in Hacc.
    destruct (List.find _ _); [done|]. injection Hacc as <-. simpl.
    rewrite zip_fmap_same.
    split; [by apply (list_elem_of_fmap_2 (λ p, (columnOf p, valueOf build p)) _ (attr, v))|].
    intros q (c & acc & Hacc & (ns & Hns & ->)%field_statement_eq)%field_resolve_returns.
    rewrite field_reconcile_eq, Hw in Hacc.
    destruct (List.find _ _); [done|]. injection Hacc as <-. simpl.
    exists ns, c. eexists. apply Hshape.
    intros Hnil%fmap_nil_inv. rewrite Hnil in Hin. by apply elem_of_nil in Hin.
  - intros acc Hacc. rewrite plugin_reconcile_eq, Hpw, Hpinput, Hw in Hacc.
    change (UpsertPlugin.attributes build table) with (UpsertField.attributes build table)
      in Hacc.
    destruct (List.find _ _); [done|]. injection Hacc as <-. simpl.
    rewrite zip_fmap_same.
    split; [by apply (list_elem_of_fmap_2 (λ p, (columnOf p, valueOf build p)) _ (attr, v))|].
    intros q (c & acc & Hacc & (ns & Hns & ->)%plugin_statement_eq)%plugin_resolve_returns.
    rewrite plugin_reconcile_eq, Hpw, Hpinput, Hw in Hacc.
    change (UpsertPlugin.attributes build table) with (UpsertField.attributes build table)
      in Hacc.
    destruct (List.find _ _); [done|]. injection Hacc as <-. simpl.
    exists ns, c. eexists. apply Hshape.
    intros Hnil%fmap_nil_inv. rewrite Hnil in Hin. by apply elem_of_nil in Hin.
Qed.

(** C7: in both versions the columns and values the loop returns are
    those of the attributes that have a value, in the order of the
    attribute list of the table: a sublist of it, hence increasing in
    [num] when the catalogue lists the attributes by [num]; and the arrays
    are the same when the keys of [where] and of the input come in
    another order. *)
Theorem insert_list_follows_attribute_order
    (build : Build) (table : PgTable.t)
    (fargs fargs' : UpsertField.Args) (pargs pargs' : UpsertPlugin.Args) :
  reordered (UpsertField.inputData fargs) (UpsertField.inputData fargs') →
  option_Forall2 reordered (UpsertField.where_ fargs) (UpsertField.where_ fargs') →
  UpsertField.ignore fargs' = UpsertField.ignore fargs →
  reordered (UpsertPlugin.inputData pargs) (UpsertPlugin.inputData pargs') →
  option_Forall2 reordered (UpsertPlugin.where_ pargs) (UpsertPlugin.where_ pargs') →
  UpsertPlugin.ignore pargs' = UpsertPlugin.ignore pargs →
  (∀ acc, UpsertField.reconcile build table fargs = Return acc →
     let inserted := insertList build (UpsertField.where_ fargs) (UpsertField.inputData fargs)
                       (UpsertField.attributes build table) in
     zip (sqlColumns acc) (sqlValues acc) = (λ p, (columnOf p, valueOf build p)) <$> inserted
     ∧ inserted.*1 `sublist_of` UpsertField.attributes build table
     ∧ (StronglySorted Z.lt (PgAttribute.num <$> UpsertField.attributes build table) →
        StronglySorted Z.lt (PgAttribute.num <$> inserted.*1))
     ∧ UpsertField.reconcile build table fargs' = Return acc)
  ∧ (∀ acc, UpsertPlugin.reconcile build table pargs = Return acc →
       let inserted := insertList build (UpsertPlugin.where_ pargs) (UpsertPlugin.inputData pargs)
                         (UpsertPlugin.attributes build table) in
       zip (sqlColumns acc) (sqlValues acc) = (λ p, (columnOf p, valueOf build p)) <$> inserted
       ∧ inserted.*1 `sublist_of` UpsertPlugin.attributes build table
       ∧ (StronglySorted Z.lt (PgAttribute.num <$> UpsertPlugin.attributes build table) →
          StronglySorted Z.lt (PgAttribute.num <$> inserted.*1))
       ∧ UpsertPlugin.reconcile build table pargs' = Return acc).
Proof.
  intros Hfinput Hfw Hfignore Hpinput Hpw Hpignore. split.
  - intros acc Hacc inserted. pose proof Hacc as Heq. rewrite field_reconcile_eq in Heq.
    destruct (List.find _ _); [done|]. injection Heq as <-. simpl.
    split; [apply zip_fmap_same|]. split; [apply insertList_sublist|].
    split; [apply insertList_sorted|].
    rewrite <- Hacc. unfold UpsertField.reconcile.
    rewrite (forEach_reordered build _ _ _ _ _ _ _ Hfw Hfinput).
    unfold UpsertField.mark, UpsertField.ignoreArg. by rewrite Hfignore.
  - intros acc Hacc inserted. pose proof Hacc as Heq. rewrite plugin_reconcile_eq in Heq.
    destruct (List.find _ _); [done|]. injection Heq as <-. simpl.
    split; [apply zip_fmap_same|]. split; [apply insertList_sublist|].
    split; [apply insertList_sorted|].
    rewrite <- Hacc. unfold UpsertPlugin.reconcile.
    rewrite (forEach_reordered build _ _ _ _ _ _ _ Hpw Hpinput).
    unfold UpsertPlugin.mark. by rewrite Hpignore.
Qed.

(** C9: [!==] takes the numbers [0.0] and [0] (a zero of either sign) as
    equal: an attribute with a zero in [where] and a zero in the input is
    no mismatch, and the step of the loop at this attribute, in both
    versions, does not throw and pushes the column with the zero of the
    input. *)
Theorem zero_of_where_matches_zero_of_input
    (build : Build) (table : PgTable.t)
    (fargs : UpsertField.Args) (pargs : UpsertPlugin.Args)
    (w : JsObject Primitive) (attr : PgAttribute.t) (s s' : bool) :
  sameRequest fargs pargs →
  UpsertField.where_ fargs = Some w →
  get w (camelCase (inflection build) (PgAttribute.name attr)) = Some (PNumber (S754_zero s)) →
  get (UpsertField.inputData fargs) (column (inflection build) attr)
  = Some (PNumber (S754_zero s')) →
  strictNotEquals (PNumber (S754_zero s)) (PNumber (S754_zero s')) = false
  ∧ mismatch build (UpsertField.where_ fargs) (UpsertField.inputData fargs) attr = false
  ∧ (∀ acc, forEachBody build (UpsertField.where_ fargs) (UpsertField.inputData fargs)
              (UpsertField.mark build fargs) acc attr
            = Return (push build acc attr (PNumber (S754_zero s'))
                        (UpsertField.mark build fargs attr (ignoreUpdate acc))))
  ∧ (∀ acc, forEachBody build (UpsertPlugin.where_ pargs) (UpsertPlugin.inputData pargs)
              (UpsertPlugin.mark build pargs) acc attr
            = Return (push build acc attr (PNumber (S754_zero s'))
                        (UpsertPlugin.mark build pargs attr (ignoreUpdate acc)))).
Proof.
  intros [Hpw Hpinput] Hw Hv Hinput. split; [done|].
  split; [unfold mismatch, whereClauseValue; by rewrite Hw, Hinput; simpl; rewrite Hv|].
  split; intros acc; unfold forEachBody, whereClauseValue;
    rewrite ?Hpw, ?Hpinput, Hw, Hinput; simpl; by rewrite Hv.
Qed.

(** ** The columns left out of the update *)

Lemma field_ignoreUpdate_elem_of (build : Build) (args : UpsertField.Args)
    (attributes : list PgAttribute.t) (init : gset string) (x : string) :
  x ∈ foldl (λ i attr, UpsertField.mark build args attr i) init attributes
  ↔ x ∈ init ∨ ∃ attr, attr ∈ attributes ∧ PgAttribute.name attr = x
                       ∧ updateExcluded build args attr = true.
Proof.
  revert init. induction attributes as [|attr attributes IH]; intros init; simpl.
  - split; [by left|]. intros [?|(attr & ?%elem_of_nil & _)]; done.
  - rewrite IH. unfold UpsertField.mark at 1. fold (updateExcluded build args attr).
    destruct (updateExcluded build args attr) eqn:Hattr.
    + rewrite elem_of_union, elem_of_singleton. split.
      * intros [[->|Hinit]|(a & Ha & Hname & Hex)].
        -- right. exists attr. split; [left|done].
        -- by left.
        -- right. exists a. split; [by right|done].
      * intros [Hinit|(a & [->|Ha]%elem_of_cons & Hname & Hex)].
        -- left. by right.
        -- left. by left.
        -- right. by exists a.
    + split.
      * intros [Hinit|(a & Ha & Hname & Hex)]; [by left|].
        right. exists a. split; [by right|done].
      * intros [Hinit|(a & [->|Ha]%elem_of_cons & Hname & Hex)]; [by left|congruence|].
        right. by exists a.
Qed.

(** X2: in [createUpsertField] the column of an attribute is left out of
    the update exactly when the schema omits [update] or
    [updateOnConflict] for it or the caller's [ignore] lists it; the
    columns and values inserted do not depend on it. *)
Lemma field_keep_iff_not_excluded
    (build : Build) (table : PgTable.t) (args : UpsertField.Args)
    (acc : Columns (gset string)) (attr : PgAttribute.t) :
  NoDup (PgAttribute.name <$> UpsertField.attributes build table) →
  attr ∈ UpsertField.attributes build table →
  UpsertField.reconcile build table args = Return acc →
  UpsertField.keep (ignoreUpdate acc) (sql.identifier [PgAttribute.name attr])
  = negb (updateExcluded build args attr)
  ∧ zip (sqlColumns acc) (sqlValues acc)
    = (λ p, (columnOf p, valueOf build p))
        <$> insertList build (UpsertField.where_ args) (UpsertField.inputData args)
              (UpsertField.attributes build table).
Proof.
  intros Hnodup Hattr Hacc. rewrite field_reconcile_eq in Hacc.
  destruct (List.find _ _); [done|]. injection Hacc as <-. simpl.
  split; [|apply zip_fmap_same].
  unfold UpsertField.keep. simpl. f_equal.
  assert (PgAttribute.name attr
            ∈ foldl (λ i a, UpsertField.mark build args a i) ∅
                (UpsertField.attributes build table)
          ↔ updateExcluded build args attr = true) as Hiff.
  { rewrite field_ignoreUpdate_elem_of. split.
    - intros [?%elem_of_empty|(a & Ha & Hname & Hex)]; [done|].
      assert (a = attr) as <-; [|done].
      apply list_elem_of_lookup in Ha as [i Hi]. apply list_elem_of_lookup in Hattr as [j Hj].
      assert (i = j) as ->; [|congruence].
      apply (NoDup_lookup _ i j (PgAttribute.name a) Hnodup).
      + by rewrite list_lookup_fmap, Hi.
      + by rewrite list_lookup_fmap, Hj, Hname.
    - intros Hex. right. by exists attr. }
  destruct (updateExcluded build args attr).
  - by apply bool_decide_eq_true_2, Hiff.
  - apply bool_decide_eq_false_2. intros Hin%Hiff. done.
Qed.

(** ** The test suite and the divergences *)

Import Fixture Requests.

(** C1, the divergence of both versions:
    [upsertRole(input: {role: {rank: 1}})], where the schema omits [rank]
    from the update on conflict.  Both versions insert the column, keep
    no column for the update, and return [do update set] with no
    assignment, not [do nothing]. *)
Lemma rank_only_updates_nothing :
  (∃ acc, UpsertField.reconcile build roles (field None roleRank None) = Return acc
          ∧ sqlColumns acc = [IDENTIFIER ["rank"]]
          ∧ conflictUpdateArray (UpsertField.keep (ignoreUpdate acc)) (sqlColumns acc) = [])
  ∧ UpsertField.resolve build roles (field None roleRank None)
    = Return (upsertStatement "public" "roles" "roles_pkey"
                [IDENTIFIER ["rank"]] [[VALUE (number 1)]] (doUpdateSet []))
  ∧ UpsertPlugin.resolve build roles (plugin None roleRank None)
    = Return (upsertStatement "public" "roles" "roles_pkey"
                [IDENTIFIER ["rank"]] [[VALUE (number 1)]] (doUpdateSet []))
  ∧ upsertStatement "public" "roles" "roles_pkey"
      [IDENTIFIER ["rank"]] [[VALUE (number 1)]] (doUpdateSet [])
    ≠ upsertStatement "public" "roles" "roles_pkey"
        [IDENTIFIER ["rank"]] [[VALUE (number 1)]] doNothing.
Proof.
  split; [|split; [|split]].
  - eexists. split; [vm_compute; reflexivity|]. split; vm_compute; reflexivity.
  - vm_compute. reflexivity.
  - vm_compute. reflexivity.
  - vm_compute. discriminate.
Qed.

(** C2, the divergence of [PgMutationUpsertPlugin]: the schema omits
    [rank] from the update on conflict, the caller passes
    [ignore: {rank: false}], and the statement assigns [rank]; and a
    column the schema omits from [update] is assigned as well. *)
Theorem plugin_ignore_entry_overrides_omit :
  pgOmit build rank "updateOnConflict" = true
  ∧ UpsertPlugin.resolve build roles
      (plugin (Some roleWhere) roleFrank (Some [("rank", Some false)]))
    = Return (upsertStatement "public" "roles" "roles_project_name_title_key"
                [IDENTIFIER ["project_name"]; IDENTIFIER ["title"]; IDENTIFIER ["name"];
                 IDENTIFIER ["rank"]]
                [[VALUE (PString "sales")]; [VALUE (PString "director")];
                 [VALUE (PString "frank")]; [VALUE (number 2)]]
                (doUpdateSet [assignment (IDENTIFIER ["project_name"]);
                              assignment (IDENTIFIER ["title"]);
                              assignment (IDENTIFIER ["name"]);
                              assignment (IDENTIFIER ["rank"])]))
  ∧ pgOmit buildOmitUpdate updated "update" = true
  ∧ UpsertPlugin.resolve buildOmitUpdate roles (plugin (Some roleWhere) roleUpdated None)
    = Return (upsertStatement "public" "roles" "roles_project_name_title_key"
                [IDENTIFIER ["project_name"]; IDENTIFIER ["title"]; IDENTIFIER ["name"];
                 IDENTIFIER ["updated"]]
                [[VALUE (PString "sales")]; [VALUE (PString "director")];
                 [VALUE (PString "frank")]; [VALUE (PString "2020-01-01")]]
                (doUpdateSet [assignment (IDENTIFIER ["project_name"]);
                              assignment (IDENTIFIER ["title"]);
                              assignment (IDENTIFIER ["name"]);
                              assignment (IDENTIFIER ["updated"])])).
Proof. repeat split; vm_compute; reflexivity. Qed.

(** The same requests in [createUpsertField]: neither [rank] nor
    [updated] is assigned. *)
Lemma field_keeps_omitted_columns_out :
  UpsertField.resolve build roles (field (Some roleWhere) roleFrank None)
  = Return (upsertStatement "public" "roles" "roles_project_name_title_key"
              [IDENTIFIER ["project_name"]; IDENTIFIER ["title"]; IDENTIFIER ["name"];
               IDENTIFIER ["rank"]]
              [[VALUE (PString "sales")]; [VALUE (PString "director")];
               [VALUE (PString "frank")]; [VALUE (number 2)]]
              (doUpdateSet [assignment (IDENTIFIER ["project_name"]);
                            assignment (IDENTIFIER ["title"]);
                            assignment (IDENTIFIER ["name"])]))
  ∧ UpsertField.resolve buildOmitUpdate roles (field (Some roleWhere) roleUpdated None)
    = Return (upsertStatement "public" "roles" "roles_project_name_title_key"
                [IDENTIFIER ["project_name"]; IDENTIFIER ["title"]; IDENTIFIER ["name"];
                 IDENTIFIER ["updated"]]
                [[VALUE (PString "sales")]; [VALUE (PString "director")];
                 [VALUE (PString "frank")]; [VALUE (PString "2020-01-01")]]
                (doUpdateSet [assignment (IDENTIFIER ["project_name"]);
                              assignment (IDENTIFIER ["title"]);
                              assignment (IDENTIFIER ["name"])])).
Proof. split; vm_compute; reflexivity. Qed.

(** In [PgMutationUpsertPlugin] no column name is ever in
    [upsertedColumns]. *)
Lemma plugin_upsertedColumns_has_nothing (build : Build) (table : PgTable.t)
    (args : UpsertPlugin.Args) (key : string) :
  UpsertPlugin.upsertedColumns_has build table args key = false.
Proof.
  unfold UpsertPlugin.upsertedColumns_has.
  induction (UpsertPlugin.upsertedColumns build table args) as [|member members IH]; done.
Qed.

(** C4, the divergence of [PgMutationUpsertPlugin]: the input of the test
    "update on unique constraint" has both columns of
    [serial_weight_unique], the first constraint its keys cover, which
    [createUpsertField] takes; the plugin takes the primary key. *)
Theorem plugin_ignores_input_columns :
  PgConstraint.name
    <$> List.find (covers (inflection build) (UpsertPlugin.attributes build bikes)
                     (λ key, bool_decide (key ∈ Object_keys bikeUnique)))
                  (UpsertPlugin.uniqueConstraints build bikes)
  = Some "serial_weight_unique"
  ∧ UpsertPlugin.resolve build bikes (plugin None bikeUnique None)
    = UpsertPlugin.upsert build bikes (plugin None bikeUnique None) "bikes_pkey"
  ∧ UpsertPlugin.upsert build bikes (plugin None bikeUnique None) "bikes_pkey"
    = Return (upsertStatement "public" "bikes" "bikes_pkey"
                [IDENTIFIER ["weight"]; IDENTIFIER ["make"]; IDENTIFIER ["model"];
                 IDENTIFIER ["serial_number"]]
                [[VALUE (number 20)]; [VALUE (PString "kona")];
                 [VALUE (PString "updated_model")]; [VALUE (PString "123")]]
                (doUpdateSet [assignment (IDENTIFIER ["weight"]);
                              assignment (IDENTIFIER ["make"]);
                              assignment (IDENTIFIER ["model"]);
                              assignment (IDENTIFIER ["serial_number"])]))
  ∧ UpsertField.resolve build bikes (field None bikeUnique None)
    = UpsertField.upsert build bikes (field None bikeUnique None) "serial_weight_unique".
Proof. repeat split; vm_compute; reflexivity. Qed.

(** The test "throws an error if input values differ from where clause
    values", in both versions. *)
Example serial_number_differs :
  UpsertField.resolve build bikes (field (Some bikeWhere) bikeOther None)
  = Throw (Error ("Value passed in the input for serialNumber"
                  +:+ " does not match the where clause value."))
  ∧ UpsertPlugin.resolve build bikes (plugin (Some bikeWhere) bikeOther None)
    = Throw (Error ("Value passed in the input for serialNumber"
                    +:+ " does not match the where clause value.")).
Proof. split; vm_compute; reflexivity. Qed.

(** ** The claims at the requests of the test suite *)

Lemma bikes_resolved :
  resolved (UpsertField.attributes build bikes) (UpsertField.uniqueConstraints build bikes).
Proof. reflexivity. Defined.

Lemma bikes_named : named (UpsertField.uniqueConstraints build bikes).
Proof. split; [by apply (bool_decide_unpack _)|by repeat constructor]. Defined.

(** The test "Includes where clause values if ommitted from input": the
    keys of [where] cover [serial_weight_unique]. *)
Lemma where_targets_first_covered_constraint_witness :
  UpsertField.resolve build bikes (field (Some bikeWhere) bikeModel None)
  = UpsertField.upsert build bikes (field (Some bikeWhere) bikeModel None) "serial_weight_unique"
  ∧ UpsertPlugin.resolve build bikes (plugin (Some bikeWhere) bikeModel None)
    = UpsertPlugin.upsert build bikes (plugin (Some bikeWhere) bikeModel None)
        "serial_weight_unique".
Proof.
  exact (where_targets_first_covered_constraint build bikes bikeWhere
           (field (Some bikeWhere) bikeModel None) (plugin (Some bikeWhere) bikeModel None)
           eq_refl eq_refl bikes_resolved bikes_named).
Defined.

(** An empty [where] on [bikes], whose two constraints have members. *)
Lemma empty_where_never_matches_witness :
  UpsertField.resolve build bikes (field (Some []) bikeUnique None)
  = Throw (noMatchingConstraint ["make"; "model"; "weight"; "serialNumber"])
  ∧ UpsertPlugin.resolve build bikes (plugin (Some []) bikeUnique None)
    = Throw (noMatchingConstraint []).
Proof.
  apply (empty_where_never_matches build bikes
           (field (Some []) bikeUnique None) (plugin (Some []) bikeUnique None)).
  - reflexivity.
  - reflexivity.
  - reflexivity.
  - repeat constructor; simpl; discriminate.
Defined.

(** The test "throws an error if input values differ from where clause
    values". *)
Lemma differing_values_stop_reconciliation_witness :
  UpsertField.reconcile build bikes (field (Some bikeWhere) bikeOther None)
  = Throw (valueMismatch "serialNumber")
  ∧ ∀ q, UpsertField.resolve build bikes (field (Some bikeWhere) bikeOther None) ≠ Return q.
Proof.
  exact (proj1 (differing_values_stop_reconciliation build bikes
                  (field (Some bikeWhere) bikeOther None) (plugin None [] None))).
Defined.

(** The test "Includes where clause values if ommitted from input":
    [serial_number] comes from [where]. *)
Lemma where_only_columns_are_inserted_witness :
  ∃ acc, UpsertField.reconcile build bikes (field (Some bikeWhere) bikeModel None) = Return acc
         ∧ (IDENTIFIER ["serial_number"], [VALUE (PString "123")])
             ∈ zip (sqlColumns acc) (sqlValues acc).
Proof.
  eassert (UpsertField.reconcile build bikes (field (Some bikeWhere) bikeModel None) = Return _)
    as Hacc by (vm_compute; reflexivity).
  eexists. split; [exact Hacc|].
  apply (proj1 (where_only_columns_are_inserted build bikes
                  (field (Some bikeWhere) bikeModel None) (plugin (Some bikeWhere) bikeModel None)
                  bikeWhere serial_number (PString "123")
                  (conj eq_refl eq_refl)
                  ltac:(by apply (bool_decide_unpack _)) eq_refl eq_refl eq_refl) _ Hacc).
Defined.

(** The same request with the keys of [where] and of the input in the
    other order. *)
Lemma insert_list_follows_attribute_order_witness :
  ∃ acc, UpsertField.reconcile build bikes (field (Some bikeWhere) bikeSame None) = Return acc
         ∧ sqlColumns acc
           = [IDENTIFIER ["weight"]; IDENTIFIER ["model"]; IDENTIFIER ["serial_number"]]
         ∧ UpsertField.reconcile build bikes
             (field (Some (reverse bikeWhere)) (reverse bikeSame) None) = Return acc.
Proof.
  eassert (UpsertField.reconcile build bikes (field (Some bikeWhere) bikeSame None) = Return _)
    as Hacc by (vm_compute; reflexivity).
  eexists. split; [exact Hacc|]. split; [reflexivity|].
  apply (proj1 (insert_list_follows_attribute_order build bikes
                  (field (Some bikeWhere) bikeSame None)
                  (field (Some (reverse bikeWhere)) (reverse bikeSame) None)
                  (plugin None [] None) (plugin None [] None)
                  ltac:(split; by apply (bool_decide_unpack _))
                  ltac:(constructor; split; by apply (bool_decide_unpack _))
                  eq_refl
                  ltac:(split; by apply (bool_decide_unpack _))
                  ltac:(constructor)
                  eq_refl) _ Hacc).
Defined.

(** An upsert of a bike with no field: default values. *)
Lemma default_values_and_returning_witness :
  UpsertField.resolve build bikes (field None [] None)
  = Return (defaultValuesStatement "public" "bikes")
  ∧ (∃ q', defaultValuesStatement "public" "bikes" = q' ++ [RAW " returning *"])
  ∧ ∃ acc, UpsertField.reconcile build bikes (field None [] None) = Return acc
           ∧ sqlColumns acc = []
           ∧ ∃ namespaceName,
               PgTable.namespace bikes = Some namespaceName
               ∧ defaultValuesStatement "public" "bikes"
                 = defaultValuesStatement namespaceName (PgTable.name bikes).
Proof.
  assert (UpsertField.resolve build bikes (field None [] None)
          = Return (defaultValuesStatement "public" "bikes")) as Hq by reflexivity.
  eassert (UpsertField.reconcile build bikes (field None [] None) = Return _)
    as Hacc by (vm_compute; reflexivity).
  destruct (proj1 (default_values_and_returning build bikes (field None [] None)
                     (plugin None [] None)) _ Hq) as [Hreturning Hdefault].
  split; [exact Hq|]. split; [exact Hreturning|].
  eexists. split; [exact Hacc|]. split; [reflexivity|].
  exact (Hdefault _ Hacc eq_refl).
Defined.

(** The test "ensure valid values are included (i.e. 0.0 for numerics)". *)
Lemma zero_of_where_matches_zero_of_input_witness :
  mismatch build (Some bikeWhere) bikeSame weight = false.
Proof.
  exact (proj1 (proj2 (zero_of_where_matches_zero_of_input build bikes
                         (field (Some bikeWhere) bikeSame None)
                         (plugin (Some bikeWhere) bikeSame None)
                         bikeWhere weight false false
                         (conj eq_refl eq_refl) eq_refl eq_refl eq_refl))).
Defined.

(** The test "upsert where clause": [name] is kept, [rank] is not. *)
Lemma update_clause_lists_kept_columns_witness :
  ∃ acc,
    UpsertField.reconcile build roles (field (Some roleWhere) roleFrank None) = Return acc
    ∧ IDENTIFIER ["name"] ∈ sqlColumns acc
    ∧ UpsertField.keep (ignoreUpdate acc) (IDENTIFIER ["name"]) = true
    ∧ UpsertField.keep (ignoreUpdate acc) (IDENTIFIER ["rank"]) = false
    ∧ ∃ q namespaceName constraintName,
        UpsertField.resolve build roles (field (Some roleWhere) roleFrank None) = Return q
        ∧ q = upsertStatement namespaceName (PgTable.name roles) constraintName
                (sqlColumns acc) (sqlValues acc)
                (doUpdateSet
                   (map assignment
                      (List.filter (UpsertField.keep (ignoreUpdate acc)) (sqlColumns acc)))).
Proof.
  eassert (UpsertField.reconcile build roles (field (Some roleWhere) roleFrank None) = Return _)
    as Hacc by (vm_compute; reflexivity).
  eassert (UpsertField.resolve build roles (field (Some roleWhere) roleFrank None) = Return _)
    as Hq by (vm_compute; reflexivity).
  eexists. split; [exact Hacc|].
  assert (IDENTIFIER ["name"]
            ∈ [IDENTIFIER ["project_name"]; IDENTIFIER ["title"]; IDENTIFIER ["name"];
               IDENTIFIER ["rank"]]) as Hcol by (by apply (bool_decide_unpack _)).
  split; [exact Hcol|]. split; [reflexivity|]. split; [reflexivity|].
  destruct (proj1 (update_clause_lists_kept_columns build roles
                     (field (Some roleWhere) roleFrank None) (plugin None [] None))
              _ _ (IDENTIFIER ["name"]) Hq Hacc Hcol eq_refl)
    as (namespaceName & constraintName & Heq & _).
  eexists _, namespaceName, constraintName. split; [exact Hq|exact Heq].
Defined.

(** * Further properties of the resolver *)

(** ** Invariants of the loop and of the collected constraints *)

Lemma reduceM_invariant {A B : Type} (P : A → Prop) (f : A → B → Completion A)
    (xs : list B) (init r : A) :
  P init →
  (∀ acc x acc', x ∈ xs → P acc → f acc x = Return acc' → P acc') →
  reduceM f xs init = Return r → P r.
Proof.
  revert init. induction xs as [|x xs IH]; intros init Hinit Hstep; simpl.
  - by intros [= <-].
  - destruct (f init x) as [acc|e] eqn:Hx; simpl; [|done].
    apply IH.
    + apply (Hstep init x acc); [left|done|done].
    + intros acc0 y acc' Hy. apply Hstep. by right.
Qed.

Lemma findAttribute_elem_of (attributes : list PgAttribute.t) (num : Z) (attr : PgAttribute.t) :
  findAttribute attributes num = Some attr →
  attr ∈ attributes ∧ PgAttribute.num attr = num.
Proof.
  intros [Hin Hnum]%find_some. split; [by apply list_elem_of_In|]. by apply Z.eqb_eq.
Qed.

Lemma members_elem_of (attributes : list PgAttribute.t) (con : PgConstraint.t)
    (col : PgAttribute.t) :
  col ∈ members attributes con → col ∈ attributes.
Proof.
  intros (num & _ & Hnum)%list_elem_of_omap. by apply findAttribute_elem_of in Hnum as [? _].
Qed.

Lemma set_entries {V : Type} (P : string * V → Prop) (o : JsObject V) (k : string) (v : V) :
  Forall P o → P (k, v) → Forall P (set o k v).
Proof.
  induction o as [|[k' v'] o IH]; simpl; intros Ho Hv.
  - by constructor.
  - apply Forall_cons in Ho as [Hv' Ho].
    destruct (String.eqb k' k); constructor; auto.
Qed.

(** Whatever the catalogue, an entry of [columnsByConstraintName] is named
    after a unique constraint of the table and holds attributes of the
    table. *)
Lemma columnsByConstraintName_entries (build : Build) (table : PgTable.t)
    (columns : JsObject (list PgAttribute.t)) :
  UpsertField.columnsByConstraintName build table = Return columns →
  Forall (λ entry, (∃ con, con ∈ UpsertField.uniqueConstraints build table
                           ∧ PgConstraint.name con = entry.1)
                   ∧ ∀ col, col ∈ entry.2 → col ∈ UpsertField.attributes build table)
         columns.
Proof.
  apply reduceM_invariant; [constructor|].
  intros acc con acc' Hcon Hacc. unfold UpsertField.keyAttributes.
  destruct (mapM _ _) as [cols|] eqn:Hcols; simpl; [|done]. intros [= <-].
  apply set_entries; [done|]. split; [by exists con|].
  intros col Hcol. simpl in Hcol. apply (proj1 (elem_of_newSet _ _)) in Hcol.
  clear -Hcols Hcol. revert cols Hcols Hcol.
  induction (PgConstraint.keyAttributeNums con) as [|num nums IH]; simpl; intros cols.
  - intros [= <-]. by intros ?%elem_of_nil.
  - destruct (findAttribute _ num) as [a|] eqn:Ha; simpl; [|done].
    destruct (mapM _ nums) as [cols'|]; simpl; [|done].
    intros [= <-] [->|Hin]%elem_of_cons.
    + by apply findAttribute_elem_of in Ha as [? _].
    + by apply (IH cols').
Qed.

(** ** The two arrays of the loop *)

Section arrays.
Context (build : Build).
Context (where_ : option (JsObject Primitive)) (inputData : JsObject Primitive).

Lemma insertList_names_NoDup (attributes : list PgAttribute.t) :
  NoDup (PgAttribute.name <$> attributes) →
  NoDup (columnOf <$> insertList build where_ inputData attributes).
Proof.
  intros Hnodup.
  assert (NoDup (PgAttribute.name <$> (insertList build where_ inputData attributes).*1))
    as Hnames.
  { apply (sublist_NoDup _ (PgAttribute.name <$> attributes)); [done|].
    apply fmap_sublist, insertList_sublist. }
  rewrite <- list_fmap_compose in Hnames.
  assert (columnOf <$> insertList build where_ inputData attributes
          = (λ n, sql.identifier [n])
              <$> ((PgAttribute.name ∘ fst) <$> insertList build where_ inputData attributes))
    as -> by (by rewrite <- list_fmap_compose).
  apply NoDup_fmap_2_strong; [|done]. by intros n n' _ _ [= ->].
Qed.

End arrays.

(** X7: in both versions the loop returns as many values as columns, and
    no column twice when the attributes of the table have distinct
    names. *)
Theorem columns_and_values_go_in_pairs
    (build : Build) (table : PgTable.t)
    (fargs : UpsertField.Args) (pargs : UpsertPlugin.Args) :
  (∀ acc, UpsertField.reconcile build table fargs = Return acc →
     length (sqlColumns acc) = length (sqlValues acc)
     ∧ (NoDup (PgAttribute.name <$> UpsertField.attributes build table) →
        NoDup (sqlColumns acc)))
  ∧ (∀ acc, UpsertPlugin.reconcile build table pargs = Return acc →
       length (sqlColumns acc) = length (sqlValues acc)
       ∧ (NoDup (PgAttribute.name <$> UpsertPlugin.attributes build table) →
          NoDup (sqlColumns acc))).
Proof.
  split.
  - intros acc Hacc. rewrite field_reconcile_eq in Hacc.
    destruct (List.find _ _); [done|]. injection Hacc as <-. simpl.
    split; [by rewrite !length_map|apply insertList_names_NoDup].
  - intros acc Hacc. rewrite plugin_reconcile_eq in Hacc.
    destruct (List.find _ _); [done|]. injection Hacc as <-. simpl.
    split; [by rewrite !length_map|apply insertList_names_NoDup].
Qed.

(** ** What [where] puts into the insert list *)

(** When the loop returns, an attribute with a value in [where] is
    inserted: with that value when the input has none, else with the value
    of the input, which [===] it. *)
Lemma insertValue_of_where (build : Build) (w : JsObject Primitive)
    (inputData : JsObject Primitive) (attributes : list PgAttribute.t)
    (attr : PgAttribute.t) (wv : Primitive) :
  List.find (mismatch build (Some w) inputData) attributes = None →
  attr ∈ attributes →
  get w (camelCase (inflection build) (PgAttribute.name attr)) = Some wv →
  ∃ v, insertValue build (Some w) inputData attr = Some v
       ∧ (v = wv ∨ strictEquals wv v = true).
Proof.
  intros Hfind Hattr Hwv.
  assert (mismatch build (Some w) inputData attr = false) as Hmis
    by (apply (find_none _ _ Hfind); by apply list_elem_of_In).
  unfold mismatch, insertValue, whereClauseValue in *. simpl in *. rewrite Hwv in *.
  destruct (get inputData _) as [val|].
  - exists val. split; [done|]. right. unfold strictNotEquals in Hmis.
    by apply negb_false_iff.
  - exists wv. split; [done|]. by left.
Qed.

(** X8: when [where] selects a constraint and the loop returns, every
    member column of that constraint is in the insert list, with the value
    of [where] or with the value of the input that [===] it: the conflict
    target is always fully inserted.  Both versions. *)
Theorem where_target_is_fully_inserted
    (build : Build) (table : PgTable.t)
    (fargs : UpsertField.Args) (pargs : UpsertPlugin.Args)
    (w : JsObject Primitive) (con : PgConstraint.t) (col : PgAttribute.t) :
  sameRequest fargs pargs →
  UpsertField.where_ fargs = Some w →
  List.find (covers (inflection build) (UpsertField.attributes build table) (hasOwnProperty w))
            (UpsertField.uniqueConstraints build table) = Some con →
  col ∈ members (UpsertField.attributes build table) con →
  ∃ wv v,
    get w (camelCase (inflection build) (PgAttribute.name col)) = Some wv
    ∧ (v = wv ∨ strictEquals wv v = true)
    ∧ (∀ acc, UpsertField.reconcile build table fargs = Return acc →
         (sql.identifier [PgAttribute.name col],
          gql2pg build v (PgAttribute.type col) (PgAttribute.typeModifier col))
           ∈ zip (sqlColumns acc) (sqlValues acc))
    ∧ (∀ acc, UpsertPlugin.reconcile build table pargs = Return acc →
         (sql.identifier [PgAttribute.name col],
          gql2pg build v (PgAttribute.type col) (PgAttribute.typeModifier col))
           ∈ zip (sqlColumns acc) (sqlValues acc)).
Proof.
  intros [Hpw Hpinput] Hw [_ Hcovers]%find_some Hcol.
  unfold covers in Hcovers. rewrite forallb_forall in Hcovers.
  pose proof (Hcovers col (proj1 (list_elem_of_In _ _) Hcol)) as Hkey.
  unfold hasOwnProperty in Hkey.
  destruct (get w (camelCase (inflection build) (PgAttribute.name col))) as [wv|] eqn:Hwv;
    [|done].
  apply members_elem_of in Hcol.
  destruct (List.find (mismatch build (Some w) (UpsertField.inputData fargs))
                      (UpsertField.attributes build table)) as [bad|] eqn:Hfind.
  - exists wv, wv. split; [done|]. split; [by left|].
    split; intros acc Hacc.
    + rewrite field_reconcile_eq, Hw, Hfind in Hacc. done.
    + rewrite plugin_reconcile_eq, Hpw, Hpinput, Hw in Hacc.
      change (UpsertPlugin.attributes build table) with (UpsertField.attributes build table)
        in Hacc.
      by rewrite Hfind in Hacc.
  - destruct (insertValue_of_where build w _ _ col wv Hfind Hcol Hwv) as (v & Hv & Hagree).
    exists wv, v. split; [done|]. split; [done|].
    assert ((col, v) ∈ insertList build (Some w) (UpsertField.inputData fargs)
                         (UpsertField.attributes build table)) as Hin
      by (by apply elem_of_insertList).
    split; intros acc Hacc.
    + rewrite field_reconcile_eq, Hw, Hfind in Hacc. injection Hacc as <-. simpl.
      rewrite zip_fmap_same.
      by apply (list_elem_of_fmap_2 (λ p, (columnOf p, valueOf build p)) _ (col, v)).
    + rewrite plugin_reconcile_eq, Hpw, Hpinput, Hw in Hacc.
      change (UpsertPlugin.attributes build table) with (UpsertField.attributes build table)
        in Hacc.
      rewrite Hfind in Hacc. injection Hacc as <-. simpl.
      rewrite zip_fmap_same.
      by apply (list_elem_of_fmap_2 (λ p, (columnOf p, valueOf build p)) _ (col, v)).
Qed.

(** ** The errors of [resolve] *)

Lemma mapM_first_throw {A B : Type} (f : A → Completion B) (pre post : list A) (x : A)
    (e : Thrown) :
  (∀ y, y ∈ pre → ∃ b, f y = Return b) → f x = Throw e →
  mapM f (pre ++ x :: post) = Throw e.
Proof.
  induction pre as [|y pre IH]; simpl; intros Hpre Hx.
  - by rewrite Hx.
  - destruct (Hpre y) as [b ->]; [left|]. simpl.
    rewrite IH; [done| |done]. intros z Hz. apply Hpre. by right.
Qed.

(** X5: in [createUpsertField], a member number of a unique constraint
    that no attribute of the table has makes [resolve] fail the assertion
    "no attribute found for <num>", for the first such number in the order
    of the catalogue, whatever the request. *)
Theorem dangling_member_fails_assertion
    (build : Build) (table : PgTable.t) (args : UpsertField.Args)
    (pre post : list PgConstraint.t) (con : PgConstraint.t)
    (before after : list Z) (num : Z) :
  UpsertField.uniqueConstraints build table = pre ++ con :: post →
  forallb (resolves (UpsertField.attributes build table)) pre = true →
  PgConstraint.keyAttributeNums con = before ++ num :: after →
  Forall (λ n, is_Some (findAttribute (UpsertField.attributes build table) n)) before →
  findAttribute (UpsertField.attributes build table) num = None →
  UpsertField.resolve build table args
  = Throw (AssertionError ("no attribute found for " +:+ pretty num)).
Proof.
  intros Hucs Hpre Hnums Hbefore Hnum.
  unfold UpsertField.resolve, UpsertField.columnsByConstraintName. rewrite Hucs.
  assert (∀ acc, reduceM
            (λ acc con, cols ← UpsertField.keyAttributes build table con;
                        Return (set acc (PgConstraint.name con) cols))
            (pre ++ con :: post) acc
          = Throw (AssertionError ("no attribute found for " +:+ pretty num))) as ->; [|done].
  clear Hucs. induction pre as [|c pre IH]; intros acc; simpl.
  - unfold UpsertField.keyAttributes. rewrite Hnums.
    rewrite (mapM_first_throw _ before after num
               (AssertionError ("no attribute found for " +:+ pretty num))); [done| |].
    + intros n Hn. rewrite Forall_forall in Hbefore. destruct (Hbefore n Hn) as [a ->].
      by eexists.
    + by rewrite Hnum.
  - simpl in Hpre. apply andb_true_iff in Hpre as [Hc Hpre].
    rewrite (keyAttributes_resolved build table c Hc). simpl. by apply IH.
Qed.

(** ** The conflict target of [PgMutationUpsertPlugin] without [where] *)

Lemma find_name_of_member (pk : PgConstraint.t) (cons : list PgConstraint.t) :
  pk ∈ cons →
  ∃ con, List.find (λ con, String.eqb (PgConstraint.name con) (PgConstraint.name pk)) cons
         = Some con
         ∧ PgConstraint.name con = PgConstraint.name pk.
Proof.
  induction cons as [|c cons IH]; [by intros ?%elem_of_nil|].
  intros Hin. simpl. destruct (String.eqb_spec (PgConstraint.name c) (PgConstraint.name pk)).
  - by exists c.
  - apply elem_of_cons in Hin as [->|Hin]; [done|]. by apply IH.
Qed.

(** Without [where] the search by the columns of the input finds nothing,
    and the one by the name of the primary key is left. *)
Lemma plugin_matchingConstraint_without_where
    (build : Build) (table : PgTable.t) (args : UpsertPlugin.Args) :
  UpsertPlugin.where_ args = None →
  resolved (UpsertPlugin.attributes build table) (UpsertPlugin.uniqueConstraints build table) →
  named (UpsertPlugin.uniqueConstraints build table) →
  Forall (λ con, PgConstraint.keyAttributeNums con ≠ [])
         (UpsertPlugin.uniqueConstraints build table) →
  UpsertPlugin.matchingConstraint build table args
  = match UpsertPlugin.primaryKeyConstraint build table with
    | Some pk =>
        Return ((λ con, (PgConstraint.name con,
                         newSet (map (findAttribute (UpsertPlugin.attributes build table))
                                     (PgConstraint.keyAttributeNums con))))
                  <$> List.find (λ con, String.eqb (PgConstraint.name con)
                                                   (PgConstraint.name pk))
                                (UpsertPlugin.uniqueConstraints build table))
    | None =>
        match UpsertPlugin.uniqueConstraints build table with
        | [] => Return None
        | _ :: _ => Throw UpsertPlugin.undefinedName
        end
    end.
Proof.
  intros Hw Hres [Hdistinct Hnames] Hmembers.
  unfold UpsertPlugin.matchingConstraint. rewrite Hw.
  rewrite (constraintColumns_eq build table Hdistinct), Object_entries_names.
  2:{ clear -Hnames. induction Hnames; simpl; constructor; auto. }
  assert (∀ con, con ∈ UpsertPlugin.uniqueConstraints build table →
            UpsertPlugin.everyColumn
              (λ col, UpsertPlugin.upsertedColumns_has build table args (PgAttribute.name col))
              (newSet (map (findAttribute (UpsertPlugin.attributes build table))
                           (PgConstraint.keyAttributeNums con)))
            = Return false) as Hnone.
  { intros con Hcon.
    assert (resolves (UpsertPlugin.attributes build table) con = true) as Hcon_res.
    { unfold resolved in Hres. rewrite forallb_forall in Hres.
      by apply Hres, list_elem_of_In. }
    rewrite everyColumn_resolved by done. f_equal.
    assert (members (UpsertPlugin.attributes build table) con ≠ []) as Hsome.
    { apply members_nonempty; [done|]. rewrite Forall_forall in Hmembers. by apply Hmembers. }
    destruct (members _ con) as [|col cols]; [done|]. simpl.
    by rewrite plugin_upsertedColumns_has_nothing. }
  rewrite (findM_map_pure _ (λ entry, UpsertPlugin.everyColumn _ entry.2) (λ _, false))
    by (intros con Hcon; exact (Hnone con Hcon)).
  rewrite find_none_all by done. simpl.
  destruct (UpsertPlugin.primaryKeyConstraint build table) as [pk|] eqn:Hpk.
  - by rewrite (findM_map_pure _ _
                  (λ con, String.eqb (PgConstraint.name con) (PgConstraint.name pk))).
  - by destruct (UpsertPlugin.uniqueConstraints build table).
Qed.

(** X3: without [where], [PgMutationUpsertPlugin] never selects by the
    columns of the input: when the catalogue resolves the member numbers,
    names the constraints distinctly and gives every constraint a member,
    the target is the primary key; a table without one makes [resolve]
    throw, the error of the resolver when the table has no unique
    constraint at all and a [TypeError] otherwise. *)
Theorem plugin_input_targets_primary_key
    (build : Build) (table : PgTable.t) (args : UpsertPlugin.Args) :
  UpsertPlugin.where_ args = None →
  resolved (UpsertPlugin.attributes build table) (UpsertPlugin.uniqueConstraints build table) →
  named (UpsertPlugin.uniqueConstraints build table) →
  Forall (λ con, PgConstraint.keyAttributeNums con ≠ [])
         (UpsertPlugin.uniqueConstraints build table) →
  UpsertPlugin.resolve build table args
  = match UpsertPlugin.primaryKeyConstraint build table with
    | Some pk => UpsertPlugin.upsert build table args (PgConstraint.name pk)
    | None =>
        match UpsertPlugin.uniqueConstraints build table with
        | [] => Throw (noMatchingConstraint
                         (map (λ _, "[object Object]")
                              (UpsertPlugin.upsertedColumns build table args)))
        | _ :: _ => Throw UpsertPlugin.undefinedName
        end
    end.
Proof.
  intros Hw Hres Hnamed Hmembers. unfold UpsertPlugin.resolve.
  rewrite plugin_matchingConstraint_without_where by done.
  destruct (UpsertPlugin.primaryKeyConstraint build table) as [pk|] eqn:Hpk.
  - apply find_some in Hpk as [Hpk _].
    destruct (find_name_of_member pk _ (proj2 (list_elem_of_In _ _) Hpk)) as (con & -> & Hname).
    simpl. by rewrite Hname.
  - by destruct (UpsertPlugin.uniqueConstraints build table).
Qed.

(** ** The columns [PgMutationUpsertPlugin] leaves out of the update *)

Lemma get_set_same {V : Type} (o : JsObject V) (k : string) (v : V) :
  get (set o k v) k = Some v.
Proof.
  induction o as [|[k' v'] o IH]; simpl.
  - by rewrite String.eqb_refl.
  - destruct (String.eqb k' k) eqn:Hk; simpl; [by rewrite String.eqb_refl|by rewrite Hk].
Qed.

Lemma get_set_other {V : Type} (o : JsObject V) (k k' : string) (v : V) :
  k ≠ k' → get (set o k v) k' = get o k'.
Proof.
  intros Hne. induction o as [|[k0 v0] o IH]; simpl.
  - by apply String.eqb_neq in Hne as ->.
  - destruct (String.eqb_spec k0 k) as [->|Hk0]; simpl.
    + by apply String.eqb_neq in Hne as ->.
    + by rewrite IH.
Qed.

Lemma plugin_mark_same (build : Build) (args : UpsertPlugin.Args) (attr : PgAttribute.t)
    (i : JsObject (option bool)) :
  get (UpsertPlugin.mark build args attr i) (PgAttribute.name attr)
  = Some (ignoreEntry build args attr).
Proof.
  unfold UpsertPlugin.mark, ignoreEntry.
  destruct (UpsertPlugin.ignore args) as [ig|]; [|apply get_set_same].
  destruct (get ig _); apply get_set_same.
Qed.

Lemma plugin_mark_other (build : Build) (args : UpsertPlugin.Args) (attr : PgAttribute.t)
    (i : JsObject (option bool)) (x : string) :
  PgAttribute.name attr ≠ x → get (UpsertPlugin.mark build args attr i) x = get i x.
Proof.
  intros Hne. unfold UpsertPlugin.mark.
  destruct (UpsertPlugin.ignore args) as [ig|]; [|by apply get_set_other].
  destruct (get ig _); by rewrite !get_set_other.
Qed.

Lemma plugin_ignoreUpdate_other (build : Build) (args : UpsertPlugin.Args)
    (attributes : list PgAttribute.t) (init : JsObject (option bool)) (x : string) :
  x ∉ PgAttribute.name <$> attributes →
  get (foldl (λ i attr, UpsertPlugin.mark build args attr i) init attributes) x = get init x.
Proof.
  revert init. induction attributes as [|a attributes IH]; intros init Hx; simpl; [done|].
  rewrite fmap_cons, not_elem_of_cons in Hx. destruct Hx as [Hne Hx].
  rewrite IH by done. by apply plugin_mark_other.
Qed.

Lemma plugin_ignoreUpdate_get (build : Build) (args : UpsertPlugin.Args)
    (attributes : list PgAttribute.t) (init : JsObject (option bool)) (attr : PgAttribute.t) :
  NoDup (PgAttribute.name <$> attributes) → attr ∈ attributes →
  get (foldl (λ i attr, UpsertPlugin.mark build args attr i) init attributes)
      (PgAttribute.name attr)
  = Some (ignoreEntry build args attr).
Proof.
  revert init. induction attributes as [|a attributes IH]; intros init Hnodup Hattr.
  - by apply elem_of_nil in Hattr.
  - rewrite fmap_cons in Hnodup. apply NoDup_cons in Hnodup as [Hfresh Hnodup]. simpl.
    destruct (decide (attr = a)) as [->|Hne].
    + rewrite plugin_ignoreUpdate_other by done. apply plugin_mark_same.
    + apply elem_of_cons in Hattr as [->|Hattr]; [done|]. by apply IH.
Qed.

(** X4: in [PgMutationUpsertPlugin] the column of an attribute is left
    out of the update exactly when its entry of [ignore] is [true], or,
    without an entry, when the schema omits [updateOnConflict] for it;
    [omit(attr, "update")] plays no part, and an entry [false] or [null]
    keeps a column the schema omits. *)
Theorem plugin_keep_follows_ignore_entry
    (build : Build) (table : PgTable.t) (args : UpsertPlugin.Args)
    (acc : Columns (JsObject (option bool))) (attr : PgAttribute.t) :
  NoDup (PgAttribute.name <$> UpsertPlugin.attributes build table) →
  attr ∈ UpsertPlugin.attributes build table →
  UpsertPlugin.reconcile build table args = Return acc →
  get (ignoreUpdate acc) (PgAttribute.name attr) = Some (ignoreEntry build args attr)
  ∧ UpsertPlugin.keep (ignoreUpdate acc) (sql.identifier [PgAttribute.name attr])
    = negb (bool_decide (ignoreEntry build args attr = Some true)).
Proof.
  intros Hnodup Hattr Hacc. rewrite plugin_reconcile_eq in Hacc.
  destruct (List.find _ _); [done|]. injection Hacc as <-. simpl.
  pose proof (plugin_ignoreUpdate_get build args _ [] attr Hnodup Hattr) as Hget.
  split; [done|]. unfold UpsertPlugin.keep. simpl. rewrite Hget.
  by destruct (ignoreEntry build args attr) as [[]|].
Qed.

(** ** Every error of [resolve] *)

Lemma everyColumn_throws (attributes : list PgAttribute.t) (p : PgAttribute.t → bool)
    (con : PgConstraint.t) (e : Thrown) :
  UpsertPlugin.everyColumn p
    (newSet (map (findAttribute attributes) (PgConstraint.keyAttributeNums con))) = Throw e →
  resolves attributes con = false.
Proof.
  intros (col & Hcol & Hthrow)%everyM_throws. destruct col as [col|]; [done|].
  apply elem_of_newSet, list_elem_of_fmap in Hcol as (num & Hnone & Hnum).
  apply not_true_iff_false. intros Hres. unfold resolves in Hres.
  rewrite forallb_forall in Hres.
  apply list_elem_of_In, Hres, bool_decide_eq_true in Hnum as [a Ha]. congruence.
Qed.

Lemma plugin_matchingConstraint_throws_when (build : Build) (table : PgTable.t)
    (args : UpsertPlugin.Args) (e : Thrown) :
  UpsertPlugin.matchingConstraint build table args = Throw e →
  ¬ resolved (UpsertPlugin.attributes build table) (UpsertPlugin.uniqueConstraints build table)
  ∨ (UpsertPlugin.where_ args = None ∧ UpsertPlugin.primaryKeyConstraint build table = None).
Proof.
  assert (∀ p (entry : string * list (option PgAttribute.t)),
            entry ∈ Object_entries (UpsertPlugin.constraintColumns build table) →
            UpsertPlugin.everyColumn p entry.2 = Throw e →
            ¬ resolved (UpsertPlugin.attributes build table)
                (UpsertPlugin.uniqueConstraints build table)) as Hevery.
  { intros p entry Hentry%elem_of_Object_entries Hthrow Hres.
    pose proof (constraintColumns_values build table) as Hcolumns.
    rewrite Forall_forall in Hcolumns.
    destruct (Hcolumns entry.2) as (con & Hcon & Heq); [by apply list_elem_of_fmap_2|].
    rewrite Heq in Hthrow. apply everyColumn_throws in Hthrow.
    unfold resolved in Hres. rewrite forallb_forall in Hres.
    apply list_elem_of_In, Hres in Hcon. congruence. }
  unfold UpsertPlugin.matchingConstraint.
  destruct (UpsertPlugin.where_ args) as [w|].
  - intros (entry & Hin & Hentry)%findM_throws. left. exact (Hevery _ entry Hin Hentry).
  - destruct (findM (λ entry, UpsertPlugin.everyColumn _ _) _) as [[entry|]|e'] eqn:Hfind;
      simpl; [done| |].
    + intros (entry & _ & Hentry)%findM_throws. right.
      by destruct (UpsertPlugin.primaryKeyConstraint build table).
    + intros [= ->]. apply findM_throws in Hfind as (entry & Hin & Hentry). left.
      exact (Hevery _ entry Hin Hentry).
Qed.

(** What [createUpsertField] throws. *)
Lemma field_resolve_throws (build : Build) (table : PgTable.t) (args : UpsertField.Args)
    (e : Thrown) :
  UpsertField.resolve build table args = Throw e →
  (∃ con num, con ∈ UpsertField.uniqueConstraints build table
              ∧ num ∈ PgConstraint.keyAttributeNums con
              ∧ findAttribute (UpsertField.attributes build table) num = None
              ∧ e = AssertionError ("no attribute found for " +:+ pretty num))
  ∨ e = noMatchingConstraint (UpsertField.inputDataKeys args)
  ∨ (∃ attr, attr ∈ UpsertField.attributes build table
             ∧ mismatch build (UpsertField.where_ args) (UpsertField.inputData args) attr = true
             ∧ e = valueMismatch (column (inflection build) attr))
  ∨ (PgTable.namespace table = None ∧ e = AssertionError "expected table namespace").
Proof.
  unfold UpsertField.resolve.
  destruct (UpsertField.columnsByConstraintName build table) as [columns|e'] eqn:Hcolumns;
    simpl.
  - destruct (UpsertField.matchingConstraint _ _ _ _) as [[constraintName cols]|];
      [|intros [= <-]; right; by left].
    unfold UpsertField.upsert. rewrite field_reconcile_eq.
    destruct (List.find _ _) as [attr|] eqn:Hfind; simpl.
    + intros [= <-]. apply find_some in Hfind as [Hin Hmis].
      right. right. left. exists attr. by rewrite list_elem_of_In.
    + unfold UpsertField.statement. destruct (PgTable.namespace table); [done|].
      intros [= <-]. right. right. by right.
  - intros [= ->]. left.
    apply reduceM_throws in Hcolumns as (acc & con & Hcon & Hthrow).
    unfold UpsertField.keyAttributes in Hthrow.
    destruct (mapM _ _) as [cols|e''] eqn:Hmap; simpl in Hthrow; [done|].
    injection Hthrow as ->.
    apply mapM_throws in Hmap as (num & Hnum & Hthrow).
    exists con, num. destruct (findAttribute _ num) eqn:Hfind; [done|].
    by injection Hthrow as <-.
Qed.

(** What [PgMutationUpsertPlugin] throws. *)
Lemma plugin_resolve_throws (build : Build) (table : PgTable.t) (args : UpsertPlugin.Args)
    (e : Thrown) :
  UpsertPlugin.resolve build table args = Throw e →
  (e = UpsertPlugin.undefinedName
   ∧ (¬ resolved (UpsertPlugin.attributes build table)
          (UpsertPlugin.uniqueConstraints build table)
      ∨ (UpsertPlugin.where_ args = None
         ∧ UpsertPlugin.primaryKeyConstraint build table = None)
      ∨ PgTable.namespace table = None))
  ∨ e = noMatchingConstraint
          (map (λ _, "[object Object]") (UpsertPlugin.upsertedColumns build table args))
  ∨ (∃ attr, attr ∈ UpsertPlugin.attributes build table
             ∧ mismatch build (UpsertPlugin.where_ args) (UpsertPlugin.inputData args) attr
               = true
             ∧ e = valueMismatch (column (inflection build) attr)).
Proof.
  unfold UpsertPlugin.resolve.
  destruct (UpsertPlugin.matchingConstraint build table args) as [found|e'] eqn:Hfound;
    simpl.
  - destruct found as [[constraintName cols]|]; [|intros [= <-]; right; by left].
    unfold UpsertPlugin.upsert. rewrite plugin_reconcile_eq.
    destruct (List.find _ _) as [attr|] eqn:Hfind; simpl.
    + intros [= <-]. apply find_some in Hfind as [Hin Hmis].
      right. right. exists attr. by rewrite list_elem_of_In.
    + unfold UpsertPlugin.statement. destruct (PgTable.namespace table); [done|].
      intros [= <-]. left. split; [done|]. right. by right.
  - intros [= ->]. left. split.
    + by apply plugin_matchingConstraint_throws in Hfound.
    + apply plugin_matchingConstraint_throws_when in Hfound as [?|?]; [by left|right; by left].
Qed.

(** X6: the errors of [resolve].  [createUpsertField] throws nothing but
    the assertion on a member number that no attribute of the table has,
    the error of the resolver naming the keys of the input, the error on
    a value of the input that differs from the one of [where], and the
    assertion on the namespace of the table.  [PgMutationUpsertPlugin]
    throws nothing but a [TypeError] (on a member without attribute, on a
    table without primary key when there is no [where], on a table
    without namespace), the error of the resolver, and the error on a
    differing value. *)
Theorem resolve_throws_only
    (build : Build) (table : PgTable.t)
    (fargs : UpsertField.Args) (pargs : UpsertPlugin.Args) :
  (∀ e, UpsertField.resolve build table fargs = Throw e →
     (∃ con num, con ∈ UpsertField.uniqueConstraints build table
                 ∧ num ∈ PgConstraint.keyAttributeNums con
                 ∧ findAttribute (UpsertField.attributes build table) num = None
                 ∧ e = AssertionError ("no attribute found for " +:+ pretty num))
     ∨ e = noMatchingConstraint (UpsertField.inputDataKeys fargs)
     ∨ (∃ attr, attr ∈ UpsertField.attributes build table
                ∧ mismatch build (UpsertField.where_ fargs) (UpsertField.inputData fargs) attr
                  = true
                ∧ e = valueMismatch (column (inflection build) attr))
     ∨ (PgTable.namespace table = None ∧ e = AssertionError "expected table namespace"))
  ∧ (∀ e, UpsertPlugin.resolve build table pargs = Throw e →
       (e = UpsertPlugin.undefinedName
        ∧ (¬ resolved (UpsertPlugin.attributes build table)
               (UpsertPlugin.uniqueConstraints build table)
           ∨ (UpsertPlugin.where_ pargs = None
              ∧ UpsertPlugin.primaryKeyConstraint build table = None)
           ∨ PgTable.namespace table = None))
       ∨ e = noMatchingConstraint
               (map (λ _, "[object Object]") (UpsertPlugin.upsertedColumns build table pargs))
       ∨ (∃ attr, attr ∈ UpsertPlugin.attributes build table
                  ∧ mismatch build (UpsertPlugin.where_ pargs) (UpsertPlugin.inputData pargs)
                      attr = true
                  ∧ e = valueMismatch (column (inflection build) attr))).
Proof.
  split; intros e; [apply field_resolve_throws|apply plugin_resolve_throws].
Qed.

(** ** Where the nodes of the statement come from *)

Lemma sql_join_nodes (P : SQLNode → Prop) (items : list SQLQuery) (separator : string) :
  P (RAW separator) → Forall (Forall P) items → Forall P (sql.join items separator).
Proof.
  intros Hsep. induction 1 as [|x items Hx Hitems IH]; simpl; [constructor|].
  destruct items as [|y items]; [done|].
  apply Forall_app. split; [done|]. by constructor.
Qed.

Lemma mutationQuery_nodes (P : SQLNode → Prop) (namespaceName tableName constraintName : string)
    (columns : list SQLNode) (values update : list SQLQuery) :
  (∀ text, text ∈ templateText → P (RAW text)) →
  P (IDENTIFIER [namespaceName; tableName]) → P (IDENTIFIER [constraintName]) →
  Forall P columns → Forall (Forall P) values → Forall (Forall P) update →
  Forall P (mutationQuery namespaceName tableName constraintName columns values update).
Proof.
  intros Hraw Htable Hcon Hcolumns Hvalues Hupdate.
  assert (∀ text, bool_decide (text ∈ templateText) = true → P (RAW text)) as Hraw'
    by (intros text Htext; apply Hraw; exact (bool_decide_eq_true_1 _ Htext)).
  unfold mutationQuery. repeat (apply Forall_app; split).
  - repeat constructor; [apply Hraw'; reflexivity|done|apply Hraw'; reflexivity].
  - destruct (length columns =? 0)%nat.
    + repeat constructor. apply Hraw'; reflexivity.
    + repeat (apply Forall_app; split).
      * repeat constructor. apply Hraw'; reflexivity.
      * apply sql_join_nodes; [apply Hraw'; reflexivity|].
        apply Forall_forall. intros item (col & -> & Hcol)%list_elem_of_fmap.
        repeat constructor. rewrite Forall_forall in Hcolumns. by apply Hcolumns.
      * repeat constructor. apply Hraw'; reflexivity.
      * apply sql_join_nodes; [apply Hraw'; reflexivity|done].
      * repeat constructor; [apply Hraw'; reflexivity|done|apply Hraw'; reflexivity].
      * apply sql_join_nodes; [apply Hraw'; reflexivity|done].
  - repeat constructor. apply Hraw'; reflexivity.
Qed.

Lemma elem_of_insertList_inv (build : Build) (where_ : option (JsObject Primitive))
    (inputData : JsObject Primitive) (attributes : list PgAttribute.t) (attr : PgAttribute.t)
    (v : Primitive) :
  (attr, v) ∈ insertList build where_ inputData attributes →
  attr ∈ attributes ∧ requestValue build where_ inputData attr v.
Proof.
  intros (a & Ha & Hv)%list_elem_of_omap. unfold insertValue, requestValue in *.
  destruct (get inputData (column (inflection build) a)) as [val|] eqn:Hval; simpl in Hv.
  - injection Hv as <- <-. split; [done|by left].
  - destruct (whereClauseValue build where_ a) as [w|] eqn:Hw; simpl in Hv; [|done].
    injection Hv as <- <-. split; [done|by right].
Qed.

(** The nodes of the statement built from what the loop collected. *)
Lemma collected_nodes (build : Build) (table : PgTable.t)
    (where_ : option (JsObject Primitive)) (inputData : JsObject Primitive)
    (keep : SQLNode → bool) (namespaceName : string) (con : PgConstraint.t) :
  PgTable.namespace table = Some namespaceName →
  con ∈ UpsertField.uniqueConstraints build table →
  Forall (nodeOrigin build table where_ inputData)
    (mutationQuery namespaceName (PgTable.name table) (PgConstraint.name con)
       (map columnOf (insertList build where_ inputData (UpsertField.attributes build table)))
       (map (valueOf build)
            (insertList build where_ inputData (UpsertField.attributes build table)))
       (conflictUpdateArray keep
          (map columnOf
               (insertList build where_ inputData (UpsertField.attributes build table))))).
Proof.
  intros Hns Hcon.
  assert (∀ col, col ∈ map columnOf
                         (insertList build where_ inputData (UpsertField.attributes build table)) →
                 ∃ attr, attr ∈ UpsertField.attributes build table
                         ∧ col = IDENTIFIER [PgAttribute.name attr]) as Hcolumns.
  { intros col ([attr v] & -> & [Hattr _]%elem_of_insertList_inv)%list_elem_of_fmap.
    by exists attr. }
  apply mutationQuery_nodes.
  - intros text Htext. left. by exists text.
  - right. left. by exists namespaceName.
  - right. right. left. by exists con.
  - apply Forall_forall. intros col Hcol%Hcolumns. right. right. right. by left.
  - apply Forall_forall.
    intros value ([attr v] & -> & [Hattr Hv]%elem_of_insertList_inv)%list_elem_of_fmap.
    apply Forall_forall. intros node Hnode. do 4 right. by exists attr, v.
  - apply Forall_forall. unfold conflictUpdateArray.
    intros assignment (col & -> & Hcol)%list_elem_of_fmap.
    apply list_elem_of_In, filter_In in Hcol as [Hcol%list_elem_of_In _].
    apply Hcolumns in Hcol as (attr & Hattr & ->). simpl.
    apply Forall_cons_2; [|apply Forall_cons_2; [|apply Forall_cons_2; [|constructor]]].
    + right. right. right. left. by exists attr.
    + left. exists " = excluded.". split; [|done]. by apply (bool_decide_unpack _).
    + right. right. right. left. by exists attr.
Qed.

Lemma find_elem_of {A : Type} (p : A → bool) (xs : list A) (x : A) :
  List.find p xs = Some x → x ∈ xs.
Proof. intros [Hin _]%find_some. by apply list_elem_of_In. Qed.

Lemma findM_elem_of {A : Type} (p : A → Completion bool) (xs : list A) (x : A) :
  findM p xs = Return (Some x) → x ∈ xs.
Proof.
  induction xs as [|y xs IH]; simpl; [done|].
  destruct (p y) as [[]|]; [|by right; apply IH|done].
  intros [= ->]. by left.
Qed.

Lemma foldl_set_entries {A V : Type} (P : string * V → Prop) (key : A → string) (val : A → V)
    (xs : list A) (acc : JsObject V) :
  Forall P acc → Forall (λ x, P (key x, val x)) xs →
  Forall P (foldl (λ acc x, set acc (key x) (val x)) acc xs).
Proof.
  intros Hacc Hxs. revert acc Hacc.
  induction Hxs as [|x xs Hx Hxs IH]; intros acc Hacc; simpl; [done|].
  apply IH. by apply set_entries.
Qed.

(** X9: every node of a statement that [resolve] returns is raw text of
    a template, the identifier of the table, of a unique constraint of the
    table or of an attribute of the table, or a node that [gql2pg] made of
    a value that the request gives for an attribute.  No key of the
    request and no value of [ignore] reaches the statement, and a value
    reaches it through [gql2pg] only.  Both versions. *)
Theorem statement_nodes_have_an_origin
    (build : Build) (table : PgTable.t)
    (fargs : UpsertField.Args) (pargs : UpsertPlugin.Args) :
  (∀ q, UpsertField.resolve build table fargs = Return q →
     Forall (nodeOrigin build table (UpsertField.where_ fargs) (UpsertField.inputData fargs)) q)
  ∧ (∀ q, UpsertPlugin.resolve build table pargs = Return q →
       Forall (nodeOrigin build table (UpsertPlugin.where_ pargs)
                 (UpsertPlugin.inputData pargs)) q).
Proof.
  split; intros q.
  - unfold UpsertField.resolve.
    destruct (UpsertField.columnsByConstraintName build table) as [columns|] eqn:Hcolumns;
      simpl; [|done].
    destruct (UpsertField.matchingConstraint _ _ _ _) as [[constraintName cols]|] eqn:Hfound;
      [|done].
    assert ((constraintName, cols) ∈ columns) as Hentry.
    { apply elem_of_Object_entries. unfold UpsertField.matchingConstraint in Hfound.
      destruct (UpsertField.where_ fargs); [by apply find_elem_of in Hfound|].
      destruct (List.find _ _) as [entry|] eqn:Hfirst.
      - injection Hfound as ->. by apply find_elem_of in Hfirst.
      - by apply find_elem_of in Hfound. }
    apply columnsByConstraintName_entries in Hcolumns. rewrite Forall_forall in Hcolumns.
    destruct (Hcolumns _ Hentry) as [(con & Hcon & Hname) _]. simpl in Hname. subst.
    unfold UpsertField.upsert. rewrite field_reconcile_eq.
    destruct (List.find _ _); simpl; [done|].
    unfold UpsertField.statement. destruct (PgTable.namespace table) as [ns|] eqn:Hns; [|done].
    intros [= <-]. simpl. by apply collected_nodes.
  - unfold UpsertPlugin.resolve.
    destruct (UpsertPlugin.matchingConstraint build table pargs)
      as [[[constraintName cols]|]|] eqn:Hfound; simpl; [|done|done].
    assert ((constraintName, cols) ∈ UpsertPlugin.constraintColumns build table) as Hentry.
    { apply elem_of_Object_entries. unfold UpsertPlugin.matchingConstraint in Hfound.
      destruct (UpsertPlugin.where_ pargs); [by apply findM_elem_of in Hfound|].
      destruct (findM (λ entry, UpsertPlugin.everyColumn _ _) _) as [[entry|]|] eqn:Hfirst;
        simpl in Hfound; [| |done].
      - injection Hfound as ->. by apply findM_elem_of in Hfirst.
      - by apply findM_elem_of in Hfound. }
    assert (Forall (λ entry : string * list (option PgAttribute.t),
                      ∃ con, con ∈ UpsertPlugin.uniqueConstraints build table
                             ∧ PgConstraint.name con = entry.1)
                   (UpsertPlugin.constraintColumns build table)) as Hnames.
    { unfold UpsertPlugin.constraintColumns. apply foldl_set_entries; [constructor|].
      apply Forall_forall. intros con Hcon. by exists con. }
    rewrite Forall_forall in Hnames. destruct (Hnames _ Hentry) as (con & Hcon & Hname).
    simpl in Hname. subst. rewrite uniqueConstraints_same in Hcon.
    unfold UpsertPlugin.upsert. rewrite plugin_reconcile_eq.
    destruct (List.find _ _); simpl; [done|].
    unfold UpsertPlugin.statement. destruct (PgTable.namespace table) as [ns|] eqn:Hns; [|done].
    intros [= <-]. simpl. by apply collected_nodes.
Qed.

(** ** What [resolve] reads of [where] *)

Lemma reduceM_ext_in {A B : Type} (f g : A → B → Completion A) (xs : list B) (init : A) :
  (∀ acc x, x ∈ xs → f acc x = g acc x) → reduceM f xs init = reduceM g xs init.
Proof.
  revert init. induction xs as [|x xs IH]; intros init Hext; simpl; [done|].
  rewrite (Hext init x) by left. destruct (g init x) as [acc|]; simpl; [|done].
  apply IH. intros acc' y Hy. apply Hext. by right.
Qed.

Lemma everyM_ext_in {A : Type} (p q : A → Completion bool) (xs : list A) :
  (∀ x, x ∈ xs → p x = q x) → everyM p xs = everyM q xs.
Proof.
  induction xs as [|x xs IH]; intros Hext; simpl; [done|].
  rewrite (Hext x) by left. destruct (q x) as [[]|]; [|done|done].
  apply IH. intros y Hy. apply Hext. by right.
Qed.

Lemma findM_ext_in {A : Type} (p q : A → Completion bool) (xs : list A) :
  (∀ x, x ∈ xs → p x = q x) → findM p xs = findM q xs.
Proof.
  induction xs as [|x xs IH]; intros Hext; simpl; [done|].
  rewrite (Hext x) by left. destruct (q x) as [[]|]; [done| |done].
  apply IH. intros y Hy. apply Hext. by right.
Qed.

Lemma forallb_ext_in {A : Type} (p q : A → bool) (xs : list A) :
  (∀ x, x ∈ xs → p x = q x) → forallb p xs = forallb q xs.
Proof.
  induction xs as [|x xs IH]; intros Hext; simpl; [done|].
  rewrite (Hext x) by left. f_equal. apply IH. intros y Hy. apply Hext. by right.
Qed.

Lemma forEach_where_ext {I : Type} (build : Build) (w w' : JsObject Primitive)
    (inputData : JsObject Primitive) (mark : PgAttribute.t → I → I)
    (attributes : list PgAttribute.t) (init : Columns I) :
  (∀ attr, attr ∈ attributes →
     get w' (camelCase (inflection build) (PgAttribute.name attr))
     = get w (camelCase (inflection build) (PgAttribute.name attr))) →
  forEach build (Some w') inputData mark attributes init
  = forEach build (Some w) inputData mark attributes init.
Proof.
  intros Hext. apply reduceM_ext_in. intros acc attr Hattr.
  unfold forEachBody, whereClauseValue. simpl. by rewrite (Hext attr Hattr).
Qed.

(** X10: [resolve] reads [where] at the names of the attributes of the
    table and nowhere else: two [where] objects that agree there, whatever
    their other keys and the order of their keys, give the same outcome.
    Both versions. *)
Theorem where_is_read_at_attribute_names
    (build : Build) (table : PgTable.t) (w w' : JsObject Primitive)
    (inputData : JsObject Primitive)
    (fieldIgnore : option (list string)) (pluginIgnore : option (JsObject (option bool))) :
  (∀ attr, attr ∈ UpsertField.attributes build table →
     get w' (camelCase (inflection build) (PgAttribute.name attr))
     = get w (camelCase (inflection build) (PgAttribute.name attr))) →
  UpsertField.resolve build table
    {| UpsertField.where_ := Some w'; UpsertField.inputData := inputData;
       UpsertField.ignore := fieldIgnore |}
  = UpsertField.resolve build table
      {| UpsertField.where_ := Some w; UpsertField.inputData := inputData;
         UpsertField.ignore := fieldIgnore |}
  ∧ UpsertPlugin.resolve build table
      {| UpsertPlugin.where_ := Some w'; UpsertPlugin.inputData := inputData;
         UpsertPlugin.ignore := pluginIgnore |}
    = UpsertPlugin.resolve build table
        {| UpsertPlugin.where_ := Some w; UpsertPlugin.inputData := inputData;
           UpsertPlugin.ignore := pluginIgnore |}.
Proof.
  intros Hext.
  assert (∀ col, col ∈ UpsertField.attributes build table →
            hasOwnProperty w' (camelCase (inflection build) (PgAttribute.name col))
            = hasOwnProperty w (camelCase (inflection build) (PgAttribute.name col))) as Hhas
    by (intros col Hcol; unfold hasOwnProperty; by rewrite (Hext col Hcol)).
  split.
  - unfold UpsertField.resolve.
    destruct (UpsertField.columnsByConstraintName build table) as [columns|] eqn:Hcolumns;
      simpl; [|done].
    apply columnsByConstraintName_entries in Hcolumns. rewrite Forall_forall in Hcolumns.
    unfold UpsertField.matchingConstraint. simpl.
    rewrite (find_ext_in _ (λ entry : string * list PgAttribute.t,
               forallb (λ col, hasOwnProperty w
                                 (camelCase (inflection build) (PgAttribute.name col)))
                       entry.2)).
    2:{ intros entry Hentry%elem_of_Object_entries. apply forallb_ext_in.
        intros col Hcol. apply Hhas. by apply (Hcolumns entry Hentry). }
    destruct (List.find _ _) as [[constraintName cols]|]; [|done].
    unfold UpsertField.upsert, UpsertField.reconcile. simpl.
    by rewrite (forEach_where_ext build w w') by done.
  - unfold UpsertPlugin.resolve, UpsertPlugin.matchingConstraint. simpl.
    rewrite (findM_ext_in _ (λ entry : string * list (option PgAttribute.t),
               UpsertPlugin.everyColumn
                 (λ col, hasOwnProperty w
                           (camelCase (inflection build) (PgAttribute.name col)))
                 entry.2)).
    2:{ intros entry Hentry%elem_of_Object_entries. apply everyM_ext_in.
        intros [col|] Hcol; [|done]. f_equal. apply Hhas.
        pose proof (constraintColumns_values build table) as Hvalues.
        rewrite Forall_forall in Hvalues.
        destruct (Hvalues entry.2) as (con & _ & Heq); [by apply list_elem_of_fmap_2|].
        rewrite Heq in Hcol.
        apply elem_of_newSet, list_elem_of_fmap in Hcol as (num & Hfound & _).
        symmetry in Hfound. by apply findAttribute_elem_of in Hfound as [? _]. }
    destruct (findM _ _) as [[[constraintName cols]|]|]; simpl; [|done|done].
    unfold UpsertPlugin.upsert, UpsertPlugin.reconcile. simpl.
    by rewrite (forEach_where_ext build w w') by done.
Qed.

(** ** An input without columns *)

Lemma insertList_empty (build : Build) (attributes : list PgAttribute.t) :
  insertList build None [] attributes = [].
Proof. by induction attributes. Qed.

Lemma find_mismatch_empty (build : Build) (attributes : list PgAttribute.t) :
  List.find (mismatch build None []) attributes = None.
Proof. by induction attributes. Qed.

(** X11: an input without columns and no [where]: on a table with a
    namespace and a primary key among its unique constraints, both
    versions return [insert into <table> default values returning *],
    which names no constraint, whatever [ignore] is.  The catalogue is
    taken to resolve the member numbers and to name the constraints
    distinctly; for [PgMutationUpsertPlugin] every constraint is taken to
    have a member. *)
Theorem empty_input_inserts_default_values
    (build : Build) (table : PgTable.t) (namespaceName : string) (pk : PgConstraint.t)
    (fieldIgnore : option (list string)) (pluginIgnore : option (JsObject (option bool))) :
  PgTable.namespace table = Some namespaceName →
  UpsertField.primaryKeyConstraint build table = Some pk →
  resolved (UpsertField.attributes build table) (UpsertField.uniqueConstraints build table) →
  named (UpsertField.uniqueConstraints build table) →
  UpsertField.resolve build table
    {| UpsertField.where_ := None; UpsertField.inputData := [];
       UpsertField.ignore := fieldIgnore |}
  = Return (defaultValuesStatement namespaceName (PgTable.name table))
  ∧ (Forall (λ con, PgConstraint.keyAttributeNums con ≠ [])
            (UpsertField.uniqueConstraints build table) →
     UpsertPlugin.resolve build table
       {| UpsertPlugin.where_ := None; UpsertPlugin.inputData := [];
          UpsertPlugin.ignore := pluginIgnore |}
     = Return (defaultValuesStatement namespaceName (PgTable.name table))).
Proof.
  intros Hns Hpk Hres Hnamed. split.
  - rewrite field_resolve_eq by done.
    assert (∀ c, UpsertField.upsert build table
                   {| UpsertField.where_ := None; UpsertField.inputData := [];
                      UpsertField.ignore := fieldIgnore |} c
                 = Return (defaultValuesStatement namespaceName (PgTable.name table)))
      as Hupsert.
    { intros c. unfold UpsertField.upsert. rewrite field_reconcile_eq. simpl.
      rewrite find_mismatch_empty, insertList_empty. simpl.
      unfold UpsertField.statement. by rewrite Hns. }
    destruct Hnamed as [_ Hnames].
    pose proof (matchingConstraint_input build table Hnames
                  {| UpsertField.where_ := None; UpsertField.inputData := [];
                     UpsertField.ignore := fieldIgnore |} eq_refl) as Hm.
    destruct (UpsertField.matchingConstraint _ _ _ _) as [entry|]; [apply Hupsert|].
    rewrite Hpk in Hm. simpl in Hm. by destruct (List.find _ _).
  - intros Hmembers. unfold UpsertPlugin.resolve.
    rewrite plugin_matchingConstraint_without_where;
      [|done|by rewrite uniqueConstraints_same..].
    unfold UpsertPlugin.primaryKeyConstraint. rewrite uniqueConstraints_same.
    fold (UpsertField.primaryKeyConstraint build table). rewrite Hpk.
    apply find_some in Hpk as [Hpk _].
    destruct (find_name_of_member pk _ (proj2 (list_elem_of_In _ _) Hpk)) as (con & -> & _).
    simpl. unfold UpsertPlugin.upsert. rewrite plugin_reconcile_eq. simpl.
    rewrite find_mismatch_empty, insertList_empty. simpl.
    unfold UpsertPlugin.statement. by rewrite Hns.
Qed.

(** ** What [ignore] can change *)

Lemma set_set {V : Type} (o : JsObject V) (k : string) (v v' : V) :
  set (set o k v) k v' = set o k v'.
Proof.
  induction o as [|[k0 v0] o IH]; simpl.
  - by rewrite String.eqb_refl.
  - destruct (String.eqb k0 k) eqn:Hk; simpl.
    + by rewrite String.eqb_refl.
    + by rewrite Hk, IH.
Qed.

Lemma forEach_mark_ext {I : Type} (build : Build) (where_ : option (JsObject Primitive))
    (inputData : JsObject Primitive) (mark mark' : PgAttribute.t → I → I)
    (attributes : list PgAttribute.t) (init : Columns I) :
  (∀ attr i, attr ∈ attributes → mark' attr i = mark attr i) →
  forEach build where_ inputData mark' attributes init
  = forEach build where_ inputData mark attributes init.
Proof.
  intros Hext. apply reduceM_ext_in. intros acc attr Hattr.
  unfold forEachBody. by rewrite (Hext attr _ Hattr).
Qed.

(** X19: [ignore] changes nothing but the update: two requests that
    differ in [ignore] only fail with the same errors, and insert the
    same columns and values when they return; the statements are the same
    when the two [ignore] agree on the attributes of the table (on their
    enum names in [createUpsertField], on the entries under their
    camel-case names in [PgMutationUpsertPlugin]), whatever else they
    hold. *)
Theorem ignore_changes_the_update_only
    (build : Build) (table : PgTable.t)
    (where_ : option (JsObject Primitive)) (inputData : JsObject Primitive)
    (ig ig' : option (list string)) (pig pig' : option (JsObject (option bool))) :
  let fargs := {| UpsertField.where_ := where_; UpsertField.inputData := inputData;
                  UpsertField.ignore := ig |} in
  let fargs' := {| UpsertField.where_ := where_; UpsertField.inputData := inputData;
                   UpsertField.ignore := ig' |} in
  let pargs := {| UpsertPlugin.where_ := where_; UpsertPlugin.inputData := inputData;
                  UpsertPlugin.ignore := pig |} in
  let pargs' := {| UpsertPlugin.where_ := where_; UpsertPlugin.inputData := inputData;
                   UpsertPlugin.ignore := pig' |} in
  ((∀ e, UpsertField.resolve build table fargs = Throw e
         ↔ UpsertField.resolve build table fargs' = Throw e)
   ∧ (∀ acc acc', UpsertField.reconcile build table fargs = Return acc →
                  UpsertField.reconcile build table fargs' = Return acc' →
                  sqlColumns acc = sqlColumns acc' ∧ sqlValues acc = sqlValues acc')
   ∧ ((∀ attr, attr ∈ UpsertField.attributes build table →
         upsertIgnoreColumnEnum (inflection build) attr ∈ UpsertField.ignoreArg fargs
         ↔ upsertIgnoreColumnEnum (inflection build) attr ∈ UpsertField.ignoreArg fargs') →
      UpsertField.resolve build table fargs = UpsertField.resolve build table fargs'))
  ∧ ((∀ e, UpsertPlugin.resolve build table pargs = Throw e
           ↔ UpsertPlugin.resolve build table pargs' = Throw e)
     ∧ (∀ acc acc', UpsertPlugin.reconcile build table pargs = Return acc →
                    UpsertPlugin.reconcile build table pargs' = Return acc' →
                    sqlColumns acc = sqlColumns acc' ∧ sqlValues acc = sqlValues acc')
     ∧ ((∀ attr, attr ∈ UpsertPlugin.attributes build table →
           ignoreEntry build pargs attr = ignoreEntry build pargs' attr) →
        UpsertPlugin.resolve build table pargs = UpsertPlugin.resolve build table pargs')).
Proof.
  intros fargs fargs' pargs pargs'. split; [split; [|split]|split; [|split]].
  - intros e. unfold UpsertField.resolve.
    destruct (UpsertField.columnsByConstraintName build table) as [columns|];
      cbn [mbind Completion_bind]; [|done].
    change (UpsertField.matchingConstraint build table fargs' columns)
      with (UpsertField.matchingConstraint build table fargs columns).
    change (UpsertField.inputDataKeys fargs') with (UpsertField.inputDataKeys fargs).
    destruct (UpsertField.matchingConstraint build table fargs columns)
      as [[constraintName cols]|]; [|done].
    unfold UpsertField.upsert. rewrite !field_reconcile_eq.
    subst fargs fargs'. cbn [UpsertField.where_ UpsertField.inputData].
    destruct (List.find _ _); cbn [mbind Completion_bind]; [done|].
    unfold UpsertField.statement. by destruct (PgTable.namespace table).
  - intros acc acc'. rewrite !field_reconcile_eq.
    subst fargs fargs'. cbn [UpsertField.where_ UpsertField.inputData].
    destruct (List.find _ _); [done|]. by intros [= <-] [= <-].
  - intros Hagree. unfold UpsertField.resolve.
    destruct (UpsertField.columnsByConstraintName build table) as [columns|];
      cbn [mbind Completion_bind]; [|done].
    change (UpsertField.matchingConstraint build table fargs' columns)
      with (UpsertField.matchingConstraint build table fargs columns).
    destruct (UpsertField.matchingConstraint build table fargs columns)
      as [[constraintName cols]|]; [|done].
    unfold UpsertField.upsert, UpsertField.reconcile.
    change (UpsertField.where_ fargs') with (UpsertField.where_ fargs).
    change (UpsertField.inputData fargs') with (UpsertField.inputData fargs).
    rewrite (forEach_mark_ext build (UpsertField.where_ fargs) (UpsertField.inputData fargs)
               (UpsertField.mark build fargs) (UpsertField.mark build fargs')); [done|].
    intros attr i Hattr. unfold UpsertField.mark.
    by rewrite (bool_decide_ext _ _ (Hagree attr Hattr)).
  - intros e. unfold UpsertPlugin.resolve.
    change (UpsertPlugin.matchingConstraint build table pargs')
      with (UpsertPlugin.matchingConstraint build table pargs).
    change (UpsertPlugin.upsertedColumns build table pargs')
      with (UpsertPlugin.upsertedColumns build table pargs).
    destruct (UpsertPlugin.matchingConstraint build table pargs)
      as [[[constraintName cols]|]|]; cbn [mbind Completion_bind]; [|done|done].
    unfold UpsertPlugin.upsert. rewrite !plugin_reconcile_eq.
    subst pargs pargs'. cbn [UpsertPlugin.where_ UpsertPlugin.inputData].
    destruct (List.find _ _); cbn [mbind Completion_bind]; [done|].
    unfold UpsertPlugin.statement. by destruct (PgTable.namespace table).
  - intros acc acc'. rewrite !plugin_reconcile_eq.
    subst pargs pargs'. cbn [UpsertPlugin.where_ UpsertPlugin.inputData].
    destruct (List.find _ _); [done|]. by intros [= <-] [= <-].
  - intros Hagree. unfold UpsertPlugin.resolve.
    change (UpsertPlugin.matchingConstraint build table pargs')
      with (UpsertPlugin.matchingConstraint build table pargs).
    change (UpsertPlugin.upsertedColumns build table pargs')
      with (UpsertPlugin.upsertedColumns build table pargs).
    destruct (UpsertPlugin.matchingConstraint build table pargs)
      as [[[constraintName cols]|]|]; cbn [mbind Completion_bind]; [|done|done].
    unfold UpsertPlugin.upsert, UpsertPlugin.reconcile.
    change (UpsertPlugin.where_ pargs') with (UpsertPlugin.where_ pargs).
    change (UpsertPlugin.inputData pargs') with (UpsertPlugin.inputData pargs).
    rewrite (forEach_mark_ext build (UpsertPlugin.where_ pargs) (UpsertPlugin.inputData pargs)
               (UpsertPlugin.mark build pargs) (UpsertPlugin.mark build pargs')); [done|].
    intros attr i Hattr. pose proof (Hagree attr Hattr) as Hentry.
    unfold ignoreEntry in Hentry. unfold UpsertPlugin.mark.
    subst pargs pargs'. cbn [UpsertPlugin.ignore] in *.
    destruct pig as [o|], pig' as [o'|].
    + destruct (get o _) as [v|], (get o' _) as [v'|];
        subst; by rewrite ?set_set.
    + destruct (get o _) as [v|]; subst; by rewrite ?set_set.
    + destruct (get o' _) as [v'|]; subst; by rewrite ?set_set.
    + done.
Qed.

(** ** An update list without assignment *)

Lemma doUpdateSet_nil_not_doNothing (namespaceName tableName constraintName : string)
    (columns : list SQLNode) (values : list SQLQuery) :
  upsertStatement namespaceName tableName constraintName columns values (doUpdateSet [])
  ≠ upsertStatement namespaceName tableName constraintName columns values doNothing.
Proof.
  unfold upsertStatement. intros Heq.
  do 5 apply app_inv_head in Heq. discriminate Heq.
Qed.

(** X21: in both versions, when the loop returns an insert list that is
    not empty and keeps none of its columns for the update, the statement
    that [resolve] returns is [insert into ... on conflict on constraint
    <constraint> do update set  returning *], with no assignment after
    [set]: the empty list is not guarded, and the statement is not the
    one with [do nothing]. *)
Theorem no_kept_column_gives_empty_update_set
    (build : Build) (table : PgTable.t)
    (fargs : UpsertField.Args) (pargs : UpsertPlugin.Args) :
  (∀ q acc,
     UpsertField.resolve build table fargs = Return q →
     UpsertField.reconcile build table fargs = Return acc →
     sqlColumns acc ≠ [] →
     List.filter (UpsertField.keep (ignoreUpdate acc)) (sqlColumns acc) = [] →
     ∃ namespaceName constraintName,
       q = upsertStatement namespaceName (PgTable.name table) constraintName
             (sqlColumns acc) (sqlValues acc) (doUpdateSet [])
       ∧ q ≠ upsertStatement namespaceName (PgTable.name table) constraintName
               (sqlColumns acc) (sqlValues acc) doNothing)
  ∧ (∀ q acc,
       UpsertPlugin.resolve build table pargs = Return q →
       UpsertPlugin.reconcile build table pargs = Return acc →
       sqlColumns acc ≠ [] →
       List.filter (UpsertPlugin.keep (ignoreUpdate acc)) (sqlColumns acc) = [] →
       ∃ namespaceName constraintName,
         q = upsertStatement namespaceName (PgTable.name table) constraintName
               (sqlColumns acc) (sqlValues acc) (doUpdateSet [])
         ∧ q ≠ upsertStatement namespaceName (PgTable.name table) constraintName
                 (sqlColumns acc) (sqlValues acc) doNothing).
Proof.
  split.
  - intros q acc (c & acc' & Hacc' & (ns & Hns & ->)%field_statement_eq)%field_resolve_returns
      Hacc Hcolumns Hnone.
    assert (acc' = acc) as -> by congruence.
    exists ns, c. rewrite mutationQuery_eq, conflictUpdateArray_eq, Hnone.
    destruct (sqlColumns acc) eqn:Hcols; [done|].
    split; [done|apply doUpdateSet_nil_not_doNothing].
  - intros q acc (c & acc' & Hacc' & (ns & Hns & ->)%plugin_statement_eq)%plugin_resolve_returns
      Hacc Hcolumns Hnone.
    assert (acc' = acc) as -> by congruence.
    exists ns, c. rewrite mutationQuery_eq, conflictUpdateArray_eq, Hnone.
    destruct (sqlColumns acc) eqn:Hcols; [done|].
    split; [done|apply doUpdateSet_nil_not_doNothing].
Qed.

(** * The hooks *)

(** ** The sorted attributes of the hooks *)

Lemma findAttribute_insertByNum (a : PgAttribute.t) (sorted : list PgAttribute.t) (num : Z) :
  findAttribute (insertByNum a sorted) num
  = if (PgAttribute.num a =? num)%Z then Some a else findAttribute sorted num.
Proof.
  unfold findAttribute. induction sorted as [|b sorted IH]; simpl; [done|].
  destruct (PgAttribute.num a - PgAttribute.num b <=? 0)%Z eqn:Hle; simpl; [done|].
  rewrite IH.
  destruct (Z.eqb_spec (PgAttribute.num b) num), (Z.eqb_spec (PgAttribute.num a) num);
    try done.
  apply Z.leb_gt in Hle. lia.
Qed.

Lemma findAttribute_sortByNum (attributes : list PgAttribute.t) (num : Z) :
  findAttribute (sortByNum attributes) num = findAttribute attributes num.
Proof.
  induction attributes as [|a attributes IH]; simpl; [done|].
  rewrite findAttribute_insertByNum, IH. by unfold findAttribute.
Qed.

Lemma insertByNum_Permutation (a : PgAttribute.t) (sorted : list PgAttribute.t) :
  insertByNum a sorted ≡ₚ a :: sorted.
Proof.
  induction sorted as [|b sorted IH]; simpl; [done|].
  destruct (_ <=? 0)%Z; [done|]. by rewrite IH, Permutation_swap.
Qed.

Lemma sortByNum_Permutation (attributes : list PgAttribute.t) :
  sortByNum attributes ≡ₚ attributes.
Proof.
  induction attributes as [|a attributes IH]; simpl; [done|].
  by rewrite insertByNum_Permutation, IH.
Qed.

Lemma insertByNum_sorted (a : PgAttribute.t) (sorted : list PgAttribute.t) :
  StronglySorted (λ a b, PgAttribute.num a ≤ PgAttribute.num b)%Z sorted →
  StronglySorted (λ a b, PgAttribute.num a ≤ PgAttribute.num b)%Z (insertByNum a sorted).
Proof.
  induction 1 as [|b sorted Hsorted IH Hb]; simpl; [repeat constructor|].
  destruct (PgAttribute.num a - PgAttribute.num b <=? 0)%Z eqn:Hle.
  - apply Z.leb_le in Hle. constructor; [by constructor|].
    constructor; [lia|]. eapply Forall_impl; [exact Hb|]. simpl. intros c Hc. lia.
  - apply Z.leb_gt in Hle. constructor; [done|].
    rewrite insertByNum_Permutation. constructor; [lia|done].
Qed.

(** X12: the hooks sort the attributes of the table by [num], and the
    sort is one: the sorted array has the same attributes, in ascending
    [num].  A member number resolves to the same attribute in the sorted
    array of the hook as in the unsorted one of [resolve], also when two
    attributes share a number. *)
Theorem sorting_keeps_member_resolution (attributes : list PgAttribute.t) :
  sortByNum attributes ≡ₚ attributes
  ∧ StronglySorted (λ a b, PgAttribute.num a ≤ PgAttribute.num b)%Z (sortByNum attributes)
  ∧ ∀ num, findAttribute (sortByNum attributes) num = findAttribute attributes num.
Proof.
  split; [apply sortByNum_Permutation|]. split; [|apply findAttribute_sortByNum].
  induction attributes as [|a attributes IH]; simpl; [constructor|].
  by apply insertByNum_sorted.
Qed.

(** ** The tables that get a mutation field *)

Lemma filter_filter_andb {A : Type} (p q : A → bool) (xs : list A) :
  List.filter q (List.filter p xs) = List.filter (λ x, p x && q x) xs.
Proof.
  induction xs as [|x xs IH]; simpl; [done|].
  destruct (p x); simpl; [|done]. destruct (q x); by rewrite IH.
Qed.

(** X13: both versions make a mutation field for the same tables, and
    such a table has a namespace: its [resolve] never fails on the
    namespace, neither by the assertion of [createUpsertField] nor by a
    [TypeError] of [PgMutationUpsertPlugin], which is left with the
    catalogue that does not resolve a member number and the table without
    primary key among its constraints. *)
Theorem upsertable_table_has_namespace {T : Type}
    (build : Build) (schema : SchemaBuild T) (table : PgClass.t)
    (fargs : UpsertField.Args) (pargs : UpsertPlugin.Args) :
  UpsertPluginFields.tables schema = UpsertResolverPlugin.upsertableTables schema
  ∧ (table ∈ UpsertResolverPlugin.upsertableTables schema →
     is_Some (PgTable.namespace (PgClass.table table))
     ∧ UpsertField.resolve build (PgClass.table table) fargs
       ≠ Throw (AssertionError "expected table namespace")
     ∧ (UpsertPlugin.resolve build (PgClass.table table) pargs
        = Throw UpsertPlugin.undefinedName →
        ¬ resolved (UpsertPlugin.attributes build (PgClass.table table))
            (UpsertPlugin.uniqueConstraints build (PgClass.table table))
        ∨ (UpsertPlugin.where_ pargs = None
           ∧ UpsertPlugin.primaryKeyConstraint build (PgClass.table table) = None))).
Proof.
  split.
  - unfold UpsertPluginFields.tables, UpsertResolverPlugin.upsertableTables.
    rewrite !filter_filter_andb. apply filter_ext. intros x. by rewrite <- !andb_assoc.
  - intros Htable. unfold UpsertResolverPlugin.upsertableTables in Htable.
    apply list_elem_of_In, filter_In in Htable as [_ Htable].
    repeat (apply andb_true_iff in Htable as [Htable _]).
    apply bool_decide_eq_true in Htable as [namespaceName Hns].
    split; [by exists namespaceName|]. split.
    + intros [(con & num & _ & _ & _ & [=])|[[=]|[(attr & _ & _ & [=])|[Hnone _]]]]
        %field_resolve_throws.
      congruence.
    + intros [[_ [?|[?|?]]]|[[=]|(attr & _ & _ & [=])]]%plugin_resolve_throws;
        [by left|by right|congruence].
Qed.

(** ** The fields of the [where] type *)

Section whereFields_facts.
Context {T : Type} (build : Build) (schema : SchemaBuild T) (table : PgTable.t).

Local Abbreviation attributes := (UpsertField.attributes build table).

Lemma keys_eq (con : PgConstraint.t) :
  keys build table con = map (findAttribute attributes) (PgConstraint.keyAttributeNums con).
Proof. apply map_ext. intros num. apply findAttribute_sortByNum. Qed.

Lemma everyKey_resolves (con : PgConstraint.t) :
  everyKey build table con = resolves attributes con.
Proof.
  unfold everyKey, resolves. rewrite keys_eq.
  induction (PgConstraint.keyAttributeNums con) as [|num nums IH]; [done|].
  cbn [map forallb]. rewrite IH. f_equal.
  destruct (findAttribute attributes num) as [a|]; symmetry.
  - by apply bool_decide_eq_true_2.
  - apply bool_decide_eq_false_2. by intros [a Ha].
Qed.

Lemma elem_of_keys (con : PgConstraint.t) (col : PgAttribute.t) :
  Some col ∈ keys build table con ↔ col ∈ members attributes con.
Proof.
  rewrite keys_eq. unfold members. rewrite list_elem_of_fmap, list_elem_of_omap.
  split; intros (num & ? & ?); by exists num.
Qed.

Lemma someM_true {A : Type} (p : A → Completion bool) (xs : list A) :
  someM p xs = Return true → ∃ x, x ∈ xs ∧ p x = Return true.
Proof.
  induction xs as [|x xs IH]; simpl; [done|].
  destruct (p x) as [[]|] eqn:Hx; [|intros (y & Hy & Hp)%IH|done].
  - intros _. exists x. split; [left|done].
  - exists y. split; [by right|done].
Qed.

Lemma omitsRead_true (con : PgConstraint.t) :
  omitsRead build schema table con = Return true →
  (∃ col, col ∈ members attributes con ∧ pgOmit build col "read" = true)
  ∨ pgOmitUndefined schema "read" = Return true.
Proof.
  intros ([col|] & Hin & Hcol)%someM_true; [left|by right].
  exists col. split; [by apply elem_of_keys|]. by injection Hcol.
Qed.

Lemma elem_of_set_names {V : Type} (o : JsObject V) (k k' : string) (v : V) :
  k' ∈ (set o k v).*1 ↔ k' = k ∨ k' ∈ o.*1.
Proof.
  induction o as [|[k0 v0] o IH]; simpl.
  - rewrite list_elem_of_singleton. split; [by left|]. by intros [?|?%elem_of_nil].
  - destruct (String.eqb_spec k0 k) as [->|Hne]; csimpl.
    + rewrite !elem_of_cons. tauto.
    + rewrite !elem_of_cons, IH. tauto.
Qed.

Lemma elem_of_set_inv {V : Type} (o : JsObject V) (k : string) (v : V) (kv : string * V) :
  kv ∈ set o k v → kv = (k, v) ∨ kv ∈ o.
Proof.
  induction o as [|[k0 v0] o IH]; simpl.
  - intros ->%list_elem_of_singleton. by left.
  - destruct (String.eqb k0 k).
    + intros [->|Hin]%elem_of_cons; [by left|]. right. by right.
    + intros [->|Hin]%elem_of_cons; [right; by left|].
      destruct (IH Hin) as [->|?]; [by left|]. right. by right.
Qed.

(** The inner loop, [keys.forEach], of [createUpsertField]. *)
Lemma forEach_key_names (ks : list (option PgAttribute.t)) (acc acc' : JsObject T) :
  reduceM (λ acc key, field ← inputType build schema table key;
                      Return (set acc field.1 field.2)) ks acc = Return acc' →
  (∀ k, k ∈ acc'.*1
        ↔ k ∈ acc.*1
          ∨ ∃ col, Some col ∈ ks ∧ k = camelCase (inflection build) (PgAttribute.name col))
  ∧ ∀ k t, (k, t) ∈ acc' →
      (k, t) ∈ acc
      ∨ ∃ col, Some col ∈ ks
               ∧ k = camelCase (inflection build) (PgAttribute.name col)
               ∧ pgGetGqlInputTypeByTypeIdAndModifier schema (typeId schema col)
                   (PgAttribute.typeModifier col) = Some t.
Proof.
  revert acc. induction ks as [|key ks IH]; intros acc; simpl.
  - intros [= <-]. split.
    + intros k. split; [by left|]. intros [?|(col & ?%elem_of_nil & _)]; done.
    + intros k t ?. by left.
  - destruct key as [col|]; simpl; [|done].
    destruct (pgGetGqlInputTypeByTypeIdAndModifier schema _ _) as [t0|] eqn:Htype;
      simpl; [|done].
    intros [Hnames Htypes]%IH. split.
    + intros k. rewrite Hnames, elem_of_set_names. split.
      * intros [[->|?]|(c & Hc & ->)]; [right|by left|right].
        -- exists col. split; [left|done].
        -- exists c. split; [by right|done].
      * intros [?|(c & [[= ->]|Hc]%elem_of_cons & ->)];
          [left; by right|left; by left|right; by exists c].
    + intros k t [[[= -> ->]|?]%elem_of_set_inv|(c & Hc & -> & Ht)]%Htypes.
      * right. exists col. split; [left|done].
      * by left.
      * right. exists c. split; [by right|done].
Qed.

(** The loop over the constraints of [createUpsertField]. *)
Lemma gqlInputTypesByFieldName_from (cons : list PgConstraint.t) (acc fields : JsObject T) :
  reduceM (λ acc con,
      match omitsRead build schema table con with
      | Return true => Return acc
      | Return false =>
          if negb (everyKey build table con) then Throw consistencyError
          else reduceM (λ acc key,
                   field ← inputType build schema table key;
                   Return (set acc field.1 field.2))
                 (keys build table con) acc
      | Throw e => Throw e
      end) cons acc = Return fields →
  (∀ con, con ∈ cons →
     omitsRead build schema table con = Return true
     ∨ (omitsRead build schema table con = Return false ∧ resolves attributes con = true))
  ∧ (∀ k, k ∈ fields.*1
          ↔ k ∈ acc.*1
            ∨ ∃ con col, con ∈ cons
                         ∧ omitsRead build schema table con = Return false
                         ∧ col ∈ members attributes con
                         ∧ k = camelCase (inflection build) (PgAttribute.name col))
  ∧ (∀ k t, (k, t) ∈ fields →
       (k, t) ∈ acc
       ∨ ∃ col, col ∈ attributes
                ∧ k = camelCase (inflection build) (PgAttribute.name col)
                ∧ pgGetGqlInputTypeByTypeIdAndModifier schema (typeId schema col)
                    (PgAttribute.typeModifier col) = Some t).
Proof.
  revert acc. induction cons as [|c cons IH]; intros acc; simpl.
  - intros [= <-]. split; [by intros con ?%elem_of_nil|]. split.
    + intros k. split; [by left|]. intros [?|(con & col & ?%elem_of_nil & _)]; done.
    + intros k t ?. by left.
  - destruct (omitsRead build schema table c) as [[]|] eqn:Homit; simpl; [| |done].
    + intros (Hcons & Hnames & Htypes)%IH. split; [|split].
      * intros con [->|Hcon]%elem_of_cons; [by left|by apply Hcons].
      * intros k. rewrite Hnames. split.
        -- intros [?|(con & col & Hcon & ?)]; [by left|right].
           exists con, col. split; [by right|done].
        -- intros [?|(con & col & [->|Hcon]%elem_of_cons & Hfalse & ?)];
             [by left|congruence|right; by exists con, col].
      * done.
    + rewrite everyKey_resolves.
      destruct (resolves attributes c) eqn:Hres; simpl; [|done].
      destruct (reduceM _ (keys build table c) acc) as [acc'|] eqn:Hkeys; simpl; [|done].
      apply forEach_key_names in Hkeys as [Hkeys Hkeytypes].
      intros (Hcons & Hnames & Htypes)%IH. split; [|split].
      * intros con [->|Hcon]%elem_of_cons; [by right|by apply Hcons].
      * intros k. rewrite Hnames, Hkeys. split.
        -- intros [[?|(col & Hcol%elem_of_keys & ->)]|(con & col & Hcon & ?)].
           ++ by left.
           ++ right. exists c, col. split; [left|done].
           ++ right. exists con, col. split; [by right|done].
        -- intros [?|(con & col & [->|Hcon]%elem_of_cons & Hfalse & Hcol & ->)].
           ++ left. by left.
           ++ left. right. exists col. split; [by apply elem_of_keys|done].
           ++ right. by exists con, col.
      * intros k t [[?|(col & Hcol%elem_of_keys & -> & Ht)]%Hkeytypes|?]%Htypes;
          [by left| |by right].
        right. exists col. split; [by apply members_elem_of in Hcol|done].
Qed.

(** X14: when [createUpsertField] builds the fields of the [where] type,
    every unique constraint of the table either has a member that omits
    [read] and is passed over, or has an attribute for each member
    number; the names of the fields are the camel-case names of the
    members of the constraints that are not passed over, and the type of a
    field is the input type of a column of that name. *)
Theorem where_type_fields (fields : JsObject T) :
  UpsertResolverPlugin.gqlInputTypesByFieldName build schema table = Return fields →
  (∀ con, con ∈ UpsertField.uniqueConstraints build table →
     omitsRead build schema table con = Return true
     ∨ (omitsRead build schema table con = Return false ∧ resolves attributes con = true))
  ∧ (∀ k, k ∈ fields.*1
          ↔ ∃ con col, con ∈ UpsertField.uniqueConstraints build table
                       ∧ omitsRead build schema table con = Return false
                       ∧ col ∈ members attributes con
                       ∧ k = camelCase (inflection build) (PgAttribute.name col))
  ∧ (∀ k t, (k, t) ∈ fields →
       ∃ col, col ∈ attributes
              ∧ k = camelCase (inflection build) (PgAttribute.name col)
              ∧ pgGetGqlInputTypeByTypeIdAndModifier schema (typeId schema col)
                  (PgAttribute.typeModifier col) = Some t).
Proof.
  intros (Hcons & Hnames & Htypes)%gqlInputTypesByFieldName_from.
  split; [done|]. split.
  - intros k. rewrite Hnames. split; [|by right]. by intros [?%elem_of_nil|?].
  - intros k t [?%elem_of_nil|?]%Htypes; done.
Qed.

End whereFields_facts.

(** ** The schema that was built and the errors of [resolve] *)

Lemma upsertableTables_namespace {T : Type} (schema : SchemaBuild T) (table : PgClass.t) :
  table ∈ UpsertResolverPlugin.upsertableTables schema →
  is_Some (PgTable.namespace (PgClass.table table)).
Proof.
  intros Htable. unfold UpsertResolverPlugin.upsertableTables in Htable.
  apply list_elem_of_In, filter_In in Htable as [_ Htable].
  repeat (apply andb_true_iff in Htable as [Htable _]).
  by apply bool_decide_eq_true in Htable.
Qed.

(** X15: a table that the [build] hook takes, whose [where] type
    [createUpsertField] has built, and none of whose columns omits
    [read]: every member number of its unique constraints has an
    attribute, and [resolve] throws nothing but the two errors about the
    request, the one of the resolver that names the keys of the input and
    the one on a value of the input that differs from [where]. *)
Theorem built_field_throws_request_errors_only {T : Type}
    (build : Build) (schema : SchemaBuild T) (table : PgClass.t) (fields : JsObject T)
    (args : UpsertField.Args) :
  table ∈ UpsertResolverPlugin.upsertableTables schema →
  UpsertResolverPlugin.gqlInputTypesByFieldName build schema (PgClass.table table)
  = Return fields →
  (∀ attr, attr ∈ UpsertField.attributes build (PgClass.table table) →
           pgOmit build attr "read" = false) →
  pgOmitUndefined schema "read" ≠ Return true →
  resolved (UpsertField.attributes build (PgClass.table table))
           (UpsertField.uniqueConstraints build (PgClass.table table))
  ∧ ∀ e, UpsertField.resolve build (PgClass.table table) args = Throw e →
      e = noMatchingConstraint (UpsertField.inputDataKeys args)
      ∨ ∃ attr, attr ∈ UpsertField.attributes build (PgClass.table table)
                ∧ mismatch build (UpsertField.where_ args) (UpsertField.inputData args) attr
                  = true
                ∧ e = valueMismatch (column (inflection build) attr).
Proof.
  intros [namespaceName Hns]%upsertableTables_namespace
         (Hcons & _)%gqlInputTypesByFieldName_from Hread Hundefined.
  assert (resolved (UpsertField.attributes build (PgClass.table table))
            (UpsertField.uniqueConstraints build (PgClass.table table))) as Hres.
  { unfold resolved. apply forallb_forall. intros con Hcon%list_elem_of_In.
    destruct (Hcons con Hcon) as [Homit|[_ Hcon_res]]; [|done].
    apply omitsRead_true in Homit as [(col & Hcol & Homit)|?]; [|done].
    apply members_elem_of in Hcol. rewrite (Hread col Hcol) in Homit. done. }
  split; [done|].
  intros e [(con & num & Hcon & Hnum & Hnone & _)|[?|[?|[Hnone _]]]]%field_resolve_throws;
    [|by left|by right|congruence].
  unfold resolved in Hres. rewrite forallb_forall in Hres.
  apply list_elem_of_In, Hres in Hcon. unfold resolves in Hcon.
  rewrite forallb_forall in Hcon.
  apply list_elem_of_In, Hcon, bool_decide_eq_true in Hnum as [a Ha]. congruence.
Qed.

(** ** The fields of the [where] type in [PgMutationUpsertPlugin] *)

Section pluginFields_facts.
Context {T : Type} (build : Build) (schema : SchemaBuild T) (table : PgTable.t).

(** On [undefined] the inner loop throws or leaves [undefined]. *)
Lemma assign_keys_undefined (ks : list (option PgAttribute.t)) (r : option (JsObject T)) :
  reduceM (λ acc key, field ← inputType build schema table key;
                      UpsertPluginFields.assign acc field.1 field.2) ks None = Return r →
  r = None.
Proof.
  destruct ks as [|key ks]; simpl; [by intros [= <-]|].
  by destruct (inputType build schema table key).
Qed.

(** On an object the inner loop does what the one of [createUpsertField]
    does. *)
Lemma assign_keys_object (ks : list (option PgAttribute.t)) (acc : JsObject T) :
  reduceM (λ acc key, field ← inputType build schema table key;
                      UpsertPluginFields.assign acc field.1 field.2) ks (Some acc)
  = match reduceM (λ acc key, field ← inputType build schema table key;
                              Return (set acc field.1 field.2)) ks acc with
    | Return acc' => Return (Some acc')
    | Throw e => Throw e
    end.
Proof.
  revert acc. induction ks as [|key ks IH]; intros acc; simpl; [done|].
  destruct (inputType build schema table key) as [field|]; simpl; [|done]. apply IH.
Qed.

Lemma fields_from_undefined (cons : list PgConstraint.t) (r : option (JsObject T)) :
  reduceM (λ acc con,
      match omitsRead build schema table con with
      | Return true => Return None
      | Return false =>
          if negb (everyKey build table con) then Throw consistencyError
          else reduceM (λ acc key,
                   field ← inputType build schema table key;
                   UpsertPluginFields.assign acc field.1 field.2)
                 (keys build table con) acc
      | Throw e => Throw e
      end) cons None = Return r →
  r = None.
Proof.
  induction cons as [|c cons IH]; simpl; [by intros [= <-]|].
  destruct (omitsRead build schema table c) as [[]|]; simpl; [done| |done].
  destruct (negb (everyKey build table c)); simpl; [done|].
  destruct (reduceM _ (keys build table c) None) as [acc'|] eqn:Hkeys; simpl; [|done].
  apply assign_keys_undefined in Hkeys as ->. done.
Qed.

Lemma fields_passed_over (cons : list PgConstraint.t) (con : PgConstraint.t)
    (acc r : option (JsObject T)) :
  con ∈ cons → omitsRead build schema table con = Return true →
  reduceM (λ acc con,
      match omitsRead build schema table con with
      | Return true => Return None
      | Return false =>
          if negb (everyKey build table con) then Throw consistencyError
          else reduceM (λ acc key,
                   field ← inputType build schema table key;
                   UpsertPluginFields.assign acc field.1 field.2)
                 (keys build table con) acc
      | Throw e => Throw e
      end) cons acc = Return r →
  r = None.
Proof.
  intros Hcon Homit. revert acc.
  induction cons as [|c cons IH]; intros acc; [by apply elem_of_nil in Hcon|].
  simpl. apply elem_of_cons in Hcon as [<-|Hcon].
  - rewrite Homit. simpl. apply fields_from_undefined.
  - destruct (omitsRead build schema table c) as [[]|]; simpl; [| |done].
    + apply fields_from_undefined.
    + destruct (negb (everyKey build table c)); simpl; [done|].
      destruct (reduceM _ (keys build table c) acc) as [acc'|]; simpl; [|done].
      by apply IH.
Qed.

Lemma fields_not_passed_over (cons : list PgConstraint.t) (acc : JsObject T) :
  (∀ con, con ∈ cons → omitsRead build schema table con ≠ Return true) →
  reduceM (λ acc con,
      match omitsRead build schema table con with
      | Return true => Return None
      | Return false =>
          if negb (everyKey build table con) then Throw consistencyError
          else reduceM (λ acc key,
                   field ← inputType build schema table key;
                   UpsertPluginFields.assign acc field.1 field.2)
                 (keys build table con) acc
      | Throw e => Throw e
      end) cons (Some acc)
  = match reduceM (λ acc con,
              match omitsRead build schema table con with
              | Return true => Return acc
              | Return false =>
                  if negb (everyKey build table con) then Throw consistencyError
                  else reduceM (λ acc key,
                           field ← inputType build schema table key;
                           Return (set acc field.1 field.2))
                         (keys build table con) acc
              | Throw e => Throw e
              end) cons acc with
    | Return fields => Return (Some fields)
    | Throw e => Throw e
    end.
Proof.
  revert acc. induction cons as [|c cons IH]; intros acc Hcons; simpl; [done|].
  destruct (omitsRead build schema table c) as [[]|] eqn:Homit; simpl; [| |done].
  - destruct (Hcons c); [left|done].
  - destruct (negb (everyKey build table c)); simpl; [done|].
    rewrite assign_keys_object.
    destruct (reduceM _ (keys build table c) acc) as [acc'|]; simpl; [|done].
    apply IH. intros con Hcon. apply Hcons. by right.
Qed.

Lemma plugin_fields_none (con : PgConstraint.t) (r : option (JsObject T)) :
  con ∈ UpsertField.uniqueConstraints build table →
  omitsRead build schema table con = Return true →
  UpsertPluginFields.fields build schema table = Return r → r = None.
Proof.
  unfold UpsertPluginFields.fields. rewrite uniqueConstraints_same.
  intros Hcon Homit. by apply (fields_passed_over _ con).
Qed.

Lemma plugin_fields_same :
  (∀ con, con ∈ UpsertField.uniqueConstraints build table →
          omitsRead build schema table con ≠ Return true) →
  UpsertPluginFields.fields build schema table
  = match UpsertResolverPlugin.gqlInputTypesByFieldName build schema table with
    | Return fields => Return (Some fields)
    | Throw e => Throw e
    end.
Proof.
  unfold UpsertPluginFields.fields, UpsertResolverPlugin.gqlInputTypesByFieldName.
  rewrite uniqueConstraints_same. apply fields_not_passed_over.
Qed.

(** X16: the fields of the [where] type in [PgMutationUpsertPlugin].
    The callback returns nothing at a unique constraint with a member
    that omits [read], so from there on the accumulator is [undefined]:
    when such a constraint exists the hook never gets an object of fields
    ([undefined] or an exception), where [createUpsertField] keeps the
    fields of the other constraints.  Without such a constraint the two
    versions build the same fields. *)
Theorem plugin_where_fields_lost_when_passed_over :
  (∀ con r, con ∈ UpsertField.uniqueConstraints build table →
            omitsRead build schema table con = Return true →
            UpsertPluginFields.fields build schema table = Return r → r = None)
  ∧ ((∀ con, con ∈ UpsertField.uniqueConstraints build table →
             omitsRead build schema table con ≠ Return true) →
     UpsertPluginFields.fields build schema table
     = match UpsertResolverPlugin.gqlInputTypesByFieldName build schema table with
       | Return fields => Return (Some fields)
       | Throw e => Throw e
       end).
Proof. split; [apply plugin_fields_none|apply plugin_fields_same]. Qed.

End pluginFields_facts.

(** ** A request that the types of the schema accept *)

(** X17: a key of [where] that the [where] type has as a field is the
    camel-case name of an attribute of the table, and when the loop
    returns, the column of that attribute is in the insert list, with the
    value of [where] or with the value of the input that [===] it.  In
    [PgMutationUpsertPlugin] the same holds when the hook got an object of
    fields. *)
Theorem where_field_is_inserted {T : Type}
    (build : Build) (schema : SchemaBuild T) (table : PgTable.t)
    (fargs : UpsertField.Args) (pargs : UpsertPlugin.Args)
    (w : JsObject Primitive) (k : string) (wv : Primitive) :
  sameRequest fargs pargs →
  UpsertField.where_ fargs = Some w →
  get w k = Some wv →
  (∀ fields, UpsertResolverPlugin.gqlInputTypesByFieldName build schema table = Return fields →
     k ∈ fields.*1 →
     ∃ col, col ∈ UpsertField.attributes build table
            ∧ camelCase (inflection build) (PgAttribute.name col) = k
            ∧ ∀ acc, UpsertField.reconcile build table fargs = Return acc →
                ∃ v, (v = wv ∨ strictEquals wv v = true)
                     ∧ (sql.identifier [PgAttribute.name col],
                        gql2pg build v (PgAttribute.type col) (PgAttribute.typeModifier col))
                         ∈ zip (sqlColumns acc) (sqlValues acc))
  ∧ (∀ fields, UpsertPluginFields.fields build schema table = Return (Some fields) →
       k ∈ fields.*1 →
       ∃ col, col ∈ UpsertPlugin.attributes build table
              ∧ camelCase (inflection build) (PgAttribute.name col) = k
              ∧ ∀ acc, UpsertPlugin.reconcile build table pargs = Return acc →
                  ∃ v, (v = wv ∨ strictEquals wv v = true)
                       ∧ (sql.identifier [PgAttribute.name col],
                          gql2pg build v (PgAttribute.type col) (PgAttribute.typeModifier col))
                           ∈ zip (sqlColumns acc) (sqlValues acc)).
Proof.
  intros [Hpw Hpinput] Hw Hwv.
  assert (∀ fields,
            UpsertResolverPlugin.gqlInputTypesByFieldName build schema table = Return fields →
            k ∈ fields.*1 →
            ∃ col, col ∈ UpsertField.attributes build table
                   ∧ camelCase (inflection build) (PgAttribute.name col) = k
                   ∧ (List.find (mismatch build (Some w) (UpsertField.inputData fargs))
                                (UpsertField.attributes build table) = None →
                      ∃ v, (v = wv ∨ strictEquals wv v = true)
                           ∧ (col, v) ∈ insertList build (Some w) (UpsertField.inputData fargs)
                                          (UpsertField.attributes build table))) as Hfield.
  { intros fields (_ & Hnames & _)%gqlInputTypesByFieldName_from Hk.
    apply Hnames in Hk as [?%elem_of_nil|(con & col & _ & _ & Hcol & ->)]; [done|].
    apply members_elem_of in Hcol. exists col. split; [done|]. split; [done|].
    intros Hfind.
    destruct (insertValue_of_where build w _ _ col wv Hfind Hcol Hwv) as (v & Hv & Hagree).
    exists v. split; [done|]. by apply elem_of_insertList. }
  split.
  - intros fields Hfields Hk.
    destruct (Hfield fields Hfields Hk) as (col & Hcol & Hname & Hins).
    exists col. split; [done|]. split; [done|].
    intros acc Hacc. rewrite field_reconcile_eq, Hw in Hacc.
    destruct (List.find _ _) eqn:Hfind; [done|]. injection Hacc as <-. simpl.
    destruct (Hins eq_refl) as (v & Hagree & Hin). exists v. split; [done|].
    rewrite zip_fmap_same.
    by apply (list_elem_of_fmap_2 (λ p, (columnOf p, valueOf build p)) _ (col, v)).
  - intros fields Hfields Hk.
    assert (UpsertResolverPlugin.gqlInputTypesByFieldName build schema table = Return fields)
      as Hsame.
    { assert (∀ con, con ∈ UpsertField.uniqueConstraints build table →
                     omitsRead build schema table con ≠ Return true) as Hnone.
      { intros con Hcon Homit.
        by pose proof (plugin_fields_none build schema table con (Some fields) Hcon Homit
                         Hfields). }
      pose proof (plugin_fields_same build schema table Hnone) as Heq.
      rewrite Hfields in Heq.
      destruct (UpsertResolverPlugin.gqlInputTypesByFieldName build schema table);
        by simplify_eq. }
    destruct (Hfield fields Hsame Hk) as (col & Hcol & Hname & Hins).
    exists col. split; [done|]. split; [done|].
    intros acc Hacc. rewrite plugin_reconcile_eq, Hpw, Hpinput, Hw in Hacc.
    change (UpsertPlugin.attributes build table) with (UpsertField.attributes build table)
      in Hacc.
    destruct (List.find (mismatch build (Some w) (UpsertField.inputData fargs))
                        (UpsertField.attributes build table)) eqn:Hfind; [done|].
    injection Hacc as <-. simpl.
    destruct (Hins eq_refl) as (v & Hagree & Hin). exists v. split; [done|].
    rewrite zip_fmap_same.
    by apply (list_elem_of_fmap_2 (λ p, (columnOf p, valueOf build p)) _ (col, v)).
Qed.

Lemma foldl_set_names {A V : Type} (key : A → string) (val : A → V) (xs : list A)
    (acc : JsObject V) (k : string) :
  k ∈ (foldl (λ acc x, set acc (key x) (val x)) acc xs).*1
  ↔ k ∈ acc.*1 ∨ ∃ x, x ∈ xs ∧ k = key x.
Proof.
  revert acc. induction xs as [|x xs IH]; intros acc; simpl.
  - split; [by left|]. by intros [?|(x & ?%elem_of_nil & _)].
  - rewrite IH, elem_of_set_names. split.
    + intros [[->|?]|(y & Hy & ->)]; [right|by left|right].
      * exists x. split; [left|done].
      * exists y. split; [by right|done].
    + intros [?|(y & [->|Hy]%elem_of_cons & ->)];
        [left; by right|left; by left|right; by exists y].
Qed.

(** X18: the [ignore] type of [PgMutationUpsertPlugin] has a field for
    every attribute of the table, those that omit the update included;
    an entry of [ignore] under such a field is the entry that the loop
    leaves in [ignoreUpdate] for an attribute of that name, and decides
    whether its column is updated: left out on [true], kept on [false]
    and on [null]. *)
Theorem ignore_field_decides_the_update {T : Type}
    (build : Build) (table : PgTable.t) (GraphQLBoolean : T) (args : UpsertPlugin.Args)
    (ig : JsObject (option bool)) (k : string) (v : option bool) :
  (∀ attr, attr ∈ UpsertPlugin.attributes build table →
     camelCase (inflection build) (PgAttribute.name attr)
       ∈ (UpsertPluginFields.ignoreFields build table GraphQLBoolean).*1)
  ∧ (UpsertPlugin.ignore args = Some ig → get ig k = Some v →
     k ∈ (UpsertPluginFields.ignoreFields build table GraphQLBoolean).*1 →
     ∃ attr, attr ∈ UpsertPlugin.attributes build table
             ∧ camelCase (inflection build) (PgAttribute.name attr) = k
             ∧ ignoreEntry build args attr = v
             ∧ (NoDup (PgAttribute.name <$> UpsertPlugin.attributes build table) →
                ∀ acc, UpsertPlugin.reconcile build table args = Return acc →
                  UpsertPlugin.keep (ignoreUpdate acc) (sql.identifier [PgAttribute.name attr])
                  = negb (bool_decide (v = Some true)))).
Proof.
  assert (∀ attr, attr ∈ sortedAttributes build table
                  ↔ attr ∈ UpsertPlugin.attributes build table) as Hsorted
    by (intros attr; unfold sortedAttributes; by rewrite sortByNum_Permutation).
  split.
  - intros attr Hattr. unfold UpsertPluginFields.ignoreFields.
    apply foldl_set_names. right. exists attr. by rewrite Hsorted.
  - intros Hig Hv Hk. unfold UpsertPluginFields.ignoreFields in Hk.
    apply foldl_set_names in Hk as [?%elem_of_nil|(attr & Hattr%Hsorted & ->)]; [done|].
    exists attr. split; [done|]. split; [done|].
    assert (ignoreEntry build args attr = v) as Hentry
      by (unfold ignoreEntry; by rewrite Hig, Hv).
    split; [done|].
    intros Hnodup acc Hacc. rewrite plugin_reconcile_eq in Hacc.
    destruct (List.find _ _); [done|]. injection Hacc as <-. simpl.
    unfold UpsertPlugin.keep. simpl.
    rewrite (plugin_ignoreUpdate_get build args _ [] attr Hnodup Hattr), Hentry.
    by destruct v as [[]|].
Qed.

(** * The properties at the tables of the test suite *)

Import Schema.

Lemma roles_names_distinct :
  NoDup (PgAttribute.name <$> UpsertField.attributes build roles).
Proof. by apply (bool_decide_unpack _). Defined.

(** The test "upsert with unique constraint": the keys of the input cover
    [serial_weight_unique]. *)
Lemma field_input_targets_first_covered_constraint_witness :
  UpsertField.resolve build bikes (field None bikeUnique None)
  = UpsertField.upsert build bikes (field None bikeUnique None) "serial_weight_unique".
Proof.
  exact (field_input_targets_first_covered_constraint build bikes (field None bikeUnique None)
           eq_refl bikes_resolved bikes_named).
Defined.

(** The test "upsert where clause": [rank] omits [updateOnConflict]. *)
Lemma field_keep_iff_not_excluded_witness :
  ∃ acc,
    UpsertField.reconcile build roles (field (Some roleWhere) roleFrank None) = Return acc
    ∧ UpsertField.keep (ignoreUpdate acc) (IDENTIFIER ["rank"]) = false.
Proof.
  eassert (UpsertField.reconcile build roles (field (Some roleWhere) roleFrank None) = Return _)
    as Hacc by (vm_compute; reflexivity).
  eexists. split; [exact Hacc|].
  exact (proj1 (field_keep_iff_not_excluded build roles
                  (field (Some roleWhere) roleFrank None) _ rank
                  roles_names_distinct ltac:(by apply (bool_decide_unpack _)) Hacc)).
Defined.

(** The same input in [PgMutationUpsertPlugin]: the primary key. *)
Lemma plugin_input_targets_primary_key_witness :
  UpsertPlugin.resolve build bikes (plugin None bikeUnique None)
  = UpsertPlugin.upsert build bikes (plugin None bikeUnique None) "bikes_pkey".
Proof.
  exact (plugin_input_targets_primary_key build bikes (plugin None bikeUnique None)
           eq_refl bikes_resolved bikes_named
           ltac:(repeat constructor; simpl; discriminate)).
Defined.

(** [ignore: { rank: false }] keeps [rank], which omits
    [updateOnConflict]. *)
Lemma plugin_keep_follows_ignore_entry_witness :
  ∃ acc,
    UpsertPlugin.reconcile build roles
      (plugin (Some roleWhere) roleFrank (Some [("rank", Some false)])) = Return acc
    ∧ get (ignoreUpdate acc) "rank" = Some (Some false)
    ∧ UpsertPlugin.keep (ignoreUpdate acc) (IDENTIFIER ["rank"]) = true.
Proof.
  eassert (UpsertPlugin.reconcile build roles
             (plugin (Some roleWhere) roleFrank (Some [("rank", Some false)])) = Return _)
    as Hacc by (vm_compute; reflexivity).
  eexists. split; [exact Hacc|].
  exact (plugin_keep_follows_ignore_entry build roles
           (plugin (Some roleWhere) roleFrank (Some [("rank", Some false)])) _ rank
           roles_names_distinct ltac:(by apply (bool_decide_unpack _)) Hacc).
Defined.

(** A unique constraint of [bikes] on the column numbers 2 and 9. *)
Lemma dangling_member_fails_assertion_witness :
  UpsertField.resolve buildDangling bikes (field (Some bikeWhere) bikeModel None)
  = Throw (AssertionError "no attribute found for 9").
Proof.
  exact (dangling_member_fails_assertion buildDangling bikes
           (field (Some bikeWhere) bikeModel None)
           [PgConstraint.mk "1" "bikes_pkey" "p" [1%Z];
            PgConstraint.mk "1" "serial_weight_unique" "u" [5%Z; 2%Z]] []
           (PgConstraint.mk "1" "bikes_weight_nine_key" "u" [2%Z; 9%Z])
           [2%Z] [] 9%Z eq_refl eq_refl eq_refl
           ltac:(repeat constructor; by eexists) eq_refl).
Defined.

(** The test "throws an error if input values differ from where clause
    values": the error is the one on [serial_number]. *)
Lemma resolve_throws_only_witness :
  ∃ attr, attr ∈ UpsertField.attributes build bikes
          ∧ mismatch build (Some bikeWhere) bikeOther attr = true
          ∧ valueMismatch "serialNumber" = valueMismatch (column (inflection build) attr).
Proof.
  destruct (proj1 (resolve_throws_only build bikes (field (Some bikeWhere) bikeOther None)
                     (plugin None [] None))
              (valueMismatch "serialNumber") eq_refl)
    as [(con & num & _ & _ & _ & Heq)|[Heq|[Hattr|[Hns _]]]];
    [discriminate Heq|discriminate Heq|exact Hattr|discriminate Hns].
Defined.

(** The test "Includes where clause values if ommitted from input". *)
Lemma columns_and_values_go_in_pairs_witness :
  ∃ acc, UpsertField.reconcile build bikes (field (Some bikeWhere) bikeModel None) = Return acc
         ∧ length (sqlColumns acc) = length (sqlValues acc)
         ∧ NoDup (sqlColumns acc).
Proof.
  eassert (UpsertField.reconcile build bikes (field (Some bikeWhere) bikeModel None) = Return _)
    as Hacc by (vm_compute; reflexivity).
  eexists. split; [exact Hacc|].
  destruct (proj1 (columns_and_values_go_in_pairs build bikes
                     (field (Some bikeWhere) bikeModel None) (plugin None [] None)) _ Hacc)
    as [Hlength Hnodup].
  split; [exact Hlength|]. apply Hnodup. by apply (bool_decide_unpack _).
Defined.

(** The same test: [weight] is a member of the target. *)
Lemma where_target_is_fully_inserted_witness :
  ∃ acc wv v,
    UpsertField.reconcile build bikes (field (Some bikeWhere) bikeModel None) = Return acc
    ∧ get bikeWhere "weight" = Some wv
    ∧ (v = wv ∨ strictEquals wv v = true)
    ∧ (IDENTIFIER ["weight"], [VALUE v]) ∈ zip (sqlColumns acc) (sqlValues acc).
Proof.
  eassert (UpsertField.reconcile build bikes (field (Some bikeWhere) bikeModel None) = Return _)
    as Hacc by (vm_compute; reflexivity).
  destruct (where_target_is_fully_inserted build bikes
              (field (Some bikeWhere) bikeModel None) (plugin (Some bikeWhere) bikeModel None)
              bikeWhere (PgConstraint.mk "1" "serial_weight_unique" "u" [5%Z; 2%Z]) weight
              (conj eq_refl eq_refl) eq_refl eq_refl
              ltac:(by apply (bool_decide_unpack _)))
    as (wv & v & Hwv & Hagree & Hfield & _).
  eexists _, wv, v. split; [exact Hacc|]. split; [exact Hwv|]. split; [exact Hagree|].
  exact (Hfield _ Hacc).
Defined.

(** The test "upsert where clause". *)
Lemma statement_nodes_have_an_origin_witness :
  ∃ q, UpsertField.resolve build roles (field (Some roleWhere) roleFrank None) = Return q
       ∧ Forall (nodeOrigin build roles (Some roleWhere) roleFrank) q.
Proof.
  eassert (UpsertField.resolve build roles (field (Some roleWhere) roleFrank None) = Return _)
    as Hq by (vm_compute; reflexivity).
  eexists. split; [exact Hq|].
  exact (proj1 (statement_nodes_have_an_origin build roles
                  (field (Some roleWhere) roleFrank None) (plugin None [] None)) _ Hq).
Defined.

(** A [where] with a key that names no column of [bikes]. *)
Lemma where_is_read_at_attribute_names_witness :
  UpsertField.resolve build bikes (field (Some bikeWhereColour) bikeModel None)
  = UpsertField.resolve build bikes (field (Some bikeWhere) bikeModel None).
Proof.
  exact (proj1 (where_is_read_at_attribute_names build bikes bikeWhere bikeWhereColour
                  bikeModel None None
                  ltac:(apply Forall_forall; repeat constructor))).
Defined.

(** An upsert of a bike with no field. *)
Lemma empty_input_inserts_default_values_witness :
  UpsertField.resolve build bikes (field None [] None)
  = Return (defaultValuesStatement "public" "bikes")
  ∧ UpsertPlugin.resolve build bikes (plugin None [] None)
    = Return (defaultValuesStatement "public" "bikes").
Proof.
  destruct (empty_input_inserts_default_values build bikes "public"
              (PgConstraint.mk "1" "bikes_pkey" "p" [1%Z]) None None
              eq_refl eq_refl bikes_resolved bikes_named) as [Hfield Hplugin].
  split; [exact Hfield|]. apply Hplugin. repeat constructor; simpl; discriminate.
Defined.

Lemma bikes_upsertable : bikesClass ∈ UpsertResolverPlugin.upsertableTables schema.
Proof. left. Defined.

(** [bikes] is in the schema [public]. *)
Lemma upsertable_table_has_namespace_witness :
  is_Some (PgTable.namespace bikes)
  ∧ UpsertField.resolve build bikes (field None [] None)
    ≠ Throw (AssertionError "expected table namespace").
Proof.
  destruct (proj2 (upsertable_table_has_namespace build schema bikesClass
                     (field None [] None) (plugin None [] None)) bikes_upsertable)
    as (Hns & Hfield & _).
  split; [exact Hns|exact Hfield].
Defined.

(** The [where] type of [bikes]: [serialNumber] is a field, for the
    member [serial_number] of [serial_weight_unique]. *)
Lemma where_type_fields_witness :
  ∃ fields,
    UpsertResolverPlugin.gqlInputTypesByFieldName build schema bikes = Return fields
    ∧ fields = [("id", "Int"); ("serialNumber", "String"); ("weight", "Float")]
    ∧ ∃ con col, con ∈ UpsertField.uniqueConstraints build bikes
                 ∧ omitsRead build schema bikes con = Return false
                 ∧ col ∈ members (UpsertField.attributes build bikes) con
                 ∧ "serialNumber" = camelCase (inflection build) (PgAttribute.name col).
Proof.
  eassert (UpsertResolverPlugin.gqlInputTypesByFieldName build schema bikes = Return _)
    as Hfields by (vm_compute; reflexivity).
  eexists. split; [exact Hfields|]. split; [reflexivity|].
  apply (proj1 (proj2 (where_type_fields build schema bikes _ Hfields)) "serialNumber").
  by apply (bool_decide_unpack _).
Defined.

(** [bikes], none of whose columns omits [read]. *)
Lemma built_field_throws_request_errors_only_witness :
  resolved (UpsertField.attributes build bikes) (UpsertField.uniqueConstraints build bikes)
  ∧ (valueMismatch "serialNumber"
     = noMatchingConstraint
         (UpsertField.inputDataKeys (field (Some bikeWhere) bikeOther None))
     ∨ ∃ attr, attr ∈ UpsertField.attributes build bikes
               ∧ mismatch build (Some bikeWhere) bikeOther attr = true
               ∧ valueMismatch "serialNumber" = valueMismatch (column (inflection build) attr)).
Proof.
  eassert (UpsertResolverPlugin.gqlInputTypesByFieldName build schema bikes = Return _)
    as Hfields by (vm_compute; reflexivity).
  destruct (built_field_throws_request_errors_only build schema bikesClass _
              (field (Some bikeWhere) bikeOther None) bikes_upsertable Hfields
              ltac:(apply Forall_forall; repeat constructor)
              ltac:(discriminate)) as [Hres Hthrows].
  split; [exact Hres|]. exact (Hthrows _ eq_refl).
Defined.

(** [roles], had [title] omitted [read]: [PgMutationUpsertPlugin] gets
    [undefined] for the fields of the [where] type, [createUpsertField]
    the field of the primary key. *)
Lemma plugin_where_fields_lost_when_passed_over_witness :
  ∃ r, UpsertPluginFields.fields buildOmitRead schema roles = Return r
       ∧ r = None
       ∧ UpsertResolverPlugin.gqlInputTypesByFieldName buildOmitRead schema roles
         = Return [("id", "Int")].
Proof.
  eassert (UpsertPluginFields.fields buildOmitRead schema roles = Return _)
    as Hr by (vm_compute; reflexivity).
  eexists. split; [exact Hr|]. split; [|reflexivity].
  apply (proj1 (plugin_where_fields_lost_when_passed_over buildOmitRead schema roles)
           (PgConstraint.mk "2" "roles_project_name_title_key" "u" [2%Z; 3%Z]) _
           ltac:(right; left) eq_refl Hr).
Defined.

(** The test "Includes where clause values if ommitted from input":
    [serialNumber] is a field of the [where] type. *)
Lemma where_field_is_inserted_witness :
  ∃ acc col v,
    UpsertField.reconcile build bikes (field (Some bikeWhere) bikeModel None) = Return acc
    ∧ camelCase (inflection build) (PgAttribute.name col) = "serialNumber"
    ∧ (v = PString "123" ∨ strictEquals (PString "123") v = true)
    ∧ (sql.identifier [PgAttribute.name col],
       gql2pg build v (PgAttribute.type col) (PgAttribute.typeModifier col))
        ∈ zip (sqlColumns acc) (sqlValues acc).
Proof.
  eassert (UpsertField.reconcile build bikes (field (Some bikeWhere) bikeModel None) = Return _)
    as Hacc by (vm_compute; reflexivity).
  eassert (UpsertResolverPlugin.gqlInputTypesByFieldName build schema bikes = Return _)
    as Hfields by (vm_compute; reflexivity).
  destruct (proj1 (where_field_is_inserted build schema bikes
                     (field (Some bikeWhere) bikeModel None)
                     (plugin (Some bikeWhere) bikeModel None)
                     bikeWhere "serialNumber" (PString "123")
                     (conj eq_refl eq_refl) eq_refl eq_refl) _ Hfields
              ltac:(by apply (bool_decide_unpack _)))
    as (col & _ & Hname & Hins).
  destruct (Hins _ Hacc) as (v & Hagree & Hin).
  eexists _, col, v. split; [exact Hacc|]. split; [exact Hname|]. split; [exact Hagree|].
  exact Hin.
Defined.

(** [ignore: { rank: false }] on [roles]. *)
Lemma ignore_field_decides_the_update_witness :
  ∃ attr, attr ∈ UpsertPlugin.attributes build roles
          ∧ camelCase (inflection build) (PgAttribute.name attr) = "rank"
          ∧ ignoreEntry build (plugin (Some roleWhere) roleFrank (Some [("rank", Some false)]))
              attr = Some false.
Proof.
  destruct (proj2 (ignore_field_decides_the_update build roles "Boolean"
                     (plugin (Some roleWhere) roleFrank (Some [("rank", Some false)]))
                     [("rank", Some false)] "rank" (Some false))
              eq_refl eq_refl ltac:(by apply (bool_decide_unpack _)))
    as (attr & Hattr & Hname & Hentry & _).
  exists attr. split; [exact Hattr|]. split; [exact Hname|exact Hentry].
Defined.

(** [ignore: [RANK, SHOE_SIZE]] on [roles], which has no such column. *)
Lemma ignore_changes_the_update_only_witness :
  UpsertField.resolve build roles (field (Some roleWhere) roleFrank (Some ["RANK"; "SHOE_SIZE"]))
  = UpsertField.resolve build roles (field (Some roleWhere) roleFrank (Some ["RANK"])).
Proof.
  apply (proj2 (proj2 (proj1 (ignore_changes_the_update_only build roles (Some roleWhere)
                                roleFrank (Some ["RANK"; "SHOE_SIZE"]) (Some ["RANK"])
                                None None)))).
  apply Forall_forall. repeat constructor; by apply (bool_decide_unpack _).
Defined.

(** The request [upsertRole(input: {role: {rank: 1}})]: the only inserted
    column omits the update on conflict. *)
Lemma no_kept_column_gives_empty_update_set_witness :
  ∃ q acc namespaceName constraintName,
    UpsertField.resolve build roles (field None roleRank None) = Return q
    ∧ UpsertField.reconcile build roles (field None roleRank None) = Return acc
    ∧ q = upsertStatement namespaceName (PgTable.name roles) constraintName
            (sqlColumns acc) (sqlValues acc) (doUpdateSet []).
Proof.
  eassert (UpsertField.resolve build roles (field None roleRank None) = Return _)
    as Hq by (vm_compute; reflexivity).
  eassert (UpsertField.reconcile build roles (field None roleRank None) = Return _)
    as Hacc by (vm_compute; reflexivity).
  destruct (proj1 (no_kept_column_gives_empty_update_set build roles
                     (field None roleRank None) (plugin None roleRank None))
              _ _ Hq Hacc ltac:(discriminate) eq_refl)
    as (namespaceName & constraintName & Heq & _).
  eexists _, _, namespaceName, constraintName. split; [exact Hq|]. split; [exact Hacc|exact Heq].
Defined.

(** ** Constraints named by numbers *)

Import Numbered.

(** C5, the divergence of both versions: the table [pairs], whose primary
    key, named [5], the catalogue lists before its unique constraint,
    named [3], and [upsertPair(where: {a: 1, b: 2}, input: {pair: {a: 1,
    b: 2}})].  The keys of [where] cover both constraints, and the first
    of them in the order of the catalogue is [5]; the object that
    [resolve] collects the member columns in lists the key [3] before the
    key [5], and both versions take [3] for the conflict target. *)
Theorem numbered_constraints_change_the_target :
  PgConstraint.name <$> UpsertField.uniqueConstraints buildNumbered pairs = ["5"; "3"]
  ∧ PgConstraint.name
      <$> List.find (covers (inflection buildNumbered) (UpsertField.attributes buildNumbered pairs)
                       (hasOwnProperty pairWhere))
                    (UpsertField.uniqueConstraints buildNumbered pairs)
    = Some "5"
  ∧ (columns ← UpsertField.columnsByConstraintName buildNumbered pairs;
     Return (Object_keys columns))
    = Return ["3"; "5"]
  ∧ UpsertField.resolve buildNumbered pairs (field (Some pairWhere) pairInput None)
    = Return (upsertStatement "public" "pairs" "3"
                [IDENTIFIER ["a"]; IDENTIFIER ["b"]]
                [[VALUE (number 1)]; [VALUE (number 2)]]
                (doUpdateSet [assignment (IDENTIFIER ["a"]); assignment (IDENTIFIER ["b"])]))
  ∧ UpsertPlugin.resolve buildNumbered pairs (plugin (Some pairWhere) pairInput None)
    = Return (upsertStatement "public" "pairs" "3"
                [IDENTIFIER ["a"]; IDENTIFIER ["b"]]
                [[VALUE (number 1)]; [VALUE (number 2)]]
                (doUpdateSet [assignment (IDENTIFIER ["a"]); assignment (IDENTIFIER ["b"])])).
Proof. repeat split; vm_compute; reflexivity. Qed.
